(** * drawio_agentic: style harvesting and prompt-to-diagram generation

    A shallow embedding of the two programs of the repository,
    [harvest_all_styles.py] (the style harvester) and [prompt2drawio.py]
    (graph construction, layered layout, style resolution and the draw.io
    serializer), followed by the properties the specification states about
    them.

    Conventions of the embedding:
    - a Python [str] is a [string]; the string operations the code calls
      ([strip], [lower], [replace], [startswith], [in], [split], [join]) are
      written out in [PyStr] on the characters of the string, with the
      case and the white space of ASCII: on ASCII text they are the
      operations of Python, and they leave every other character as it is;
      a statement that turns on the letter case of a text is made for ASCII
      text;
    - a Python [dict] keeps insertion order, and the code relies on it
      (first match wins, [next(iter(d))]): a dict is an association list with
      unique keys, see [PyDict];
    - a Python [int] that counts is a [nat] or an [N]; a coordinate is a [Z];
    - a call that can raise returns an [option]. *)

From Stdlib Require Import List String Ascii Bool Arith Lia ZArith NArith.
From Stdlib Require Import Permutation Sorted.
From Stdlib Require Import DecimalString DecimalN DecimalZ.
Import ListNotations.
Open Scope string_scope.

(** ** Python string primitives *)

Module PyStr.

(** The double quote character, as a one-character string. *)
Definition dq : string := String "034"%char "".

(** The line feed, as a one-character string. *)
Definition nl : string := String "010"%char "".

(** [str.isspace] on the ASCII range: TAB, LF, VT, FF, CR, FS, GS, RS, US and
    the space. *)
Definition is_space (c : ascii) : bool :=
  match nat_of_ascii c with
  | 9 | 10 | 11 | 12 | 13 | 28 | 29 | 30 | 31 | 32 => true
  | _ => false
  end.

Definition is_upper (c : ascii) : bool :=
  Nat.leb 65 (nat_of_ascii c) && Nat.leb (nat_of_ascii c) 90.

Definition lower_char (c : ascii) : ascii :=
  if is_upper c then ascii_of_nat (nat_of_ascii c + 32) else c.

(** [s.lower()] on ASCII text: the 26 capital letters are lowered, every
    other character is kept. *)
Fixpoint lower (s : string) : string :=
  match s with
  | EmptyString => EmptyString
  | String c s' => String (lower_char c) (lower s')
  end.

(** [s.lstrip(chars)], the characters given by a predicate. *)
Fixpoint lstrip_by (p : ascii -> bool) (s : string) : string :=
  match s with
  | EmptyString => EmptyString
  | String c s' => if p c then lstrip_by p s' else s
  end.

(** [s.rstrip(chars)] *)
Fixpoint rstrip_by (p : ascii -> bool) (s : string) : string :=
  match s with
  | EmptyString => EmptyString
  | String c s' =>
      match rstrip_by p s' with
      | EmptyString => if p c then EmptyString else String c EmptyString
      | r => String c r
      end
  end.

Definition strip_by (p : ascii -> bool) (s : string) : string :=
  rstrip_by p (lstrip_by p s).

(** [s.strip()], the white space being that of [is_space]. *)
Definition strip (s : string) : string := strip_by is_space s.

(** [s.startswith(p)] *)
Definition startswith (s p : string) : bool := String.prefix p s.

(** [sub in s] *)
Fixpoint contains (sub s : string) : bool :=
  String.prefix sub s ||
  match s with
  | EmptyString => false
  | String _ s' => contains sub s'
  end.

Fixpoint drop (n : nat) (s : string) : string :=
  match n, s with
  | O, _ => s
  | S _, EmptyString => EmptyString
  | S k, String _ s' => drop k s'
  end.

(** [s.replace(old, new)] for a non-empty [old] (every call of the code has
    one): occurrences are found left to right and do not overlap.  [skip]
    counts the characters of an occurrence still to be passed over. *)
Fixpoint replace_from (skip : nat) (old new s : string) : string :=
  match s with
  | EmptyString => EmptyString
  | String c s' =>
      match skip with
      | S k => replace_from k old new s'
      | O =>
          if String.prefix old s
          then new ++ replace_from (String.length old - 1) old new s'
          else String c (replace_from 0 old new s')
      end
  end.

Definition replace (old new s : string) : string := replace_from 0 old new s.

(** [s.split(sep, 1)] when [sep] occurs in [s]: the text before the first
    occurrence and the text after it; [None] when [sep] does not occur (the
    list then has one element and [[1]] raises). *)
Fixpoint split_once (sep s : string) : option (string * string) :=
  if String.prefix sep s then Some (EmptyString, drop (String.length sep) s)
  else
    match s with
    | EmptyString => None
    | String c s' =>
        match split_once sep s' with
        | Some (a, b) => Some (String c a, b)
        | None => None
        end
    end.

(** [sep.join(l)] *)
Definition join (sep : string) (l : list string) : string := String.concat sep l.

(** [str(n)] for a non-negative integer and for an integer. *)
Definition str_of_N (n : N) : string := NilEmpty.string_of_uint (N.to_uint n).
Definition str_of_Z (z : Z) : string := NilEmpty.string_of_int (Z.to_int z).

(** Character-wise substitution: each character is replaced by a string. *)
Fixpoint subst_chars (f : ascii -> string) (s : string) : string :=
  match s with
  | EmptyString => EmptyString
  | String c s' => f c ++ subst_chars f s'
  end.

(** [s.find(sub)]: the lowest index at which [sub] starts, [None] for the
    result -1. *)
Fixpoint str_find (sub s : string) : option nat :=
  if String.prefix sub s then Some 0
  else
    match s with
    | EmptyString => None
    | String _ s' => option_map S (str_find sub s')
    end.

(** [s.rfind(sub)]: the highest such index. *)
Fixpoint str_rfind (sub s : string) : option nat :=
  match s with
  | EmptyString => if String.prefix sub s then Some 0 else None
  | String _ s' =>
      match str_rfind sub s' with
      | Some i => Some (S i)
      | None => if String.prefix sub s then Some 0 else None
      end
  end.

(** [s[a:b]] for indices [0 <= a <= b]. *)
Definition slice (a b : nat) (s : string) : string := String.substring a (b - a) s.

End PyStr.

(** ** Python dictionaries

    Python dictionaries enumerate their keys in insertion order;
    [d[k] = v] on a key that is present keeps its place. *)

Class PyKey (K : Type) := {
  key_eqb : K -> K -> bool;
  key_eqb_spec : forall a b : K, reflect (a = b) (key_eqb a b)
}.

#[global]
Instance string_key : PyKey string :=
  {| key_eqb := String.eqb; key_eqb_spec := String.eqb_spec |}.

#[global]
Instance nat_key : PyKey nat :=
  {| key_eqb := Nat.eqb; key_eqb_spec := Nat.eqb_spec |}.

Module PyDict.
Section Dict.
Context {K V : Type} `{PyKey K}.

Definition dict : Type := list (K * V).

(** [d.get(k)] *)
Fixpoint get (k : K) (d : dict) : option V :=
  match d with
  | [] => None
  | (k', v) :: d' => if key_eqb k' k then Some v else get k d'
  end.

(** [k in d] *)
Definition mem (k : K) (d : dict) : bool :=
  match get k d with Some _ => true | None => false end.

(** [d[k] = v] *)
Fixpoint set (k : K) (v : V) (d : dict) : dict :=
  match d with
  | [] => [(k, v)]
  | (k', v') :: d' =>
      if key_eqb k' k then (k', v) :: d' else (k', v') :: set k v d'
  end.

(** [d.setdefault(k, v)], for its effect on [d]. *)
Definition setdefault (k : K) (v : V) (d : dict) : dict :=
  if mem k d then d else set k v d.

Definition keys (d : dict) : list K := map fst d.
Definition values (d : dict) : list V := map snd d.

(** [dict(pairs)] *)
Definition of_pairs (l : list (K * V)) : dict :=
  fold_left (fun d kv => set (fst kv) (snd kv) d) l [].

End Dict.
Arguments dict : clear implicits.
End PyDict.

(** ** Python list primitives *)

Module PyList.

(** [sorted(l)] and [l.sort(key=...)] are stable: elements that compare equal
    keep their order.  [leb] is the comparison (of the keys when there is a
    key); the insertion puts an element before the later ones it does not
    exceed. *)
Fixpoint insert_sorted {A} (leb : A -> A -> bool) (x : A) (l : list A) : list A :=
  match l with
  | [] => [x]
  | y :: l' => if leb x y then x :: l else y :: insert_sorted leb x l'
  end.

Fixpoint sorted {A} (leb : A -> A -> bool) (l : list A) : list A :=
  match l with
  | [] => []
  | x :: l' => insert_sorted leb x (sorted leb l')
  end.

(** [enumerate(l, start)] *)
Fixpoint enumerate {A} (start : nat) (l : list A) : list (nat * A) :=
  match l with
  | [] => []
  | x :: l' => (start, x) :: enumerate (S start) l'
  end.

(** [l.index(x)]: the first place of [x], [None] where the call raises. *)
Fixpoint index (x : string) (l : list string) : option nat :=
  match l with
  | [] => None
  | y :: l' => if String.eqb y x then Some 0 else option_map S (index x l')
  end.

End PyList.

(** ** harvest_all_styles.py *)

Module Harvest.
Import PyStr.

(** The character class [[a-zA-Z0-9_.]] of [STYLE_KV_RE]. *)
Definition is_key_char (c : ascii) : bool :=
  let n := nat_of_ascii c in
  (Nat.leb 97 n && Nat.leb n 122) || (Nat.leb 65 n && Nat.leb n 90) ||
  (Nat.leb 48 n && Nat.leb n 57) || Nat.eqb n 95 || Nat.eqb n 46.

Definition not_semicolon (c : ascii) : bool := negb (Ascii.eqb c ";").

(** The longest prefix of [s] whose characters satisfy [p], and the rest: a
    greedy character-class repetition. *)
Fixpoint span (p : ascii -> bool) (s : string) : string * string :=
  match s with
  | EmptyString => (EmptyString, EmptyString)
  | String c s' =>
      if p c then let (a, b) := span p s' in (String c a, b)
      else (EmptyString, s)
  end.

(** One match of [STYLE_KV_RE], the regular expression
    [( [a-zA-Z0-9_.]+ ) = ( [^;]* ) ;?] (written here with blanks), at the
    start of [s]: the two groups and the length of the match.  The key class does not
    hold [=], so the greedy key either is followed by [=] or no shorter key
    is; the value and the optional [;] never backtrack. *)
Definition match_kv (s : string) : option ((string * string) * nat) :=
  let (k, r) := span is_key_char s in
  match k, r with
  | String _ _, String "=" r' =>
      let (v, r'') := span not_semicolon r' in
      let semi := match r'' with String ";" _ => 1 | _ => 0 end in
      Some ((k, v), String.length k + 1 + String.length v + semi)
  | _, _ => None
  end.

(** [STYLE_KV_RE.findall]: matches are tried at each position from the left;
    after a match the scan goes on where it ended ([skip] characters on). *)
Fixpoint findall_from (skip : nat) (s : string) : list (string * string) :=
  match s with
  | EmptyString => []
  | String _ s' =>
      match skip with
      | S k => findall_from k s'
      | O =>
          match match_kv s with
          | Some (kv, n) => kv :: findall_from (n - 1) s'
          | None => findall_from 0 s'
          end
      end
  end.

Definition STYLE_KV_RE_findall (s : string) : list (string * string) :=
  findall_from 0 s.

(** The pairs [normalize_style] keeps: both parts stripped, empty keys
    dropped. *)
Definition style_pairs (style : string) : list (string * string) :=
  map (fun kv => (strip (fst kv), strip (snd kv)))
    (filter (fun kv => negb (String.eqb (strip (fst kv)) ""))
       (STYLE_KV_RE_findall style)).

Definition normalize_style (style : string) : string :=
  let kv := style_pairs style in
  let kv := PyList.sorted (fun x y => String.leb (lower (fst x)) (lower (fst y))) kv in
  join ";" (map (fun x => fst x ++ "=" ++ snd x) kv)
  ++ (match kv with [] => "" | _ => ";" end).

(** [d.get(k, '')] *)
Definition get_or_empty (k : string) (d : PyDict.dict string string) : string :=
  match PyDict.get k d with Some v => v | None => "" end.

(** [shape.split('mxgraph.', 1)[1]]; the guard before it makes the index
    valid. *)
Definition after_first (sep s : string) : string :=
  match split_once sep s with Some (_, b) => b | None => "" end.

Definition guess_key_from_style (style : string) (is_edge : bool) : string :=
  let d := PyDict.of_pairs (STYLE_KV_RE_findall style) in
  if negb is_edge then
    let shape := get_or_empty "shape" d in
    if startswith shape "mxgraph." then after_first "mxgraph." shape
    else if negb (String.eqb shape "") then "shape." ++ shape
    else "shape.rect"
  else
    let est := get_or_empty "edgeStyle" d in
    if negb (String.eqb est "") then "edge." ++ replace "EdgeStyle" "" est
    else
      let arr :=
        match PyDict.get "endArrow" d with
        | Some (String c a) => Some (String c a)
        | _ => PyDict.get "startArrow" d
        end in
      match arr with
      | Some (String c a) => "edge." ++ String c a
      | _ => "edge.orthogonal"
      end.

(** [re.sub(cls+, '-', s)]: every maximal run of characters of the class
    becomes one hyphen. *)
Fixpoint sub_runs (cls : ascii -> bool) (in_run : bool) (s : string) : string :=
  match s with
  | EmptyString => EmptyString
  | String c s' =>
      if cls c then
        if in_run then sub_runs cls true s'
        else String "-" (sub_runs cls true s')
      else String c (sub_runs cls false s')
  end.

(** The complement of the class [[a-z0-9_.\-]]. *)
Definition not_safe_char (c : ascii) : bool :=
  let n := nat_of_ascii c in
  negb ((Nat.leb 97 n && Nat.leb n 122) || (Nat.leb 48 n && Nat.leb n 57) ||
        Nat.eqb n 95 || Nat.eqb n 46 || Nat.eqb n 45).

Definition is_hyphen (c : ascii) : bool := Ascii.eqb c "-".

Definition safe_key (key : string) : string :=
  let key := lower (strip key) in
  let key := sub_runs not_safe_char false key in
  let key := strip_by is_hyphen (sub_runs is_hyphen false key) in
  match key with EmptyString => "style" | _ => key end.

(** The first entry, in enumeration order, whose normalized style is
    [s_norm]: the [for ek, es in mapping.items()] loop of [add_unique]. *)
Fixpoint find_norm (s_norm : string) (mapping : PyDict.dict string string)
  : option string :=
  match mapping with
  | [] => None
  | (ek, es) :: m' =>
      if String.eqb (normalize_style es) s_norm then Some ek
      else find_norm s_norm m'
  end.

(** The [while f"{k}-{i}" in mapping] loop of [add_unique], from [i] on.
    [fuel] bounds the number of iterations; [None] when it runs out. *)
Fixpoint probe (fuel : nat) (mapping : PyDict.dict string string)
    (k s_norm style : string) (i : N)
  : option (PyDict.dict string string * string) :=
  match fuel with
  | O => None
  | S fuel' =>
      let ki := k ++ "-" ++ str_of_N i in
      match PyDict.get ki mapping with
      | Some es =>
          if String.eqb (normalize_style es) s_norm then Some (mapping, ki)
          else probe fuel' mapping k s_norm style (i + 1)
      | None => Some (PyDict.set ki style mapping, ki)
      end
  end.

(** [add_unique(mapping, base_key, style)]: the mapping after the call and
    the key returned.  The loop ends within [len(mapping) + 1] iterations
    ([add_unique_returns] below), which is the fuel given. *)
Definition add_unique (mapping : PyDict.dict string string)
    (base_key style : string)
  : option (PyDict.dict string string * string) :=
  let k := safe_key base_key in
  let s_norm := normalize_style style in
  match find_norm s_norm mapping with
  | Some ek => Some (mapping, ek)
  | None =>
      if negb (PyDict.mem k mapping) then Some (PyDict.set k style mapping, k)
      else probe (S (List.length mapping)) mapping k s_norm style 1%N
  end.

(** The text before the first [>] of [s]: the group [( [^>]* )] when [>]
    follows it; [None] when [s] holds no [>]. *)
Fixpoint until_gt (s : string) : option string :=
  match s with
  | EmptyString => None
  | String c s' =>
      if Ascii.eqb c ">" then Some EmptyString
      else option_map (String c) (until_gt s')
  end.

(** The groups of the matches of [<name( [^>]* )>] (written here with
    blanks) with the flags [IGNORECASE] and [DOTALL], [name] in lower case:
    a match is tried at each position from the left; the class stops at the
    first [>] and nothing shorter is followed by one; after a match the scan
    goes on where it ended ([skip] characters on).  No character outside
    ASCII has the case of a letter of [mxcell]. *)
Fixpoint tag_groups_from (name : string) (skip : nat) (xml : string) : list string :=
  match xml with
  | EmptyString => []
  | String _ rest =>
      match skip with
      | S k => tag_groups_from name k rest
      | O =>
          if String.prefix (String "<" name) (lower xml) then
            match until_gt (drop (S (String.length name)) xml) with
            | Some attrs =>
                attrs :: tag_groups_from name
                           (String.length name + String.length attrs + 1) rest
            | None => tag_groups_from name 0 rest
            end
          else tag_groups_from name 0 rest
      end
  end.

(** [MXCELL_RE.finditer(xml)], the regular expression [<mxCell( [^>]* )>]:
    the group of each match, as [extract_cells_from_drawio_xml] reads the
    cells of a document. *)
Definition MXCELL_RE_groups (xml : string) : list string :=
  tag_groups_from "mxcell" 0 xml.

(** The loop of [main] over the harvested cells, [(style, is_edge)] pairs:
    each style is filed with [add_unique] under the key
    [guess_key_from_style] proposes; the key returned is not used. *)
Definition collect_cell (styles : option (PyDict.dict string string))
    (cell : string * bool) : option (PyDict.dict string string) :=
  match styles with
  | None => None
  | Some m =>
      let base_key := guess_key_from_style (fst cell) (snd cell) in
      option_map fst (add_unique m base_key (fst cell))
  end.

Definition collect_styles (cells : list (string * bool))
    (styles : PyDict.dict string string) : option (PyDict.dict string string) :=
  fold_left collect_cell cells (Some styles).

End Harvest.

(** ** prompt2drawio.py *)

Module Drawio.
Import PyStr.

Definition NODE_W : Z := 240.
Definition NODE_H : Z := 96.
Definition H_GAP : Z := 200.
Definition V_GAP : Z := 160.

(** *** The two escaping layers *)

(** [html.escape(s, quote=True)] of the Python library, which [html_escape]
    calls: five replacements, the ampersand first. *)
Definition html_escape (s : string) : string :=
  replace "'" "&#x27;"
    (replace dq "&quot;"
      (replace ">" "&gt;"
        (replace "<" "&lt;"
          (replace "&" "&amp;" s)))).

(** [xml_attr]: [None] gives the empty string, otherwise four replacements. *)
Definition xml_attr (s : option string) : string :=
  match s with
  | None => EmptyString
  | Some s =>
      replace dq "&quot;"
        (replace ">" "&gt;"
          (replace "<" "&lt;"
            (replace "&" "&amp;" s)))
  end.

(** Modelled from the spec: the two unescape passes, which the repository
    does not hold (its output is decoded by the reader of the document).
    Each is the standard single-pass entity decoder of its layer: at an
    ampersand that starts one of the layer's entities the character it names
    is written and the entity passed over, any other character is copied. *)
Fixpoint xml_unescape_from (skip : nat) (s : string) : string :=
  match s with
  | EmptyString => EmptyString
  | String c s' =>
      match skip with
      | S k => xml_unescape_from k s'
      | O =>
          if String.prefix "&amp;" s then String "&" (xml_unescape_from 4 s')
          else if String.prefix "&lt;" s then String "<" (xml_unescape_from 3 s')
          else if String.prefix "&gt;" s then String ">" (xml_unescape_from 3 s')
          else if String.prefix "&quot;" s then String "034" (xml_unescape_from 5 s')
          else String c (xml_unescape_from 0 s')
      end
  end.

Definition xml_unescape (s : string) : string := xml_unescape_from 0 s.

(** Modelled from the spec: the unescape pass of the content layer, the
    decoder of the five entities [html.escape] writes. *)
Fixpoint html_unescape_from (skip : nat) (s : string) : string :=
  match s with
  | EmptyString => EmptyString
  | String c s' =>
      match skip with
      | S k => html_unescape_from k s'
      | O =>
          if String.prefix "&amp;" s then String "&" (html_unescape_from 4 s')
          else if String.prefix "&lt;" s then String "<" (html_unescape_from 3 s')
          else if String.prefix "&gt;" s then String ">" (html_unescape_from 3 s')
          else if String.prefix "&quot;" s then String "034" (html_unescape_from 5 s')
          else if String.prefix "&#x27;" s then String "'" (html_unescape_from 5 s')
          else String c (html_unescape_from 0 s')
      end
  end.

Definition html_unescape (s : string) : string := html_unescape_from 0 s.

(** *** The generic graph specification *)

Inductive shape_kind := rect | round | rhombus.
Inductive direction := TD | LR.

(** A node dictionary [{"id", "label", "shape", "html"}]; a missing ["html"]
    reads as [False], a missing or empty ["label"] as the empty string. *)
Record node := mk_node {
  n_id : string;
  n_label : string;
  n_shape : shape_kind;
  n_html : bool
}.

Record edge := mk_edge {
  e_from : string;
  e_to : string;
  e_label : string
}.

Record graph_spec := mk_spec {
  g_title : string;
  g_direction : direction;
  g_nodes : list node;
  g_edges : list edge
}.

(** *** Style resolution *)

(** A Python truth test on an optional string: [None] and the empty string
    are false. *)
Definition truthy (o : option string) : option string :=
  match o with
  | Some (String c s) => Some (String c s)
  | _ => None
  end.

Definition style_from_key_or_literal (arg : option string)
    (styles : PyDict.dict string string) : option string :=
  match truthy arg with
  | None => None
  | Some arg =>
      let a := strip arg in
      if startswith (lower a) "shape=" || contains ";" a then Some a
      else PyDict.get a styles
  end.

Definition _find_style (styles : PyDict.dict string string)
    (include exclude : list string) : option string :=
  match styles with
  | [] => None
  | _ =>
      let inc := map lower include in
      let exc := map lower exclude in
      let matches (kv : string * string) :=
        let lk := lower (fst kv) in
        forallb (fun tok => contains tok lk) inc &&
        negb (existsb (fun tok => contains tok lk) exc) in
      match find matches styles with
      | Some (String c k, _) => PyDict.get (String c k) styles
      | _ => None
      end
  end.

(** [re.search(r'(^|;)html=1(;|$)', style)]; [$] also matches before a final
    line feed. *)
Definition html1_here (s : string) : bool :=
  if String.prefix "html=1" s then
    match drop 6 s with
    | EmptyString => true
    | String ";" _ => true
    | String "010" EmptyString => true
    | _ => false
    end
  else false.

Fixpoint html1_after_semicolon (s : string) : bool :=
  match s with
  | EmptyString => false
  | String c s' =>
      (if Ascii.eqb c ";" then html1_here s' else false)
      || html1_after_semicolon s'
  end.

Definition has_html1 (style : string) : bool :=
  html1_here style || html1_after_semicolon style.

Definition is_semicolon (c : ascii) : bool := Ascii.eqb c ";".

Definition ensure_html (style : string) : string :=
  if has_html1 style then style
  else rstrip_by is_semicolon style ++ ";html=1;".

Definition default_vertex_style (shape : shape_kind) (html : bool) : string :=
  let base := if html then "whiteSpace=wrap;html=1;" else "whiteSpace=wrap;html=1;" in
  match shape with
  | rhombus => "shape=rhombus;rounded=0;" ++ base
  | round => "rounded=1;" ++ base
  | rect => "rounded=0;" ++ base
  end.

Definition default_edge_style : string :=
  "edgeStyle=orthogonalEdgeStyle;rounded=1;orthogonalLoop=1;jettySize=auto;html=1;".

(** The loop [for inc in pref_keys] of [style_for_vertex] and
    [style_for_edge]: the first preference with a non-empty match. *)
Fixpoint first_preferred (styles : PyDict.dict string string)
    (pref_keys : list (list string)) (exclude : list string) : option string :=
  match pref_keys with
  | [] => None
  | inc :: rest =>
      match truthy (_find_style styles inc exclude) with
      | Some s => Some s
      | None => first_preferred styles rest exclude
      end
  end.

Definition style_for_vertex (shape : shape_kind) (html : bool)
    (styles : PyDict.dict string string) (pref_keys : list (list string))
    (override : option string) : string :=
  match truthy (style_from_key_or_literal override styles) with
  | Some s => if html then ensure_html s else s
  | None =>
      match first_preferred styles pref_keys ["edge"] with
      | Some s => if html then ensure_html s else s
      | None => default_vertex_style shape html
      end
  end.

Definition style_for_edge (styles : PyDict.dict string string)
    (pref_keys : list (list string)) (override : option string) : string :=
  match truthy (style_from_key_or_literal override styles) with
  | Some s => ensure_html s
  | None =>
      match first_preferred styles pref_keys [] with
      | Some s => ensure_html s
      | None => default_edge_style
      end
  end.

(** *** Graph construction and layout *)

(** The node [build_graph] makes up for an endpoint that is not declared. *)
Definition placeholder (nid : string) : node :=
  {| n_id := nid; n_label := nid; n_shape := rect; n_html := true |}.

(** One iteration of the loop over [spec["edges"]] in [build_graph]. *)
Definition build_graph_step
    (st : PyDict.dict string node * PyDict.dict string nat) (e : edge)
  : PyDict.dict string node * PyDict.dict string nat :=
  let (nodes_by_id, indegree) := st in
  let (nodes_by_id, indegree) :=
    match PyDict.get (e_to e) indegree with
    | Some d => (nodes_by_id, PyDict.set (e_to e) (d + 1) indegree)
    | None =>
        (PyDict.setdefault (e_to e) (placeholder (e_to e)) nodes_by_id,
         PyDict.set (e_to e) 1 indegree)
    end in
  if negb (PyDict.mem (e_from e) nodes_by_id) then
    (PyDict.setdefault (e_from e) (placeholder (e_from e)) nodes_by_id,
     PyDict.setdefault (e_from e) 0 indegree)
  else (nodes_by_id, indegree).

Definition build_graph (spec : graph_spec)
  : PyDict.dict string node * PyDict.dict string nat :=
  let nodes_by_id := PyDict.of_pairs (map (fun n => (n_id n, n)) (g_nodes spec)) in
  let indegree := map (fun kv => (fst kv, 0)) nodes_by_id in
  fold_left build_graph_step (g_edges spec) (nodes_by_id, indegree).

(** [adj[e["from"]].append(e["to"])] on a [defaultdict(list)]. *)
Definition adjacency (edges : list edge) : PyDict.dict string (list string) :=
  fold_left
    (fun adj e =>
       let old := match PyDict.get (e_from e) adj with Some l => l | None => [] end in
       PyDict.set (e_from e) (old ++ [e_to e])%list adj)
    edges [].

(** [adj.get(u, [])] *)
Definition successors (adj : PyDict.dict string (list string)) (u : string)
  : list string :=
  match PyDict.get u adj with Some l => l | None => [] end.

(** The initial queue: the zero-indegree nodes, or, when there is none, the
    first node; [next(iter(nodes_by_id))] raises on an empty dictionary. *)
Definition start_queue (nodes_by_id : PyDict.dict string node)
    (indegree : PyDict.dict string nat) : option (list string) :=
  match map fst (filter (fun kv => Nat.eqb (snd kv) 0) indegree) with
  | [] =>
      match nodes_by_id with
      | [] => None
      | (nid, _) :: _ => Some [nid]
      end
  | q => Some q
  end.

(** The state of the traversal: the queue, the distances, the visited set. *)
Definition bfs_state : Type :=
  list string * PyDict.dict string nat * list string.

(** The body of [for v in adj.get(u, [])]; [dist[u]] raises on a missing
    key. *)
Definition visit (u : string) (st : option bfs_state) (v : string)
  : option bfs_state :=
  match st with
  | None => None
  | Some (q, dist, vis) =>
      if existsb (String.eqb v) vis then Some (q, dist, vis)
      else
        match PyDict.get u dist with
        | None => None
        | Some du => Some ((q ++ [v])%list, PyDict.set v (du + 1) dist, v :: vis)
        end
  end.

(** The loop [while q]; [fuel] bounds its iterations, [None] when it runs out
    or a lookup raises. *)
Fixpoint bfs (fuel : nat) (adj : PyDict.dict string (list string))
    (q : list string) (dist : PyDict.dict string nat) (vis : list string)
  : option (PyDict.dict string nat) :=
  match q with
  | [] => Some dist
  | u :: q' =>
      match fuel with
      | O => None
      | S fuel' =>
          match fold_left (visit u) (successors adj u) (Some (q', dist, vis)) with
          | None => None
          | Some (q'', dist', vis') => bfs fuel' adj q'' dist' vis'
          end
      end
  end.

(** Every iteration takes one node off the queue, and a node enters the queue
    once, when an edge first reaches it: the initial queue and one iteration
    per edge are fuel enough ([bfs_layers_returns] below). *)
Definition bfs_fuel (edges : list edge) (q : list string) : nat :=
  List.length q + List.length edges.

(** The part [layer_layout] and [choose_direction_auto] share: graph,
    adjacency, queue, traversal.  The result is [dist]. *)
Definition bfs_layers (spec : graph_spec) : option (PyDict.dict string nat) :=
  let (nodes_by_id, indegree) := build_graph spec in
  let adj := adjacency (g_edges spec) in
  match start_queue nodes_by_id indegree with
  | None => None
  | Some q =>
      bfs (bfs_fuel (g_edges spec) q) adj q
        (PyDict.of_pairs (map (fun nid => (nid, 0)) q)) q
  end.

Definition choose_direction_auto (spec : graph_spec) : option direction :=
  match bfs_layers spec with
  | None => None
  | Some dist =>
      let layers : PyDict.dict nat nat :=
        fold_left
          (fun layers kv =>
             let old := match PyDict.get (snd kv) layers with Some c => c | None => 0 end in
             PyDict.set (snd kv) (old + 1) layers)
          dist [] in
      let most := match layers with [] => 1 | _ => List.list_max (PyDict.values layers) end in
      let count := match List.length layers with 0 => 1 | n => n end in
      Some (if Nat.ltb count most then LR else TD)
  end.

(** [layers.setdefault(d, []).append(nid)] over [dist.items()]. *)
Definition group_layers (dist : PyDict.dict string nat)
  : PyDict.dict nat (list string) :=
  fold_left
    (fun layers kv =>
       let old := match PyDict.get (snd kv) layers with Some l => l | None => [] end in
       PyDict.set (snd kv) (old ++ [fst kv])%list layers)
    dist [].

(** The coordinates of the node at place [i] of layer [layer]. *)
Definition place (dir : direction) (layer i : nat) : Z * Z :=
  match dir with
  | TD => (Z.of_nat i * (NODE_W + H_GAP), Z.of_nat layer * (NODE_H + V_GAP))%Z
  | LR => (Z.of_nat layer * (NODE_W + H_GAP), Z.of_nat i * (NODE_H + V_GAP))%Z
  end.

(** The two nested loops that fill [pos]. *)
Definition assign_positions (dir : direction)
    (layers : PyDict.dict nat (list string)) : PyDict.dict string (Z * Z) :=
  fold_left
    (fun pos layer_nids =>
       fold_left
         (fun pos i_nid => PyDict.set (snd i_nid) (place dir (fst layer_nids) (fst i_nid)) pos)
         (PyList.enumerate 0 (PyList.sorted String.leb (snd layer_nids)))
         pos)
    (PyList.sorted (fun a b => Nat.leb (fst a) (fst b)) layers)
    [].

(** [layer_layout]: the specification with its direction set, and [pos]. *)
Definition layer_layout (spec : graph_spec) (dir : option direction)
  : option (graph_spec * PyDict.dict string (Z * Z)) :=
  let chosen :=
    match dir with
    | None => choose_direction_auto spec
    | Some d => Some d
    end in
  match chosen with
  | None => None
  | Some d =>
      let spec := {| g_title := g_title spec; g_direction := d;
                     g_nodes := g_nodes spec; g_edges := g_edges spec |} in
      match bfs_layers spec with
      | None => None
      | Some dist => Some (spec, assign_positions d (group_layers dist))
      end
  end.

(** *** The draw.io document *)

Inductive mode :=
  | mode_er | mode_class | mode_sequence | mode_state | mode_activity
  | mode_usecase | mode_generic.

(** The [override] dictionary of the command line, one entry per option. *)
Record overrides := mk_overrides {
  ov_er_entity : option string;
  ov_er_edge : option string;
  ov_class : option string;
  ov_class_edge : option string;
  ov_actor : option string;
  ov_usecase : option string;
  ov_usecase_edge : option string;
  ov_vertex : option string;
  ov_edge : option string
}.

(** What one [<mxCell>] element of the output holds, before it is written
    out: a vertex with its geometry, or an edge with its two ends. *)
Inductive cell_body :=
  | Vertex (x y width height : Z)
  | Edge (source target : string).

Record mxCell := mk_cell {
  cell_id : string;
  cell_value : string;
  cell_style : string;
  cell_body_of : cell_body
}.

Definition v_pref (m : mode) : list (list string) :=
  match m with
  | mode_er => [["er.entity"]; ["entity"]; ["table"]; ["erd"]; ["sql"]; ["db"]]
  | mode_class => [["uml.class"]; ["class"]]
  | mode_usecase => [["usecase"]; ["uml.usecase"]; ["ellipse"]; ["oval"]]
  | _ => [["shape.rect"]]
  end.

Definition e_pref (m : mode) : list (list string) :=
  match m with
  | mode_er => [["edge.entityrelation"]; ["entityrelation"]; ["er.edge"]; ["relationship"]]
  | mode_class => [["edge.uml"]; ["association"]; ["edge.orthogonal"]]
  | mode_usecase => [["edge.association"]; ["edge.uml"]; ["edge.orthogonal"]]
  | _ => [["edge.orthogonal"]]
  end.

Definition vertex_style (m : mode) (styles : PyDict.dict string string)
    (override : overrides) (n : node) : string :=
  match m with
  | mode_usecase =>
      if startswith (n_id n) "A" then
        style_for_vertex round true styles
          [["uml.actor"]; ["actor"]; ["stickman"]; ["person"]] (ov_actor override)
      else if startswith (n_id n) "U" then
        style_for_vertex round true styles
          [["usecase"]; ["ellipse"]; ["oval"]] (ov_usecase override)
      else style_for_vertex (n_shape n) (n_html n) styles (v_pref m) (ov_vertex override)
  | mode_class => style_for_vertex rect true styles (v_pref m) (ov_class override)
  | mode_er => style_for_vertex rect true styles (v_pref m) (ov_er_entity override)
  | _ => style_for_vertex (n_shape n) (n_html n) styles (v_pref m) (ov_vertex override)
  end.

(** [positions.get(nid, (0, 0))] *)
Definition position_of (positions : PyDict.dict string (Z * Z)) (nid : string)
  : Z * Z :=
  match PyDict.get nid positions with Some xy => xy | None => (0, 0)%Z end.

(** [n.get("label") or n.get("id", "")] *)
Definition label_or_id (n : node) : string :=
  match n_label n with EmptyString => n_id n | l => l end.

(** The body of the loop [for n in spec["nodes"]]. *)
Definition vertex_cell (m : mode) (styles : PyDict.dict string string)
    (override : overrides) (positions : PyDict.dict string (Z * Z)) (n : node)
  : mxCell :=
  let (x, y) := position_of positions (n_id n) in
  {| cell_id := n_id n;
     cell_value := label_or_id n;
     cell_style := vertex_style m styles override n;
     cell_body_of := Vertex x y NODE_W NODE_H |}.

Definition vertex_cells (m : mode) (styles : PyDict.dict string string)
    (override : overrides) (positions : PyDict.dict string (Z * Z))
    (spec : graph_spec) : list mxCell :=
  map (vertex_cell m styles override positions) (g_nodes spec).

Definition edge_style (m : mode) (styles : PyDict.dict string string)
    (override : overrides) : string :=
  match m with
  | mode_er => style_for_edge styles (e_pref m) (ov_er_edge override)
  | mode_class => style_for_edge styles (e_pref m) (ov_class_edge override)
  | mode_usecase => style_for_edge styles (e_pref m) (ov_usecase_edge override)
  | _ => style_for_edge styles (e_pref m) (ov_edge override)
  end.

(** [f"e{eid}"] *)
Definition edge_id (eid : N) : string := "e" ++ str_of_N eid.

(** The loop [for e in spec["edges"]], the counter [eid] going up by one. *)
Fixpoint edge_cells_from (eid : N) (m : mode)
    (styles : PyDict.dict string string) (override : overrides)
    (edges : list edge) : list mxCell :=
  match edges with
  | [] => []
  | e :: rest =>
      {| cell_id := edge_id eid;
         cell_value := e_label e;
         cell_style := edge_style m styles override;
         cell_body_of := Edge (e_from e) (e_to e) |}
      :: edge_cells_from (eid + 1) m styles override rest
  end.

Definition EID_BASE : N := 100000.

Definition edge_cells (m : mode) (styles : PyDict.dict string string)
    (override : overrides) (spec : graph_spec) : list mxCell :=
  edge_cells_from EID_BASE m styles override (g_edges spec).

(** [name="value"] with the quotes. *)
Definition attr (name value : string) : string :=
  name ++ "=" ++ dq ++ value ++ dq.

(** The three lines the serializer appends for a cell.  Every attribute
    value goes through [xml_attr], the edge identifier apart. *)
Definition render_cell (c : mxCell) : list string :=
  match cell_body_of c with
  | Vertex x y w h =>
      [ "        <mxCell " ++ attr "id" (xml_attr (Some (cell_id c))) ++ " "
          ++ attr "value" (xml_attr (Some (cell_value c))) ++ " "
          ++ attr "style" (xml_attr (Some (cell_style c))) ++ " "
          ++ attr "vertex" "1" ++ " " ++ attr "parent" "1" ++ ">";
        "          <mxGeometry " ++ attr "x" (str_of_Z x) ++ " "
          ++ attr "y" (str_of_Z y) ++ " "
          ++ attr "width" (str_of_Z w) ++ " "
          ++ attr "height" (str_of_Z h) ++ " "
          ++ attr "as" "geometry" ++ "/>";
        "        </mxCell>" ]
  | Edge src tgt =>
      [ "        <mxCell " ++ attr "id" (cell_id c) ++ " "
          ++ attr "value" (xml_attr (Some (cell_value c))) ++ " "
          ++ attr "style" (xml_attr (Some (cell_style c))) ++ " "
          ++ attr "edge" "1" ++ " " ++ attr "parent" "1" ++ " "
          ++ attr "source" (xml_attr (Some src)) ++ " "
          ++ attr "target" (xml_attr (Some tgt)) ++ ">";
        "          <mxGeometry " ++ attr "relative" "1" ++ " "
          ++ attr "as" "geometry" ++ "/>";
        "        </mxCell>" ]
  end.

(** [max(l)] over the coordinates, [0] for the list [[0]] that stands for no
    position. *)
Definition max_coord (l : list Z) : Z :=
  match l with
  | [] => 0%Z
  | x :: l' => fold_left Z.max l' x
  end.

Definition page_size (positions : PyDict.dict string (Z * Z)) : Z * Z :=
  let xs := map (fun xy => fst xy) (PyDict.values positions) in
  let ys := map (fun xy => snd xy) (PyDict.values positions) in
  let max_x := (max_coord xs + NODE_W + 80)%Z in
  let max_y := (max_coord ys + NODE_H + 80)%Z in
  (Z.max 1920 max_x, Z.max 1080 max_y).

(** The lines before the cells; [page_id] is the fresh [uuid4] string. *)
Definition header (page_id : string) (spec : graph_spec)
    (positions : PyDict.dict string (Z * Z)) : list string :=
  let (page_w, page_h) := page_size positions in
  let title := match g_title spec with EmptyString => "Page-1" | t => t end in
  [ "<mxfile " ++ attr "host" "auto" ++ " " ++ attr "modified" "1" ++ " "
      ++ attr "agent" "prompt2drawio-uml" ++ " " ++ attr "version" "24.7.1"
      ++ " " ++ attr "pages" "1" ++ ">";
    "  <diagram " ++ attr "id" (xml_attr (Some page_id)) ++ " "
      ++ attr "name" (xml_attr (Some title)) ++ ">";
    "    <mxGraphModel " ++ attr "dx" "2000" ++ " " ++ attr "dy" "2000" ++ " "
      ++ attr "grid" "1" ++ " " ++ attr "gridSize" "10" ++ " "
      ++ attr "guides" "1" ++ " " ++ attr "tooltips" "1" ++ " "
      ++ attr "connect" "1" ++ " " ++ attr "arrows" "1" ++ " "
      ++ attr "fold" "1" ++ " " ++ attr "page" "1" ++ " "
      ++ attr "pageScale" "1" ++ " "
      ++ attr "pageWidth" (str_of_Z page_w) ++ " "
      ++ attr "pageHeight" (str_of_Z page_h) ++ " "
      ++ attr "math" "0" ++ " " ++ attr "shadow" "0" ++ ">";
    "      <root>";
    "        <mxCell " ++ attr "id" "0" ++ "/><mxCell " ++ attr "id" "1" ++ " "
      ++ attr "parent" "0" ++ "/>" ].

Definition footer : list string :=
  [ "      </root>"; "    </mxGraphModel>"; "  </diagram>"; "</mxfile>" ].

(** The list [parts] at the end of [make_drawio_xml]. *)
Definition drawio_parts (page_id : string) (spec : graph_spec)
    (positions : PyDict.dict string (Z * Z))
    (styles : PyDict.dict string string) (m : mode) (override : overrides)
  : list string :=
  (header page_id spec positions
   ++ flat_map render_cell (vertex_cells m styles override positions spec)
   ++ flat_map render_cell (edge_cells m styles override spec)
   ++ footer)%list.

Definition make_drawio_xml (page_id : string) (spec : graph_spec)
    (positions : PyDict.dict string (Z * Z))
    (styles : PyDict.dict string string) (m : mode) (override : overrides)
  : string :=
  join nl (drawio_parts page_id spec positions styles m override).

(** *** The entity-relation converter *)

Record er_attribute := mk_attribute {
  a_name : string;
  a_type : string;
  a_pk : bool;
  a_unique : bool;
  a_nullable : bool
}.

Record er_entity := mk_entity {
  ent_name : string;
  ent_attributes : list er_attribute
}.

Record er_relation := mk_relation {
  r_from : string;
  r_to : string;
  r_cardinality : string;
  r_name : string
}.

Record er_spec := mk_er_spec {
  er_title : string;
  er_direction : direction;
  er_entities : list er_entity;
  er_relations : list er_relation
}.

Definition attribute_row (a : er_attribute) : string :=
  let flags :=
    ((if a_pk a then ["PK"] else [])
     ++ (if a_unique a then ["UQ"] else [])
     ++ (if negb (a_nullable a) then ["NOT NULL"] else []))%list in
  let flg := match flags with [] => "" | _ => " (" ++ join ", " flags ++ ")" end in
  html_escape (a_name a) ++ ": " ++ html_escape (a_type a) ++ flg.

Definition entity_label (e : er_entity) : string :=
  let header := "<b>" ++ html_escape (ent_name e) ++ "</b>" in
  let rows := map attribute_row (ent_attributes e) in
  let body := match rows with [] => "<i>(sem atributos)</i>" | _ => join "<br/>" rows end in
  header ++ "<hr/>" ++ body.

(** The loop over [enumerate(d["entities"], 1)]: the nodes and
    [name_to_id]. *)
Fixpoint er_nodes (i : N) (ents : list er_entity)
    (name_to_id : PyDict.dict string string)
  : list node * PyDict.dict string string :=
  match ents with
  | [] => ([], name_to_id)
  | e :: rest =>
      let nid := "E" ++ str_of_N i in
      let (nodes, final) := er_nodes (i + 1) rest (PyDict.set (ent_name e) nid name_to_id) in
      ({| n_id := nid; n_label := entity_label e; n_shape := rect; n_html := true |}
         :: nodes, final)
  end.

(** [splitf(s)[0]]: the text before the first dot, or all of [s]. *)
Definition splitf_fst (s : string) : string :=
  if contains "." s then
    match split_once "." s with Some (a, _) => a | None => s end
  else s.

Definition relation_label (r : er_relation) : string :=
  let lbl := strip (r_name r) in
  let card := strip (r_cardinality r) in
  match card, lbl with
  | String _ _, EmptyString => card
  | String _ _, String _ _ => lbl ++ " (" ++ card ++ ")"
  | EmptyString, _ => lbl
  end.

(** The loop over [d["relations"]]: a relation is kept when both of its
    entities are in [name_to_id]. *)
Definition er_edges (name_to_id : PyDict.dict string string)
    (rels : list er_relation) : list edge :=
  flat_map
    (fun r =>
       let a := splitf_fst (r_from r) in
       let b := splitf_fst (r_to r) in
       match PyDict.get a name_to_id, PyDict.get b name_to_id with
       | Some ia, Some ib =>
           [ {| e_from := ia; e_to := ib; e_label := relation_label r |} ]
       | _, _ => []
       end)
    rels.

Definition nodes_edges_er (d : er_spec) : graph_spec :=
  let (nodes, name_to_id) := er_nodes 1 (er_entities d) [] in
  {| g_title := er_title d; g_direction := er_direction d;
     g_nodes := nodes; g_edges := er_edges name_to_id (er_relations d) |}.

(** *** The other converters

    Each converter numbers the elements it is given, keeps a dictionary from
    their names to the identifiers, and keeps a relation only when both of
    its ends are in that dictionary. *)

(** [r.get("label","") or r.get("type","association")] *)
Definition label_or_type (label : string) (type : option string) : string :=
  match label with
  | String _ _ => label
  | EmptyString => match type with Some t => t | None => "association" end
  end.

(** [d.get("direction","TD")] *)
Definition direction_or_TD (d : option direction) : direction :=
  match d with Some x => x | None => TD end.

(** The byte sequences of the characters outside ASCII that the labels
    hold (UTF-8): the e with acute accent, the black circle, the black
    square. *)
Definition e_acute : string := String "195" (String "169" "").
Definition black_circle : string := String "226" (String "151" (String "143" "")).
Definition black_square : string := String "226" (String "150" (String "160" "")).

Record class_attribute := mk_class_attribute {
  ca_visibility : string;
  ca_name : string;
  ca_type : string
}.

Record class_method := mk_class_method {
  cm_visibility : string;
  cm_signature : string
}.

Record uml_class := mk_class {
  cls_name : string;
  cls_attributes : list class_attribute;
  cls_methods : list class_method
}.

Record class_relation := mk_class_relation {
  cr_from : string;
  cr_to : string;
  cr_label : string;
  cr_type : option string
}.

Record class_spec := mk_class_spec {
  cs_title : string;
  cs_direction : option direction;
  cs_classes : list uml_class;
  cs_relations : list class_relation
}.

Definition class_attribute_row (a : class_attribute) : string :=
  strip (html_escape (ca_visibility a) ++ " " ++ html_escape (ca_name a) ++ ": "
         ++ html_escape (ca_type a)).

Definition class_method_row (m : class_method) : string :=
  html_escape (cm_visibility m) ++ " " ++ html_escape (cm_signature m).

Definition class_label (c : uml_class) : string :=
  let header := "<b>" ++ html_escape (cls_name c) ++ "</b>" in
  let attrs := map class_attribute_row (cls_attributes c) in
  let meths := map class_method_row (cls_methods c) in
  let body1 := match attrs with [] => "<i>(sem atributos)</i>" | _ => join "<br/>" attrs end in
  let body2 :=
    match meths with
    | [] => "<i>(sem m" ++ e_acute ++ "todos)</i>"
    | _ => join "<br/>" meths
    end in
  header ++ "<hr/>" ++ body1 ++ "<hr/>" ++ body2.

(** The loop over [enumerate(d["classes"], 1)]. *)
Fixpoint class_nodes (i : N) (classes : list uml_class)
    (name_to_id : PyDict.dict string string)
  : list node * PyDict.dict string string :=
  match classes with
  | [] => ([], name_to_id)
  | c :: rest =>
      let nid := "C" ++ str_of_N i in
      let (nodes, final) := class_nodes (i + 1) rest (PyDict.set (cls_name c) nid name_to_id) in
      ({| n_id := nid; n_label := class_label c; n_shape := rect; n_html := true |}
         :: nodes, final)
  end.

Definition class_edges (name_to_id : PyDict.dict string string)
    (rels : list class_relation) : list edge :=
  flat_map
    (fun r =>
       match PyDict.get (cr_from r) name_to_id, PyDict.get (cr_to r) name_to_id with
       | Some ia, Some ib =>
           [ {| e_from := ia; e_to := ib;
                e_label := label_or_type (cr_label r) (cr_type r) |} ]
       | _, _ => []
       end)
    rels.

Definition nodes_edges_class (d : class_spec) : graph_spec :=
  let (nodes, name_to_id) := class_nodes 1 (cs_classes d) [] in
  {| g_title := cs_title d; g_direction := direction_or_TD (cs_direction d);
     g_nodes := nodes; g_edges := class_edges name_to_id (cs_relations d) |}.

(** A message of a sequence diagram; a missing ["from"] or ["to"] is
    [None], a missing ["label"] the empty string. *)
Record seq_message := mk_message {
  msg_from : option string;
  msg_to : option string;
  msg_label : string
}.

Record sequence_spec := mk_sequence_spec {
  sq_title : string;
  sq_participants : list string;
  sq_messages : list seq_message
}.

(** [f"P{i}"] *)
Definition participant_id (i : nat) : string := "P" ++ str_of_N (N.of_nat i).

(** [x in l] for an optional name, [None] being in no list of names. *)
Definition in_names (x : option string) (l : list string) : bool :=
  match x with
  | Some a => existsb (String.eqb a) l
  | None => false
  end.

(** The edge of a message whose two ends are participants; [index] is the
    place of the first participant of that name. *)
Definition sequence_edge (participants : list string) (m : seq_message)
  : list edge :=
  if in_names (msg_from m) participants && in_names (msg_to m) participants then
    match msg_from m, msg_to m with
    | Some a, Some b =>
        match PyList.index a participants, PyList.index b participants with
        | Some i, Some j =>
            [ {| e_from := participant_id (i + 1); e_to := participant_id (j + 1);
                 e_label := msg_label m |} ]
        | _, _ => []
        end
    | _, _ => []
    end
  else [].

Definition nodes_edges_sequence (d : sequence_spec) : graph_spec :=
  let nodes :=
    map (fun ip => {| n_id := participant_id (fst ip);
                      n_label := html_escape (snd ip);
                      n_shape := round; n_html := true |})
      (PyList.enumerate 1 (sq_participants d)) in
  {| g_title := sq_title d; g_direction := LR; g_nodes := nodes;
     g_edges := flat_map (sequence_edge (sq_participants d)) (sq_messages d) |}.

Record transition := mk_transition {
  tr_from : option string;
  tr_to : option string;
  tr_label : string
}.

Record state_spec := mk_state_spec {
  ss_title : string;
  ss_direction : option direction;
  ss_states : list string;
  ss_transitions : list transition;
  ss_start : option string;
  ss_end : option string
}.

(** What the converter of the state diagrams builds up: the nodes and the
    dictionary [ids]. *)
Definition state_acc : Type := list node * PyDict.dict string string.

(** [if d.get("start"): ids[d["start"]]="S0"; nodes.append(...)] *)
Definition state_start (start : option string) (acc : state_acc) : state_acc :=
  match truthy start with
  | Some s =>
      ((fst acc ++ [ {| n_id := "S0"; n_label := black_circle ++ " Start";
                        n_shape := round; n_html := true |} ])%list,
       PyDict.set s "S0" (snd acc))
  | None => acc
  end.

(** [if d.get("end"): ids[d["end"]]="SE"; nodes.append(...)] *)
Definition state_end (e : option string) (acc : state_acc) : state_acc :=
  match truthy e with
  | Some s =>
      ((fst acc ++ [ {| n_id := "SE"; n_label := black_square ++ " End";
                        n_shape := rect; n_html := true |} ])%list,
       PyDict.set s "SE" (snd acc))
  | None => acc
  end.

(** The body of [for s in d.get("states",[])]. *)
Definition state_step (acc : state_acc) (s : string) : state_acc :=
  if negb (PyDict.mem s (snd acc)) then
    let nid := "S" ++ str_of_N (N.of_nat (List.length (snd acc) + 1)) in
    ((fst acc ++ [ {| n_id := nid; n_label := html_escape s;
                      n_shape := round; n_html := true |} ])%list,
     PyDict.set s nid (snd acc))
  else acc.

(** [ids.get(t.get(k))], with the truth test [if a and b] on it. *)
Definition state_id (ids : PyDict.dict string string) (name : option string)
  : option string :=
  match name with
  | Some k => truthy (PyDict.get k ids)
  | None => None
  end.

Definition state_edges (ids : PyDict.dict string string)
    (transitions : list transition) : list edge :=
  flat_map
    (fun t =>
       match state_id ids (tr_from t), state_id ids (tr_to t) with
       | Some a, Some b => [ {| e_from := a; e_to := b; e_label := tr_label t |} ]
       | _, _ => []
       end)
    transitions.

Definition state_nodes (d : state_spec) : state_acc :=
  fold_left state_step (ss_states d)
    (state_end (ss_end d) (state_start (ss_start d) ([], []))).

Definition nodes_edges_state (d : state_spec) : graph_spec :=
  let (nodes, ids) := state_nodes d in
  {| g_title := ss_title d; g_direction := direction_or_TD (ss_direction d);
     g_nodes := nodes; g_edges := state_edges ids (ss_transitions d) |}.

(** An activity; a missing ["label"] or ["kind"] is [None]. *)
Record activity := mk_activity {
  act_id : string;
  act_label : option string;
  act_kind : option string
}.

Record activity_edge := mk_activity_edge {
  ae_from : option string;
  ae_to : option string;
  ae_label : string
}.

Record activity_spec := mk_activity_spec {
  as_title : string;
  as_direction : option direction;
  as_activities : list activity;
  as_edges : list activity_edge
}.

(** The lookup of [a.get("kind","action")] in the dictionary of the
    shapes, [rect] by default. *)
Definition shape_of_kind (kind : option string) : shape_kind :=
  let k := match kind with Some k => k | None => "action" end in
  if String.eqb k "start" then round
  else if String.eqb k "end" then round
  else if String.eqb k "decision" then rhombus
  else if String.eqb k "merge" then rhombus
  else rect.

(** The loop over [enumerate(d["activities"], 1)]. *)
Fixpoint activity_nodes (i : N) (activities : list activity)
    (idmap : PyDict.dict string string)
  : list node * PyDict.dict string string :=
  match activities with
  | [] => ([], idmap)
  | a :: rest =>
      let nid := "A" ++ str_of_N i in
      let (nodes, final) := activity_nodes (i + 1) rest (PyDict.set (act_id a) nid idmap) in
      ({| n_id := nid;
          n_label := html_escape (match act_label a with Some l => l | None => act_id a end);
          n_shape := shape_of_kind (act_kind a); n_html := true |}
         :: nodes, final)
  end.

(** [idmap[k]] for an optional name that [k in idmap] holds of. *)
Definition lookup_name (m : PyDict.dict string string) (name : option string)
  : option string :=
  match name with
  | Some k => PyDict.get k m
  | None => None
  end.

Definition activity_edges (idmap : PyDict.dict string string)
    (edges : list activity_edge) : list edge :=
  flat_map
    (fun e =>
       match lookup_name idmap (ae_from e), lookup_name idmap (ae_to e) with
       | Some a, Some b => [ {| e_from := a; e_to := b; e_label := ae_label e |} ]
       | _, _ => []
       end)
    edges.

Definition nodes_edges_activity (d : activity_spec) : graph_spec :=
  let (nodes, idmap) := activity_nodes 1 (as_activities d) [] in
  {| g_title := as_title d; g_direction := direction_or_TD (as_direction d);
     g_nodes := nodes; g_edges := activity_edges idmap (as_edges d) |}.

Record usecase_relation := mk_usecase_relation {
  ur_from : option string;
  ur_to : option string;
  ur_label : string;
  ur_type : option string
}.

Record usecase_spec := mk_usecase_spec {
  us_title : string;
  us_actors : list string;
  us_usecases : list string;
  us_relations : list usecase_relation
}.

(** The loop over [enumerate(d["actors"], 1)] in [build_spec_from_mode]. *)
Fixpoint actor_nodes (i : N) (actors : list string)
    (name_to_id : PyDict.dict string string)
  : list node * PyDict.dict string string :=
  match actors with
  | [] => ([], name_to_id)
  | a :: rest =>
      let nid := "A" ++ str_of_N i in
      let (nodes, final) := actor_nodes (i + 1) rest (PyDict.set a nid name_to_id) in
      ({| n_id := nid; n_label := html_escape a; n_shape := round; n_html := true |}
         :: nodes, final)
  end.

(** The loop over [enumerate(d["usecases"], 1)], on the same dictionary. *)
Fixpoint usecase_nodes (j : N) (usecases : list string)
    (name_to_id : PyDict.dict string string)
  : list node * PyDict.dict string string :=
  match usecases with
  | [] => ([], name_to_id)
  | u :: rest =>
      let nid := "U" ++ str_of_N j in
      let (nodes, final) := usecase_nodes (j + 1) rest (PyDict.set u nid name_to_id) in
      ({| n_id := nid; n_label := "<i>" ++ html_escape u ++ "</i>";
          n_shape := round; n_html := true |}
         :: nodes, final)
  end.

Definition usecase_edges (name_to_id : PyDict.dict string string)
    (rels : list usecase_relation) : list edge :=
  flat_map
    (fun r =>
       match lookup_name name_to_id (ur_from r), lookup_name name_to_id (ur_to r) with
       | Some a, Some b =>
           [ {| e_from := a; e_to := b;
                e_label := label_or_type (ur_label r) (ur_type r) |} ]
       | _, _ => []
       end)
    rels.

(** The branch [mode == "usecase"] of [build_spec_from_mode]. *)
Definition nodes_edges_usecase (d : usecase_spec) : graph_spec :=
  let (actors, name_to_id) := actor_nodes 1 (us_actors d) [] in
  let (usecases, name_to_id) := usecase_nodes 1 (us_usecases d) name_to_id in
  {| g_title := us_title d; g_direction := LR;
     g_nodes := (actors ++ usecases)%list;
     g_edges := usecase_edges name_to_id (us_relations d) |}.

(** What the builder of a mode returns, the model's answer parsed and given
    its defaults. *)
Inductive built :=
  | built_er (d : er_spec)
  | built_class (d : class_spec)
  | built_sequence (d : sequence_spec)
  | built_state (d : state_spec)
  | built_activity (d : activity_spec)
  | built_usecase (d : usecase_spec)
  | built_generic (s : graph_spec).

Definition mode_of (b : built) : mode :=
  match b with
  | built_er _ => mode_er
  | built_class _ => mode_class
  | built_sequence _ => mode_sequence
  | built_state _ => mode_state
  | built_activity _ => mode_activity
  | built_usecase _ => mode_usecase
  | built_generic _ => mode_generic
  end.

(** [build_spec_from_mode], from the point where the builder of the mode
    has returned. *)
Definition build_spec_from_mode (b : built) : graph_spec :=
  match b with
  | built_er d => nodes_edges_er d
  | built_class d => nodes_edges_class d
  | built_sequence d => nodes_edges_sequence d
  | built_state d => nodes_edges_state d
  | built_activity d => nodes_edges_activity d
  | built_usecase d => nodes_edges_usecase d
  | built_generic s => s
  end.

(** *** Reading the answer of the model, choosing the mode *)

Definition is_backtick (c : ascii) : bool := Ascii.eqb c "`".

(** [strip_to_json]: [None] where it raises. *)
Definition strip_to_json (text : string) : option string :=
  let t := strip text in
  let t :=
    if startswith t "```" then
      let t := strip_by is_backtick t in
      if startswith (lower t) "json" then lstrip_by is_space (drop 4 t) else t
    else t in
  match str_find "{" t, str_rfind "}" t with
  | Some s, Some e =>
      if Nat.leb e s then None else Some (slice s (e + 1) t)
  | _, _ => None
  end.

(** [any(k in p for k in keywords)] *)
Definition any_in (keywords : list string) (p : string) : bool :=
  existsb (fun k => contains k p) keywords.

(** The e with circumflex, in UTF-8. *)
Definition e_circumflex : string := String "195" (String "170" "").

Definition er_keywords : list string :=
  ["der"; "e-r"; "entidade"; "tabela"; "relacionamento"; "cardinalidade"].
Definition class_keywords : list string := ["classe"; "uml class"; "class diagram"].
Definition sequence_keywords : list string :=
  ["sequ" ++ e_circumflex ++ "ncia"; "sequence"; "lifeline"; "mensagem"].
Definition state_keywords : list string := ["estado"; "state diagram"; "statechart"].
Definition activity_keywords : list string :=
  ["atividade"; "activity"; "fluxo"; "flow"; "bpmn"].
Definition usecase_keywords : list string := ["use case"; "caso de uso"; "ator"].

(** [infer_mode]; [lower] being the ASCII one, this is the function of the
    code on the prompts of ASCII characters. *)
Definition infer_mode (prompt : string) : mode :=
  let p := lower prompt in
  if any_in er_keywords p then mode_er
  else if any_in class_keywords p then mode_class
  else if any_in sequence_keywords p then mode_sequence
  else if any_in state_keywords p then mode_state
  else if any_in activity_keywords p then mode_activity
  else if any_in usecase_keywords p then mode_usecase
  else mode_generic.

(** *** The command line and the pipeline *)

(** The dictionary [overrides] of [main]: one entry per style option; it
    has no entry ["usecase_edge"], so the serializer reads [None] there. *)
Definition main_overrides
    (style_er_entity style_er_edge style_class style_class_edge
     style_actor style_usecase style_vertex style_edge : option string)
  : overrides :=
  {| ov_er_entity := style_er_entity;
     ov_er_edge := style_er_edge;
     ov_class := style_class;
     ov_class_edge := style_class_edge;
     ov_actor := style_actor;
     ov_usecase := style_usecase;
     ov_usecase_edge := None;
     ov_vertex := style_vertex;
     ov_edge := style_edge |}.

(** [pipeline] between the specification and the file: the mode ([None]
    for [auto]), the layout and the document.  [None] where a step raises. *)
Definition pipeline (page_id prompt : string) (m : option mode)
    (spec : graph_spec) (dir : option direction)
    (styles : PyDict.dict string string) (override : overrides)
  : option string :=
  let m := match m with Some m => m | None => infer_mode prompt end in
  match layer_layout spec dir with
  | None => None
  | Some (spec, pos) => Some (make_drawio_xml page_id spec pos styles m override)
  end.

End Drawio.

(** * Notions of the statements

    What the properties below are stated with: the per-character form of the
    escapes, the quantities the specification names (the largest layer, the
    number of layers, reachability from the initial queue), and the example
    specifications. *)

(** A boolean comparison, as a relation. *)
Definition holds {A : Type} (leb : A -> A -> bool) (x y : A) : Prop :=
  leb x y = true.

(** A loop [for a in l: d[key(a)] = ...]. *)
Definition assign_all {K V A : Type} `{PyKey K} (key : A -> K)
    (val : PyDict.dict K V -> A -> V) (l : list A) (acc : PyDict.dict K V)
  : PyDict.dict K V :=
  fold_left (fun d a => PyDict.set (key a) (val d a) d) l acc.

Section EscapeNotions.
Import PyStr.

(** What [xml_attr] writes for one character. *)
Definition xml_code (c : ascii) : string :=
  if Ascii.eqb c "&" then "&amp;"
  else if Ascii.eqb c "<" then "&lt;"
  else if Ascii.eqb c ">" then "&gt;"
  else if Ascii.eqb c "034" then "&quot;"
  else String c "".

(** What [html_escape] writes for one character. *)
Definition html_code (c : ascii) : string :=
  if Ascii.eqb c "'" then "&#x27;" else xml_code c.

(** The characters other than the ampersand. *)
Definition no_ampersand (c : ascii) : bool := negb (Ascii.eqb c "&").

End EscapeNotions.

Section StyleNotions.
Import PyStr Harvest.

(** The key [normalize_style] sorts by. *)
Definition sort_key (kv : string * string) : string := lower (fst kv).

(** The comparison of that sort. *)
Definition by_sort_key (x y : string * string) : bool :=
  String.leb (sort_key x) (sort_key y).

(** Pairs whose keys agree when case is ignored are the same pair: the list
    holds no key with two values, and no key in two spellings. *)
Definition key_determines_pair (l : list (string * string)) : Prop :=
  forall x y, In x l -> In y l -> sort_key x = sort_key y -> x = y.

(** Every character of [s] satisfies [p]. *)
Fixpoint all_chars (p : ascii -> bool) (s : string) : bool :=
  match s with
  | EmptyString => true
  | String c s' => p c && all_chars p s'
  end.

(** The style string that consists of the pairs [l], in their order. *)
Definition render_pairs (l : list (string * string)) : string :=
  fold_right (fun kv acc => fst kv ++ "=" ++ snd kv ++ ";" ++ acc) "" l.

(** A pair the style syntax can hold: a non-empty key of key characters and
    a value without separator. *)
Definition well_formed_pair (kv : string * string) : Prop :=
  fst kv <> "" /\ all_chars is_key_char (fst kv) = true
  /\ all_chars not_semicolon (snd kv) = true.

(** The key the loop of [add_unique] tries at its [i]-th turn. *)
Definition suffixed (k : string) (i : N) : string := k ++ "-" ++ str_of_N i.

(** The number of entries of a library with a given fingerprint. *)
Definition count_norm (s : string) (m : PyDict.dict string string) : nat :=
  List.length (filter (fun kv => String.eqb (normalize_style (snd kv)) s) m).

(** [d.get(k, '')] on the dictionary of the pairs of a style: the value the
    style gives the attribute [k], empty when it has none. *)
Definition style_attr (style k : string) : string :=
  get_or_empty k (PyDict.of_pairs (STYLE_KV_RE_findall style)).

(** The specification's wording, "strip a trailing suffix": [s] without
    [suffix] when it ends with it, [s] itself otherwise. *)
Fixpoint removesuffix (suffix s : string) : string :=
  if String.eqb s suffix then ""
  else
    match s with
    | EmptyString => EmptyString
    | String c s' => String c (removesuffix suffix s')
    end.

End StyleNotions.

Section GraphNotions.
Import PyStr Drawio.

(** The test of [style_from_key_or_literal] on the stripped reference. *)
Definition is_literal_reference (a : string) : bool :=
  startswith (lower a) "shape=" || contains ";" a.

(** No style option given on the command line. *)
Definition no_overrides : overrides :=
  mk_overrides None None None None None None None None None.

(** The dictionary of the declared nodes. *)
Definition declared_nodes (spec : graph_spec) : PyDict.dict string node :=
  PyDict.of_pairs (map (fun n => (n_id n, n)) (g_nodes spec)).

(** The two dictionaries of [build_graph] have the same keys, in the same
    order. *)
Definition in_step (st : PyDict.dict string node * PyDict.dict string nat) : Prop :=
  PyDict.keys (fst st) = PyDict.keys (snd st).

(** The nodes the traversal can reach from its initial queue. *)
Inductive reachable (edges : list edge) (roots : list string) : string -> Prop :=
  | reach_root r : In r roots -> reachable edges roots r
  | reach_edge e :
      In e edges -> reachable edges roots (e_from e) -> reachable edges roots (e_to e).

(** [x in vis] *)
Definition seen (vis : list string) (x : string) : bool :=
  existsb (String.eqb x) vis.

(** The edge targets not visited yet: what bounds the nodes still to enter
    the queue. *)
Definition unvisited (edges : list edge) (vis : list string) : list string :=
  filter (fun t => negb (seen vis t)) (map e_to edges).

(** The nodes of all the layers. *)
Definition members (layers : PyDict.dict nat (list string)) : list string :=
  List.concat (PyDict.values layers).

(** The initial queue of the traversal of a specification. *)
Definition layout_roots (spec : graph_spec) : option (list string) :=
  start_queue (fst (build_graph spec)) (snd (build_graph spec)).

(** The specification's quantities, on the layers [dist] of the traversal,
    following its words.  First the number of nodes that share layer [d]. *)
Definition population (dist : PyDict.dict string nat) (d : nat) : nat :=
  count_occ Nat.eq_dec (PyDict.values dist) d.

(** The largest number of nodes sharing one layer. *)
Definition maxPop (dist : PyDict.dict string nat) : nat :=
  list_max (map (population dist) (PyDict.values dist)).

(** The number of distinct layers. *)
Definition layerCount (dist : PyDict.dict string nat) : nat :=
  List.length (nodup Nat.eq_dec (PyDict.values dist)).

(** The counter dictionary of [choose_direction_auto]. *)
Definition count_layers (dist : PyDict.dict string nat) (acc : PyDict.dict nat nat)
  : PyDict.dict nat nat :=
  fold_left
    (fun layers kv =>
       let old := match PyDict.get (snd kv) layers with Some c => c | None => 0 end in
       PyDict.set (snd kv) (old + 1) layers)
    dist acc.

(** The count a counter dictionary holds for [d], zero when it has none. *)
Definition counted (m : PyDict.dict nat nat) (d : nat) : nat :=
  match PyDict.get d m with Some c => c | None => 0 end.

(** A counter dictionary holds no zero. *)
Definition positive (m : PyDict.dict nat nat) : Prop :=
  forall d c, PyDict.get d m = Some c -> 0 < c.

(** A node labelled by its identifier. *)
Definition plain (nid : string) : node := mk_node nid nid rect false.

(** One root with four children. *)
Definition star4 : graph_spec :=
  mk_spec "" TD [plain "r"; plain "a"; plain "b"; plain "c"; plain "d"]
    [mk_edge "r" "a" ""; mk_edge "r" "b" ""; mk_edge "r" "c" ""; mk_edge "r" "d" ""].

(** A chain of five nodes. *)
Definition chain5 : graph_spec :=
  mk_spec "" TD [plain "n1"; plain "n2"; plain "n3"; plain "n4"; plain "n5"]
    [mk_edge "n1" "n2" ""; mk_edge "n2" "n3" ""; mk_edge "n3" "n4" "";
     mk_edge "n4" "n5" ""].

(** A root [A] and a two-node cycle [B], [C] that no edge enters from [A]. *)
Definition cycle_beside_root : graph_spec :=
  mk_spec "" TD
    [mk_node "A" "A" rect false; mk_node "B" "B" rect false;
     mk_node "C" "C" rect false]
    [mk_edge "B" "C" ""; mk_edge "C" "B" ""].

End GraphNotions.

Section HarvestNotions.
Import PyStr Harvest.

(** The fingerprints of the styles of a library, in its order. *)
Definition fingerprints (m : PyDict.dict string string) : list string :=
  map (fun kv => normalize_style (snd kv)) m.

(** The characters [safe_key] lets through: the class [[a-z0-9_.\-]]. *)
Definition safe_char (c : ascii) : bool := negb (not_safe_char c).

Definition first_char (s : string) : option ascii :=
  match s with EmptyString => None | String c _ => Some c end.

Fixpoint last_char (s : string) : option ascii :=
  match s with
  | EmptyString => None
  | String c EmptyString => Some c
  | String _ s' => last_char s'
  end.

(** No two hyphens in a row; after a hyphen ([b] true) none may follow. *)
Fixpoint single_hyphens (b : bool) (s : string) : bool :=
  match s with
  | EmptyString => true
  | String c s' =>
      if is_hyphen c then negb b && single_hyphens true s'
      else single_hyphens false s'
  end.

(** A key of the file format, as [safe_key] returns it. *)
Definition file_key (k : string) : Prop :=
  k <> ""
  /\ all_chars safe_char k = true
  /\ first_char k <> Some "-"%char
  /\ last_char k <> Some "-"%char
  /\ contains "--" k = false.

(** The invariant of the harvest loop, [cells] being the cells met so
    far. *)
Definition filed (cells : list (string * bool)) (m : PyDict.dict string string) : Prop :=
  NoDup (PyDict.keys m)
  /\ NoDup (fingerprints m)
  /\ (forall k v, In (k, v) m -> exists b, In (v, b) cells)
  /\ (forall k, In k (PyDict.keys m) -> k <> "" /\ all_chars safe_char k = true)
  /\ List.length m <= List.length cells.

End HarvestNotions.

Section LayoutNotions.
Import PyStr Drawio.

(** A walk of [n] edges that starts at a node of the initial queue. *)
Inductive hops (edges : list edge) (roots : list string) : nat -> string -> Prop :=
  | hops_root r : In r roots -> hops edges roots 0 r
  | hops_edge n e :
      In e edges -> hops edges roots n (e_from e) -> hops edges roots (S n) (e_to e).

(** The shortest such walk to [v] has [d] edges. *)
Definition shortest (edges : list edge) (roots : list string) (v : string) (d : nat)
  : Prop :=
  hops edges roots d v /\ forall n, hops edges roots n v -> d <= n.

(** The state of the traversal between two turns: the queue holds nodes of
    one layer [k], then nodes of the next; no node is further than [k + 1];
    a node that has left the queue has all its successors visited, at most
    one layer below it. *)
Definition level_queue (edges : list edge) (roots : list string) (k : nat)
    (qa qb : list string) (dist : PyDict.dict string nat) (vis : list string) : Prop :=
  (forall x, In x vis <-> In x (PyDict.keys dist))
  /\ NoDup (PyDict.keys dist)
  /\ (forall x, In x qa -> PyDict.get x dist = Some k)
  /\ (forall x, In x qb -> PyDict.get x dist = Some (k + 1))
  /\ (forall w d, PyDict.get w dist = Some d -> d <= k + 1)
  /\ (forall x y dx,
        PyDict.get x dist = Some dx -> ~ In x (qa ++ qb) ->
        In y (successors (adjacency edges) x) ->
        exists dy, PyDict.get y dist = Some dy /\ dy <= dx + 1)
  /\ (forall v d, PyDict.get v dist = Some d -> hops edges roots d v)
  /\ (forall r, In r roots -> PyDict.get r dist = Some 0).

(** What the traversal has when the queue is empty. *)
Definition layered (edges : list edge) (roots : list string)
    (dist : PyDict.dict string nat) : Prop :=
  NoDup (PyDict.keys dist)
  /\ (forall v d, PyDict.get v dist = Some d -> hops edges roots d v)
  /\ (forall r, In r roots -> PyDict.get r dist = Some 0)
  /\ (forall x y dx,
        PyDict.get x dist = Some dx ->
        In y (successors (adjacency edges) x) ->
        exists dy, PyDict.get y dist = Some dy /\ dy <= dx + 1).

(** The number of edges that end at [n]. *)
Definition incoming (edges : list edge) (n : string) : nat :=
  List.length (filter (fun e => String.eqb (e_to e) n) edges).

(** The counters of [build_graph] after the edges [done]. *)
Definition counted_edges (done : list edge)
    (st : PyDict.dict string node * PyDict.dict string nat) : Prop :=
  in_step st
  /\ (forall e, In e done -> In (e_to e) (PyDict.keys (snd st)))
  /\ (forall n c, PyDict.get n (snd st) = Some c -> c = incoming done n).

(** The nodes no edge ends at, in the order of the node dictionary. *)
Definition sources (spec : graph_spec) : list string :=
  filter (fun n => Nat.eqb (incoming (g_edges spec) n) 0)
    (PyDict.keys (fst (build_graph spec))).

End LayoutNotions.

Section ConverterNotions.
Import PyStr Drawio.

Definition node_ids (spec : graph_spec) : list string := map n_id (g_nodes spec).

(** The identifiers [prefix1], [prefix2], ..., [prefixn]. *)
Definition numbered (prefix : string) (n : nat) : list string :=
  map (fun i => prefix ++ str_of_N (N.of_nat i)) (seq 1 n).

(** Every edge joins two nodes of the specification. *)
Definition edges_join_nodes (spec : graph_spec) : Prop :=
  forall e, In e (g_edges spec) ->
    In (e_from e) (node_ids spec) /\ In (e_to e) (node_ids spec).

Definition is_digit (c : ascii) : bool :=
  Nat.leb 48 (nat_of_ascii c) && Nat.leb (nat_of_ascii c) 57.

(** An identifier made by a converter: a capital letter, then digits or
    capital letters. *)
Definition converter_id (s : string) : bool :=
  match s with
  | EmptyString => false
  | String c r => is_upper c && all_chars (fun x => is_digit x || is_upper x) r
  end.

(** The identifier the serializer writes for a cell: through [xml_attr] for
    a vertex, as it is for an edge. *)
Definition written_id (c : mxCell) : string :=
  match cell_body_of c with
  | Vertex _ _ _ _ => xml_attr (Some (cell_id c))
  | Edge _ _ => cell_id c
  end.

(** What the converter of the state diagrams keeps true of its nodes and
    of [ids]. *)
Definition state_inv (acc : state_acc) : Prop :=
  NoDup (map n_id (fst acc))
  /\ NoDup (PyDict.keys (snd acc))
  /\ (forall k v, PyDict.get k (snd acc) = Some v -> In v (map n_id (fst acc)))
  /\ (forall x, In x (map n_id (fst acc)) ->
        x = "S0" \/ x = "SE"
        \/ exists j, 1 <= j <= List.length (snd acc)
                     /\ x = "S" ++ str_of_N (N.of_nat j)).

(** [x in names] *)
Definition declared_in (names : list string) (x : string) : bool :=
  existsb (String.eqb x) names.

(** A converter's input that holds no element to draw. *)
Definition no_element (b : built) : Prop :=
  match b with
  | built_er d => er_entities d = []
  | built_class d => cs_classes d = []
  | built_sequence d => sq_participants d = []
  | built_state d =>
      truthy (ss_start d) = None /\ truthy (ss_end d) = None /\ ss_states d = []
  | built_activity d => as_activities d = []
  | built_usecase d => us_actors d = [] /\ us_usecases d = []
  | built_generic s => g_nodes s = []
  end.

(** The style of an actor and of a use case in the use case diagrams. *)
Definition actor_style (styles : PyDict.dict string string) (override : overrides)
  : string :=
  style_for_vertex round true styles
    [["uml.actor"]; ["actor"]; ["stickman"]; ["person"]] (ov_actor override).

Definition usecase_style (styles : PyDict.dict string string) (override : overrides)
  : string :=
  style_for_vertex round true styles
    [["usecase"]; ["ellipse"]; ["oval"]] (ov_usecase override).

(** A sequence diagram of two participants and one message. *)
Definition two_participants : built :=
  built_sequence
    (mk_sequence_spec "" ["Client"; "API"]
       [mk_message (Some "Client") (Some "API") "login()"]).

(** A state diagram with no start, no end and no state. *)
Definition empty_state_diagram : built :=
  built_state (mk_state_spec "" None [] [] None None).

End ConverterNotions.

Section TextNotions.
Import PyStr Drawio.

(** The characters that end an attribute value or start a tag. *)
Definition is_markup (c : ascii) : bool :=
  Ascii.eqb c "<" || Ascii.eqb c ">" || Ascii.eqb c "034".

Definition is_apostrophe (c : ascii) : bool := Ascii.eqb c "'".

Definition is_open (c : ascii) : bool := Ascii.eqb c "{".

Definition is_close (c : ascii) : bool := Ascii.eqb c "}".

Definition is_brace (c : ascii) : bool := is_open c || is_close c.

(** No character of [s] satisfies [p]. *)
Definition free_of (p : ascii -> bool) (s : string) : bool :=
  all_chars (fun c => negb (p c)) s.

(** The text from the first opening brace to the last closing brace. *)
Definition json_span (text : string) : option string :=
  match str_find "{" text, str_rfind "}" text with
  | Some s, Some e => if Nat.leb e s then None else Some (slice s (e + 1) text)
  | _, _ => None
  end.

(** All the keywords of [infer_mode]. *)
Definition all_keywords : list string :=
  (er_keywords ++ class_keywords ++ sequence_keywords ++ state_keywords
   ++ activity_keywords ++ usecase_keywords)%list.

End TextNotions.

Section PreferenceNotions.
Import PyStr Drawio.

(** A key holds every token of [include] and none of [exclude], letter case
    apart. *)
Definition key_matches (include exclude : list string) (k : string) : bool :=
  forallb (fun tok => contains (lower tok) (lower k)) include
  && negb (existsb (fun tok => contains (lower tok) (lower k)) exclude).

(** [k] is the first key of the library, in its order, that matches. *)
Definition first_matching_key (styles : PyDict.dict string string)
    (include exclude : list string) (k : string) : Prop :=
  exists pre v post,
    styles = (pre ++ (k, v) :: post)%list
    /\ key_matches include exclude k = true
    /\ forall k', In k' (PyDict.keys pre) -> key_matches include exclude k' = false.

(** The style a preference gives: the style of the first matching key; an
    empty key and an empty style count as no match. *)
Definition preferred (styles : PyDict.dict string string)
    (include exclude : list string) (s : string) : Prop :=
  exists k,
    first_matching_key styles include exclude k
    /\ k <> "" /\ PyDict.get k styles = Some s /\ s <> "".

End PreferenceNotions.

Section DocumentNotions.
Import PyStr Harvest Drawio.

(** The characters that open and close an element, and the double
    quote. *)
Definition is_lt (c : ascii) : bool := Ascii.eqb c "<".
Definition is_gt (c : ascii) : bool := Ascii.eqb c ">".
Definition is_quote (c : ascii) : bool := Ascii.eqb c "034".

(** Whatever follows [text], the scan reads the groups [groups] in it and
    goes on after it. *)
Definition reads (name text : string) (groups : list string) : Prop :=
  forall rest,
    tag_groups_from name 0 (text ++ rest) = (groups ++ tag_groups_from name 0 rest)%list.

(** [t], in lower case, does not start with [name], whatever follows it. *)
Fixpoint mismatch (name t : string) : bool :=
  match name, t with
  | String a name', String c t' =>
      negb (Ascii.eqb a (lower_char c)) || mismatch name' t'
  | _, _ => false
  end.

(** The attribute text of the two root cells. *)
Definition root_entries : list string :=
  [ " " ++ attr "id" "0" ++ "/";
    " " ++ attr "id" "1" ++ " " ++ attr "parent" "0" ++ "/" ].

(** The attribute text of the cell of a node and of an edge. *)
Definition vertex_entry (m : mode) (styles : PyDict.dict string string)
    (override : overrides) (n : node) : string :=
  " " ++ attr "id" (xml_attr (Some (n_id n))) ++ " "
    ++ attr "value" (xml_attr (Some (label_or_id n))) ++ " "
    ++ attr "style" (xml_attr (Some (vertex_style m styles override n))) ++ " "
    ++ attr "vertex" "1" ++ " " ++ attr "parent" "1".

Definition edge_entry (m : mode) (styles : PyDict.dict string string)
    (override : overrides) (eid : N) (e : edge) : string :=
  " " ++ attr "id" (edge_id eid) ++ " "
    ++ attr "value" (xml_attr (Some (e_label e))) ++ " "
    ++ attr "style" (xml_attr (Some (edge_style m styles override))) ++ " "
    ++ attr "edge" "1" ++ " " ++ attr "parent" "1" ++ " "
    ++ attr "source" (xml_attr (Some (e_from e))) ++ " "
    ++ attr "target" (xml_attr (Some (e_to e))).

(** The attribute text of the geometry of a vertex at [(x, y)] and of an
    edge. *)
Definition vertex_geometry (x y : Z) : string :=
  " " ++ attr "x" (str_of_Z x) ++ " " ++ attr "y" (str_of_Z y) ++ " "
    ++ attr "width" (str_of_Z NODE_W) ++ " "
    ++ attr "height" (str_of_Z NODE_H) ++ " "
    ++ attr "as" "geometry" ++ "/".

Definition edge_geometry : string :=
  " " ++ attr "relative" "1" ++ " " ++ attr "as" "geometry" ++ "/".

(** The geometry elements of a document, read as [MXCELL_RE] reads the
    cells. *)
Definition geometry_groups (xml : string) : list string :=
  tag_groups_from "mxgeometry" 0 xml.

(** The text up to the first double quote. *)
Fixpoint until_quote (s : string) : string :=
  match s with
  | EmptyString => EmptyString
  | String c s' => if Ascii.eqb c "034" then EmptyString else String c (until_quote s')
  end.

(** The identifier a cell entry starts with. *)
Definition entry_id (attrs : string) : option string :=
  if String.prefix (" id=" ++ dq) attrs then Some (until_quote (drop 5 attrs))
  else None.

(** The attribute texts of the edge cells, the counter starting at
    [EID_BASE]. *)
Definition edge_entries (m : mode) (styles : PyDict.dict string string)
    (override : overrides) (edges : list edge) : list string :=
  map (fun ie => edge_entry m styles override (EID_BASE + N.of_nat (fst ie)) (snd ie))
    (PyList.enumerate 0 edges).

(** The geometry of the cell of a node. *)
Definition node_geometry (positions : PyDict.dict string (Z * Z)) (n : node) : string :=
  vertex_geometry (fst (position_of positions (n_id n)))
    (snd (position_of positions (n_id n))).

(** The geometry of a vertex at the origin, with the standard size. *)
Definition origin_geometry : string :=
  " " ++ attr "x" "0" ++ " " ++ attr "y" "0" ++ " " ++ attr "width" "240" ++ " "
    ++ attr "height" "96" ++ " " ++ attr "as" "geometry" ++ "/".

End DocumentNotions.

Section StateNotions.
Import PyStr Drawio.

(** The names the converter of the state diagrams gives an identifier: the
    start, the end and the states listed. *)
Definition state_names (d : state_spec) : list string :=
  (match truthy (ss_start d) with Some s => [s] | None => [] end
   ++ match truthy (ss_end d) with Some s => [s] | None => [] end
   ++ ss_states d)%list.

(** Both ends of a transition are such names. *)
Definition between_states (d : state_spec) (t : transition) : bool :=
  match tr_from t, tr_to t with
  | Some a, Some b => declared_in (state_names d) a && declared_in (state_names d) b
  | _, _ => false
  end.

End StateNotions.

Section PromptNotions.

(** The characters of ASCII. *)
Definition is_ascii (c : ascii) : bool := Nat.ltb (nat_of_ascii c) 128.

End PromptNotions.

(** Case analysis on the 256 characters. *)
Ltac each_char c := destruct c as [[] [] [] [] [] [] [] []].

(** * Properties *)

Import PyStr.

(** ** The embedding on examples

    Each primitive at inputs where the Python operation is subtle: the
    scanner restarts after a failed key, a value may hold [=], replacements
    do not overlap, the sort is stable and ignores case. *)

Section Examples.
Import Harvest Drawio.

Example findall_restarts :
  STYLE_KV_RE_findall "foo shape=bar; my-x= 1 ;;=3;y="
  = [("shape", "bar"); ("x", " 1 "); ("y", "")].
Proof. reflexivity. Qed.

Example findall_value_with_equals :
  STYLE_KV_RE_findall "ab=cd=e;f" = [("ab", "cd=e")].
Proof. reflexivity. Qed.

Example replace_does_not_overlap :
  replace "ab" "X" "ababa abab" = "XXa XX" /\ replace "aa" "b" "aaa" = "ba".
Proof. split; reflexivity. Qed.

Example sort_is_stable :
  PyList.sorted (fun x y => String.leb (lower (fst x)) (lower (fst y)))
    [("b", "2"); ("A", "1"); ("a", "0"); ("B", "3")]
  = [("A", "1"); ("a", "0"); ("b", "2"); ("B", "3")].
Proof. reflexivity. Qed.

Example safe_key_example : safe_key "  Foo Bar!!--baz.. " = "foo-bar-baz..".
Proof. reflexivity. Qed.

Example html_escape_example :
  html_escape ("a & b < c 'q' " ++ dq ++ "r" ++ dq ++ " >")
  = "a &amp; b &lt; c &#x27;q&#x27; &quot;r&quot; &gt;".
Proof. reflexivity. Qed.

Example ensure_html_examples :
  ensure_html "a=1;;" = "a=1;html=1;"
  /\ ensure_html "a=1;html=1" = "a=1;html=1"
  /\ ensure_html "html=10;" = "html=10;html=1;".
Proof. repeat split. Qed.

(** The chain A, B, C has the layers 0, 1, 2, and two paths of length two
    from one root put both leaves on layer 2. *)
Example layers_of_chain_and_diamond :
  bfs_layers (mk_spec "" TD [] [mk_edge "A" "B" ""; mk_edge "B" "C" ""])
  = Some [("A", 0); ("B", 1); ("C", 2)]
  /\ bfs_layers
       (mk_spec "" TD []
          [mk_edge "R" "X" ""; mk_edge "R" "Y" ""; mk_edge "X" "L1" "";
           mk_edge "Y" "L2" ""])
     = Some [("R", 0); ("X", 1); ("Y", 1); ("L1", 2); ("L2", 2)].
Proof. split; reflexivity. Qed.

(** The positions of the star: the root alone on the first column, its
    children below one another on the second. *)
Example layout_of_star :
  option_map snd (layer_layout star4 None)
  = Some [("r", (0, 0)); ("a", (440, 0)); ("b", (440, 256));
          ("c", (440, 512)); ("d", (440, 768))]%Z.
Proof. reflexivity. Qed.

End Examples.

(** ** Strings *)

Section StringFacts.

Lemma append_assoc (a b c : string) : (a ++ b) ++ c = a ++ (b ++ c).
Proof. induction a as [|x a IH]; simpl; [reflexivity | now rewrite IH]. Qed.

Lemma append_empty_r (a : string) : a ++ "" = a.
Proof. induction a as [|x a IH]; simpl; [reflexivity | now rewrite IH]. Qed.

Lemma append_inj_r (a b c : string) : a ++ b = a ++ c -> b = c.
Proof.
  induction a as [|x a IH]; simpl; intros E; [exact E|].
  injection E as E. now apply IH.
Qed.

Lemma length_append (a b : string) :
  String.length (a ++ b) = String.length a + String.length b.
Proof. induction a as [|x a IH]; simpl; [reflexivity | now rewrite IH]. Qed.

Lemma prefix_empty (s : string) : String.prefix "" s = true.
Proof. now destruct s. Qed.

Lemma prefix_append (a b : string) : String.prefix a (a ++ b) = true.
Proof.
  induction a as [|x a IH]; simpl; [apply prefix_empty|].
  destruct (ascii_dec x x) as [_|N]; [exact IH | now elim N].
Qed.

(** Only the first [length a] characters decide whether [a] is a prefix. *)
Lemma prefix_append_long (a x y : string) :
  String.length a <= String.length x ->
  String.prefix a (x ++ y) = String.prefix a x.
Proof.
  revert x. induction a as [|c a IH]; intros [|d x] L; simpl in *;
    try reflexivity; try lia.
  - apply prefix_empty.
  - destruct (ascii_dec c d); [apply IH; lia | reflexivity].
Qed.

Lemma drop_append (a b : string) : drop (String.length a) (a ++ b) = b.
Proof. induction a as [|x a IH]; simpl; [now destruct b | exact IH]. Qed.

Lemma subst_chars_append (f : ascii -> string) (a b : string) :
  subst_chars f (a ++ b) = subst_chars f a ++ subst_chars f b.
Proof.
  induction a as [|x a IH]; simpl; [reflexivity|].
  now rewrite IH, append_assoc.
Qed.

Lemma subst_chars_compose (f g : ascii -> string) (s : string) :
  subst_chars g (subst_chars f s) = subst_chars (fun c => subst_chars g (f c)) s.
Proof.
  induction s as [|x s IH]; simpl; [reflexivity|].
  now rewrite subst_chars_append, IH.
Qed.

Lemma subst_chars_ext (f g : ascii -> string) (s : string) :
  (forall c, f c = g c) -> subst_chars f s = subst_chars g s.
Proof.
  intros E. induction s as [|x s IH]; simpl; [reflexivity|].
  now rewrite E, IH.
Qed.

(** Replacing a one-character pattern is a character-wise substitution. *)
Lemma replace_one_char (c : ascii) (new s : string) :
  replace (String c "") new s =
  subst_chars (fun x => if Ascii.eqb x c then new else String x "") s.
Proof.
  unfold replace. induction s as [|x s IH]; [reflexivity|].
  cbn [replace_from subst_chars String.prefix String.length Nat.sub].
  destruct (ascii_dec c x) as [->|N].
  - rewrite Ascii.eqb_refl. destruct s; now rewrite IH.
  - destruct (Ascii.eqb_spec x c) as [->|_]; [now elim N|].
    simpl. now rewrite IH.
Qed.

Lemma prefix_cons (a c : ascii) (s1 s2 : string) :
  String.prefix (String a s1) (String c s2) = Ascii.eqb a c && String.prefix s1 s2.
Proof.
  simpl. destruct (ascii_dec a c) as [->|N].
  - now rewrite Ascii.eqb_refl.
  - apply Ascii.eqb_neq in N. now rewrite N.
Qed.

Lemma all_chars_append (p : ascii -> bool) (a b : string) :
  all_chars p (a ++ b) = all_chars p a && all_chars p b.
Proof. induction a as [|c a IH]; simpl; [reflexivity|]. now rewrite IH, andb_assoc. Qed.

Lemma all_chars_impl (p q : ascii -> bool) (s : string) :
  (forall c, p c = true -> q c = true) -> all_chars p s = true -> all_chars q s = true.
Proof.
  intros PQ. induction s as [|c s IH]; simpl; [reflexivity|].
  intros H. apply andb_prop in H as [Hc Hs]. now rewrite (PQ c Hc), IH.
Qed.

Lemma all_chars_subst (p : ascii -> bool) (f : ascii -> string) (s : string) :
  (forall c, all_chars p (f c) = true) -> all_chars p (subst_chars f s) = true.
Proof.
  intros F. induction s as [|c s IH]; simpl; [reflexivity|].
  now rewrite all_chars_append, F, IH.
Qed.

Lemma xml_code_free (c : ascii) : free_of is_markup (xml_code c) = true.
Proof. each_char c; reflexivity. Qed.

Lemma lower_append (a b : string) : lower (a ++ b) = lower a ++ lower b.
Proof. induction a as [|c a IH]; simpl; [reflexivity | now rewrite IH]. Qed.

Lemma contains_append (k a b : string) : contains k (a ++ k ++ b) = true.
Proof.
  induction a as [|c a IH].
  - simpl. destruct (k ++ b) eqn:E.
    + destruct k; [reflexivity | discriminate].
    + cbn [contains]. rewrite <- E, prefix_append. reflexivity.
  - cbn [append contains]. rewrite IH. apply orb_true_r.
Qed.

Lemma free_weaken (p q : ascii -> bool) (s : string) :
  (forall c, q c = true -> p c = true) -> free_of p s = true -> free_of q s = true.
Proof.
  intros PQ. unfold free_of. apply all_chars_impl.
  intros c H. destruct (q c) eqn:Q; [|reflexivity].
  now rewrite (PQ c Q) in H.
Qed.

End StringFacts.

(** ** The escaping layers *)

Section Escaping.
Import Drawio.

Lemma xml_attr_chars (s : string) : xml_attr (Some s) = subst_chars xml_code s.
Proof.
  unfold xml_attr, dq. rewrite !replace_one_char, !subst_chars_compose.
  apply subst_chars_ext. intros c. each_char c; reflexivity.
Qed.

Lemma html_escape_chars (s : string) : html_escape s = subst_chars html_code s.
Proof.
  unfold html_escape, dq. rewrite !replace_one_char, !subst_chars_compose.
  apply subst_chars_ext. intros c. each_char c; reflexivity.
Qed.

Lemma xml_unescape_chars (s : string) : xml_unescape (subst_chars xml_code s) = s.
Proof.
  unfold xml_unescape. induction s as [|c s IH]; [reflexivity|].
  each_char c; cbn; rewrite ?prefix_empty, IH; reflexivity.
Qed.

Lemma html_unescape_chars (s : string) : html_unescape (subst_chars html_code s) = s.
Proof.
  unfold html_unescape. induction s as [|c s IH]; [reflexivity|].
  each_char c; cbn; rewrite ?prefix_empty, IH; reflexivity.
Qed.

Lemma xml_unescape_attr (s : string) : xml_unescape (xml_attr (Some s)) = s.
Proof. rewrite xml_attr_chars. apply xml_unescape_chars. Qed.

Lemma html_unescape_escape (s : string) : html_unescape (html_escape s) = s.
Proof. rewrite html_escape_chars. apply html_unescape_chars. Qed.

(** C9. The two escaping layers round-trip: a label escaped for markup
    content ([html_escape]) and then for an attribute ([xml_attr]) is
    recovered by the attribute decoder followed by the content decoder, so
    that no two labels have the same encoding; the label [a & b < c] has the
    doubly escaped encoding shown and comes back from it. *)
Theorem escaping_layers_round_trip :
  (forall label : string,
     html_unescape (xml_unescape (xml_attr (Some (html_escape label)))) = label)
  /\ (forall a b : string,
        xml_attr (Some (html_escape a)) = xml_attr (Some (html_escape b)) -> a = b)
  /\ xml_attr (Some (html_escape "a & b < c")) = "a &amp;amp; b &amp;lt; c"
  /\ html_unescape (xml_unescape "a &amp;amp; b &amp;lt; c") = "a & b < c".
Proof.
  assert (forall label : string,
            html_unescape (xml_unescape (xml_attr (Some (html_escape label))))
            = label) as back
    by (intros label; now rewrite xml_unescape_attr, html_unescape_escape).
  split; [exact back|]. split; [|split; reflexivity].
  intros a b E. rewrite <- (back a), <- (back b). now rewrite E.
Qed.

(** A label with markup and an ampersand comes back, and is the only label
    with its encoding. *)
Lemma escaping_layers_round_trip_witness :
  html_unescape (xml_unescape (xml_attr (Some (html_escape "<b>R&D</b>"))))
  = "<b>R&D</b>"
  /\ "<b>R&" ++ "D</b>" = "<b>R&D</b>".
Proof.
  destruct escaping_layers_round_trip as (back & inj & _).
  split; [apply back|].
  apply inj. reflexivity.
Defined.

End Escaping.

(** ** Stable sorting *)

Section StableSort.
Context {A : Type} (leb : A -> A -> bool).

Lemma insert_sorted_perm (x : A) (l : list A) :
  Permutation (x :: l) (PyList.insert_sorted leb x l).
Proof.
  induction l as [|y l IH]; simpl; [reflexivity|].
  destruct (leb x y); [reflexivity|].
  rewrite perm_swap. now apply perm_skip.
Qed.

Lemma sorted_perm (l : list A) : Permutation l (PyList.sorted leb l).
Proof.
  induction l as [|x l IH]; simpl; [reflexivity|].
  rewrite <- insert_sorted_perm. now apply perm_skip.
Qed.

Hypothesis leb_total : forall x y, leb x y = true \/ leb y x = true.
Hypothesis leb_trans :
  forall x y z, leb x y = true -> leb y z = true -> leb x z = true.

Lemma insert_sorted_sorted (x : A) (l : list A) :
  StronglySorted (holds leb) l -> StronglySorted (holds leb) (PyList.insert_sorted leb x l).
Proof.
  induction 1 as [|y l S IH F]; simpl.
  - repeat constructor.
  - destruct (leb x y) eqn:E.
    + constructor; [now constructor|].
      constructor; [exact E|].
      eapply Forall_impl; [|exact F]. intros z. now apply leb_trans.
    + constructor; [exact IH|].
      eapply Permutation_Forall; [apply insert_sorted_perm|].
      constructor; [|exact F].
      destruct (leb_total x y) as [L|L]; [congruence | exact L].
Qed.

Lemma sorted_sorted (l : list A) : StronglySorted (holds leb) (PyList.sorted leb l).
Proof.
  induction l as [|x l IH]; simpl; [constructor|].
  now apply insert_sorted_sorted.
Qed.

(** Two sorted lists with the same elements are equal when no two distinct
    elements are equivalent for the order. *)
Lemma strongly_sorted_unique (l1 l2 : list A) :
  StronglySorted (holds leb) l1 -> StronglySorted (holds leb) l2 -> Permutation l1 l2 ->
  (forall x y, In x l1 -> In y l1 -> leb x y = true -> leb y x = true -> x = y) ->
  l1 = l2.
Proof.
  intros S1. revert l2.
  induction S1 as [|x l1 S1 IH F1]; intros l2 S2 P anti.
  - apply Permutation_nil in P. now subst.
  - destruct S2 as [|y l2 S2 F2].
    + apply Permutation_sym, Permutation_nil in P. discriminate.
    + assert (x = y) as <-.
      { assert (In x (y :: l2)) as Hx
          by (eapply Permutation_in; [exact P | now left]).
        assert (In y (x :: l1)) as Hy
          by (eapply Permutation_in; [symmetry; exact P | now left]).
        destruct Hx as [->|Hx]; [reflexivity|].
        destruct Hy as [->|Hy]; [reflexivity|].
        apply anti; [now left | now right | |].
        - rewrite Forall_forall in F1. now apply F1.
        - rewrite Forall_forall in F2. now apply F2. }
      f_equal. apply IH; [exact S2 | now apply Permutation_cons_inv in P |].
      intros a b Ha Hb. apply anti; now right.
Qed.

Lemma sorted_of_permutation (l1 l2 : list A) :
  Permutation l1 l2 ->
  (forall x y, In x l1 -> In y l1 -> leb x y = true -> leb y x = true -> x = y) ->
  PyList.sorted leb l1 = PyList.sorted leb l2.
Proof.
  intros P anti. apply strongly_sorted_unique; try apply sorted_sorted.
  - now rewrite <- !sorted_perm.
  - intros x y Hx Hy. apply anti; eapply Permutation_in;
      try (symmetry; apply sorted_perm); assumption.
Qed.

End StableSort.

(** The order of Python on strings is transitive. *)
Lemma string_leb_trans (a b c : string) :
  String.leb a b = true -> String.leb b c = true -> String.leb a c = true.
Proof.
  unfold String.leb. revert b c.
  induction a as [|x a IH]; intros [|y b] [|z c]; simpl; try congruence.
  unfold Ascii.compare.
  destruct (N.compare_spec (N_of_ascii x) (N_of_ascii y)) as [E1|L1|L1];
    destruct (N.compare_spec (N_of_ascii y) (N_of_ascii z)) as [E2|L2|L2];
    destruct (N.compare_spec (N_of_ascii x) (N_of_ascii z)) as [E3|L3|L3];
    try congruence; try lia.
  apply IH.
Qed.

(** ** normalize_style *)

Section Normalize.
Import Harvest.

Lemma by_sort_key_total x y : by_sort_key x y = true \/ by_sort_key y x = true.
Proof. apply String.leb_total. Qed.

Lemma by_sort_key_trans x y z :
  by_sort_key x y = true -> by_sort_key y z = true -> by_sort_key x z = true.
Proof. apply string_leb_trans. Qed.

Lemma NoDup_map_In_inj {A B} (f : A -> B) (l : list A) (x y : A) :
  NoDup (map f l) -> In x l -> In y l -> f x = f y -> x = y.
Proof.
  induction l as [|a l IH]; simpl; [tauto|].
  intros D [->|Hx] [->|Hy] E; inversion D as [|? ? N D']; subst.
  - reflexivity.
  - elim N. rewrite E. now apply in_map.
  - elim N. rewrite <- E. now apply in_map.
  - now apply IH.
Qed.

(** Pairwise distinct keys are a case of it. *)
Lemma distinct_keys_determine_pairs (l : list (string * string)) :
  NoDup (map sort_key l) -> key_determines_pair l.
Proof. intros D x y. now apply NoDup_map_In_inj. Qed.

(** Sorting by key gives one result for all the orders of such pairs. *)
Lemma sorted_pairs_of_permutation (l1 l2 : list (string * string)) :
  Permutation l1 l2 -> key_determines_pair l1 ->
  PyList.sorted by_sort_key l1 = PyList.sorted by_sort_key l2.
Proof.
  intros P D.
  apply (sorted_of_permutation by_sort_key by_sort_key_total by_sort_key_trans _ _ P).
  intros x y Hx Hy L1 L2.
  apply D; try assumption.
  now apply String.leb_antisym.
Qed.

Lemma normalize_style_by_sort_key (s : string) :
  normalize_style s
  = join ";" (map (fun x => fst x ++ "=" ++ snd x)
                (PyList.sorted by_sort_key (style_pairs s)))
    ++ (match PyList.sorted by_sort_key (style_pairs s) with
        | [] => ""
        | _ => ";"
        end).
Proof. reflexivity. Qed.

(** C4 (amended). [normalize_style] does not depend on the order of the
    attribute=value pairs of a style in which pairs whose keys agree, case
    ignored, are the same pair (so when the keys are pairwise distinct): two
    style strings whose pairs are the same up to order have the same normal
    form. *)
Theorem normalize_style_order_independent (s1 s2 : string) :
  Permutation (style_pairs s1) (style_pairs s2) ->
  key_determines_pair (style_pairs s1) ->
  normalize_style s1 = normalize_style s2.
Proof.
  intros P D. rewrite !normalize_style_by_sort_key.
  now rewrite (sorted_pairs_of_permutation _ _ P D).
Qed.

(** The instance the specification names: [b=2;a=1;] and [a=1;b=2;]. *)
Lemma normalize_style_order_independent_witness :
  normalize_style "b=2;a=1;" = normalize_style "a=1;b=2;"
  /\ normalize_style "a=1;b=2;" = "a=1;b=2;".
Proof.
  split; [|reflexivity].
  apply normalize_style_order_independent.
  - apply perm_swap.
  - apply distinct_keys_determine_pairs.
    repeat constructor; simpl; intuition discriminate.
Defined.

(** C4, as stated, fails: a style may repeat a key, the sort is stable and
    compares keys only, so the two orders of [a=1] and [a=2] keep their
    order. *)
Lemma normalize_style_repeated_key :
  Permutation (style_pairs "a=1;a=2;") (style_pairs "a=2;a=1;")
  /\ normalize_style "a=1;a=2;" <> normalize_style "a=2;a=1;".
Proof.
  split; [apply perm_swap | discriminate].
Qed.

End Normalize.

(** ** Style strings written from their pairs

    A style string that consists of given attribute=value pairs is the
    concatenation of [key=value;] over the pairs; the scanner reads the pairs
    back, so two such strings over the same pairs have the same pairs up to
    order. *)

Section RenderedStyles.
Import Harvest.

Lemma span_append (p : ascii -> bool) (a : string) (c : ascii) (r : string) :
  all_chars p a = true -> p c = false ->
  span p (a ++ String c r) = (a, String c r).
Proof.
  intros Ha Hc. induction a as [|x a IH]; simpl in *.
  - now rewrite Hc.
  - apply andb_prop in Ha as [Hx Ha]. now rewrite Hx, IH.
Qed.

Lemma findall_skip (a b : string) :
  findall_from (String.length a) (a ++ b) = findall_from 0 b.
Proof.
  induction a as [|x a IH]; simpl; [reflexivity | exact IH].
Qed.

Lemma findall_render (l : list (string * string)) :
  Forall well_formed_pair l -> STYLE_KV_RE_findall (render_pairs l) = l.
Proof.
  unfold STYLE_KV_RE_findall.
  induction 1 as [|[k v] l (Hne & Hk & Hv) F IH]; [reflexivity|].
  simpl in Hne, Hk, Hv.
  cbn [render_pairs fold_right fst snd]. fold (render_pairs l).
  destruct k as [|c k]; [now elim Hne|].
  cbn [append findall_from]. unfold match_kv.
  pose proof (span_append is_key_char (String c k) "="
                (v ++ String ";" (render_pairs l)) Hk eq_refl) as Ek.
  cbn [append] in Ek. rewrite Ek.
  rewrite (span_append not_semicolon v ";" _ Hv eq_refl).
  f_equal.
  cbn [String.length].
  replace (S (String.length k) + 1 + String.length v + 1 - 1)
    with (String.length (k ++ "=" ++ v ++ ";"))
    by (rewrite !length_append; simpl; lia).
  replace (k ++ String "=" (v ++ String ";" (render_pairs l)))
    with ((k ++ "=" ++ v ++ ";") ++ render_pairs l)
    by (now rewrite !append_assoc).
  rewrite findall_skip. exact IH.
Qed.

Lemma rstrip_by_none (p : ascii -> bool) (s : string) :
  all_chars (fun c => negb (p c)) s = true -> rstrip_by p s = s.
Proof.
  induction s as [|c s IH]; simpl; [reflexivity|].
  intros H. apply andb_prop in H as [Hc Hs]. rewrite (IH Hs).
  destruct s; [|reflexivity].
  now destruct (p c).
Qed.

Lemma key_char_not_space (c : ascii) : is_key_char c = true -> is_space c = false.
Proof. destruct c as [[] [] [] [] [] [] [] []]; vm_compute; congruence. Qed.

Lemma strip_key (k : string) : all_chars is_key_char k = true -> strip k = k.
Proof.
  intros H. unfold strip, strip_by.
  assert (all_chars (fun c => negb (is_space c)) k = true) as H'.
  { induction k as [|c k IH]; simpl in *; [reflexivity|].
    apply andb_prop in H as [Hc Hk].
    now rewrite (key_char_not_space c Hc), IH. }
  destruct k as [|c k]; [reflexivity|].
  simpl in H'. apply andb_prop in H' as [Hc Hk].
  cbn [lstrip_by]. apply negb_true_iff in Hc. rewrite Hc.
  apply rstrip_by_none. simpl. now rewrite Hc, Hk.
Qed.

Lemma style_pairs_render (l : list (string * string)) :
  Forall well_formed_pair l ->
  style_pairs (render_pairs l) = map (fun kv => (fst kv, strip (snd kv))) l.
Proof.
  intros F. unfold style_pairs. rewrite (findall_render l F).
  induction F as [|[k v] l (Hne & Hk & Hv) F IH]; [reflexivity|].
  simpl in *. rewrite (strip_key k Hk).
  destruct k as [|c k]; [now elim Hne|]. simpl.
  now rewrite ?(strip_key _ Hk), IH.
Qed.

(** The same pairs written in two orders normalize alike. *)
Corollary normalize_style_rendered (l1 l2 : list (string * string)) :
  Forall well_formed_pair l1 -> Permutation l1 l2 ->
  NoDup (map (fun kv => lower (fst kv)) l1) ->
  normalize_style (render_pairs l1) = normalize_style (render_pairs l2).
Proof.
  intros F P D.
  assert (Forall well_formed_pair l2) as F2
    by (eapply Permutation_Forall; eassumption).
  rewrite !normalize_style_by_sort_key, !style_pairs_render by assumption.
  rewrite (sorted_pairs_of_permutation
             (map (fun kv => (fst kv, strip (snd kv))) l1)
             (map (fun kv => (fst kv, strip (snd kv))) l2)); [reflexivity | |].
  - now apply Permutation_map.
  - apply distinct_keys_determine_pairs. rewrite map_map. exact D.
Qed.

End RenderedStyles.

(** ** Dictionaries *)

Section DictFacts.
Context {K V : Type} `{PyKey K}.
Implicit Types (d : PyDict.dict K V) (k : K) (v : V).

Lemma key_eqb_refl k : key_eqb k k = true.
Proof. destruct (key_eqb_spec k k); congruence. Qed.

Lemma key_eqb_neq k k' : k <> k' -> key_eqb k k' = false.
Proof. intros N. destruct (key_eqb_spec k k'); congruence. Qed.

Lemma get_In k v d : PyDict.get k d = Some v -> In (k, v) d.
Proof.
  induction d as [|[k' v'] d IH]; simpl; [discriminate|].
  destruct (key_eqb_spec k' k) as [->|N]; intros E.
  - injection E as ->. now left.
  - right. now apply IH.
Qed.

Lemma get_None_iff k d : PyDict.get k d = None <-> ~ In k (PyDict.keys d).
Proof.
  induction d as [|[k' v'] d IH]; simpl; [tauto|].
  destruct (key_eqb_spec k' k) as [->|N].
  - split; [discriminate | intros F; elim F; now left].
  - rewrite IH. tauto.
Qed.

Lemma mem_In k d : PyDict.mem k d = true <-> In k (PyDict.keys d).
Proof.
  unfold PyDict.mem. destruct (PyDict.get k d) eqn:E.
  - split; [intros _ | reflexivity].
    apply get_In in E. now apply (in_map fst) in E.
  - apply get_None_iff in E. split; [discriminate | tauto].
Qed.

Lemma mem_false_iff k d : PyDict.mem k d = false <-> ~ In k (PyDict.keys d).
Proof. rewrite <- mem_In. destruct (PyDict.mem k d); split; congruence. Qed.

Lemma set_absent k v d : PyDict.get k d = None -> PyDict.set k v d = (d ++ [(k, v)])%list.
Proof.
  induction d as [|[k' v'] d IH]; simpl; [reflexivity|].
  destruct (key_eqb k' k); [discriminate|].
  intros E. now rewrite IH.
Qed.

Lemma keys_set_present k v d :
  In k (PyDict.keys d) -> PyDict.keys (PyDict.set k v d) = PyDict.keys d.
Proof.
  induction d as [|[k' v'] d IH]; simpl; [tauto|].
  destruct (key_eqb_spec k' k) as [->|N]; [reflexivity|].
  intros [E|I]; [congruence|]. simpl. now rewrite IH.
Qed.

Lemma keys_set_absent k v d :
  ~ In k (PyDict.keys d) -> PyDict.keys (PyDict.set k v d) = (PyDict.keys d ++ [k])%list.
Proof.
  intros N. apply get_None_iff in N. rewrite (set_absent _ _ _ N).
  unfold PyDict.keys. now rewrite map_app.
Qed.

Lemma In_keys_set k k' v d :
  In k' (PyDict.keys (PyDict.set k v d)) <-> k' = k \/ In k' (PyDict.keys d).
Proof.
  induction d as [|[a b] d IH]; simpl; [intuition congruence|].
  destruct (key_eqb_spec a k) as [->|N]; simpl; [intuition congruence|].
  rewrite IH. tauto.
Qed.

Lemma get_set_same k v d : PyDict.get k (PyDict.set k v d) = Some v.
Proof.
  induction d as [|[a b] d IH]; simpl.
  - now rewrite key_eqb_refl.
  - destruct (key_eqb a k) eqn:E; simpl; now rewrite E.
Qed.

Lemma get_set_other k k' v d :
  k <> k' -> PyDict.get k' (PyDict.set k v d) = PyDict.get k' d.
Proof.
  intros N. induction d as [|[a b] d IH]; simpl.
  - now rewrite key_eqb_neq.
  - destruct (key_eqb_spec a k) as [->|Na]; simpl.
    + now rewrite key_eqb_neq.
    + now rewrite IH.
Qed.

Lemma NoDup_keys_set k v d :
  NoDup (PyDict.keys d) -> NoDup (PyDict.keys (PyDict.set k v d)).
Proof.
  intros D. destruct (in_dec (fun a b => match key_eqb_spec a b with
                                         | ReflectT _ e => left e
                                         | ReflectF _ n => right n
                                         end) k (PyDict.keys d)) as [I|N].
  - now rewrite keys_set_present.
  - rewrite keys_set_absent by assumption.
    apply NoDup_app; [assumption | repeat constructor; simpl; tauto |].
    intros x Hx [<-|[]]. contradiction.
Qed.

Lemma length_set_absent k v d :
  PyDict.get k d = None -> List.length (PyDict.set k v d) = S (List.length d).
Proof. intros E. rewrite (set_absent _ _ _ E), length_app. simpl. lia. Qed.

End DictFacts.

(** ** Decimal numerals *)

Lemma str_of_N_inj (a b : N) : str_of_N a = str_of_N b -> a = b.
Proof.
  unfold str_of_N. intros E.
  apply DecimalN.Unsigned.to_uint_inj.
  assert (Some (N.to_uint a) = Some (N.to_uint b)) as S
    by (now rewrite <- !NilEmpty.usu, E).
  now injection S.
Qed.

(** ** add_unique *)

Section AddUnique.
Import Harvest.

Lemma suffixed_inj (k : string) (i j : N) : suffixed k i = suffixed k j -> i = j.
Proof.
  unfold suffixed. intros E.
  apply append_inj_r in E. apply (append_inj_r "-") in E.
  now apply str_of_N_inj.
Qed.

Lemma find_norm_None (s : string) (m : PyDict.dict string string) :
  find_norm s m = None ->
  forall ek es, In (ek, es) m -> String.eqb (normalize_style es) s = false.
Proof.
  induction m as [|[k v] m IH]; simpl; [tauto|].
  destruct (String.eqb (normalize_style v) s) eqn:E; [discriminate|].
  intros F ek es [P|I]; [now injection P as <- <- | now apply (IH F ek)].
Qed.

Lemma find_norm_append (s k style : string) (m : PyDict.dict string string) :
  find_norm s m = None -> normalize_style style = s ->
  find_norm s (m ++ [(k, style)])%list = Some k.
Proof.
  intros F E. induction m as [|[k' v] m IH]; simpl in *.
  - now rewrite E, String.eqb_refl.
  - destruct (String.eqb (normalize_style v) s); [discriminate | now apply IH].
Qed.

(** What the loop returns, when no entry has the fingerprint: a key that was
    free, now bound to the style. *)
Lemma probe_new_key (fuel : nat) (m m' : PyDict.dict string string)
    (k s style key : string) (i : N) :
  find_norm s m = None ->
  probe fuel m k s style i = Some (m', key) ->
  PyDict.get key m = None /\ m' = PyDict.set key style m.
Proof.
  intros F. revert i. induction fuel as [|fuel IH]; intros i; cbn [probe]; [discriminate|].
  destruct (PyDict.get (k ++ "-" ++ str_of_N i) m) as [es|] eqn:G.
  - rewrite (find_norm_None s m F _ es (get_In _ _ _ G)). apply IH.
  - intros E. injection E as <- <-. now split.
Qed.

(** The loop ends when a key within reach of the fuel is free. *)
Lemma probe_finds (fuel : nat) (m : PyDict.dict string string)
    (k s style : string) (i : N) :
  (exists j, j < fuel /\ PyDict.get (suffixed k (i + N.of_nat j)) m = None) ->
  exists r, probe fuel m k s style i = Some r.
Proof.
  revert i. induction fuel as [|fuel IH]; intros i (j & L & G); [lia|].
  cbn [probe]. fold (suffixed k i).
  destruct (PyDict.get (suffixed k i) m) as [es|] eqn:Gi; [|eauto].
  destruct (String.eqb (normalize_style es) s); [eauto|].
  apply IH. destruct j as [|j].
  - rewrite N.add_0_r in G. congruence.
  - exists j. split; [lia|].
    now replace (i + 1 + N.of_nat j)%N with (i + N.of_nat (S j))%N by lia.
Qed.

(** Among more distinct candidates than there are keys, one is free. *)
Lemma fresh_candidate (candidates keys : list string) :
  NoDup candidates -> List.length keys < List.length candidates ->
  exists c, In c candidates /\ ~ In c keys.
Proof.
  intros D L.
  destruct (Forall_Exists_dec (fun c => In c keys)
              (fun c => in_dec string_dec c keys) candidates) as [F|E].
  - rewrite Forall_forall in F.
    pose proof (NoDup_incl_length D F). lia.
  - apply Exists_exists in E. exact E.
Qed.

Lemma probe_returns (m : PyDict.dict string string) (k s style : string) :
  exists r, probe (S (List.length m)) m k s style 1%N = Some r.
Proof.
  apply probe_finds.
  set (cands := map (fun j => suffixed k (1 + N.of_nat j)) (seq 0 (S (List.length m)))).
  destruct (fresh_candidate cands (PyDict.keys m)) as (c & Ic & Nc).
  - apply Finite.Injective_map_NoDup; [|apply seq_NoDup].
    intros a b E. apply suffixed_inj in E. lia.
  - unfold cands, PyDict.keys. rewrite !length_map, length_seq. lia.
  - apply in_map_iff in Ic as (j & <- & Ij). apply in_seq in Ij.
    exists j. split; [lia | now apply get_None_iff].
Qed.

(** [add_unique] returns: the fuel given to its loop is enough. *)
Lemma add_unique_returns (m : PyDict.dict string string) (base_key style : string) :
  exists m' key, add_unique m base_key style = Some (m', key).
Proof.
  unfold add_unique.
  destruct (find_norm (normalize_style style) m) as [ek|]; [eauto|].
  destruct (PyDict.mem (safe_key base_key) m); cbn [negb]; [|eauto].
  destruct (probe_returns m (safe_key base_key) (normalize_style style) style)
    as ([m' key] & E).
  eauto.
Qed.

Lemma count_norm_None (s : string) (m : PyDict.dict string string) :
  find_norm s m = None -> count_norm s m = 0.
Proof.
  unfold count_norm. induction m as [|[k v] m IH]; simpl; [reflexivity|].
  destruct (String.eqb (normalize_style v) s); [discriminate | exact IH].
Qed.

Lemma count_norm_Some (s ek : string) (m : PyDict.dict string string) :
  find_norm s m = Some ek -> 1 <= count_norm s m.
Proof.
  unfold count_norm. induction m as [|[k v] m IH]; simpl; [discriminate|].
  destruct (String.eqb (normalize_style v) s); simpl; [lia | exact IH].
Qed.

(** After a call the fingerprint of the style is in the library, under the
    key returned, and is there once if it was not there before. *)
Lemma add_unique_found (m m' : PyDict.dict string string)
    (base_key style key : string) :
  add_unique m base_key style = Some (m', key) ->
  find_norm (normalize_style style) m' = Some key
  /\ count_norm (normalize_style style) m'
     = Nat.max 1 (count_norm (normalize_style style) m).
Proof.
  unfold add_unique.
  destruct (find_norm (normalize_style style) m) as [ek|] eqn:F.
  - intros E. injection E as <- <-. split; [exact F|].
    pose proof (count_norm_Some _ _ _ F). lia.
  - assert (forall k, PyDict.get k m = None ->
              find_norm (normalize_style style) (PyDict.set k style m) = Some k
              /\ count_norm (normalize_style style) (PyDict.set k style m)
                 = Nat.max 1 (count_norm (normalize_style style) m)) as fresh.
    { intros k G. rewrite (set_absent _ _ _ G). split.
      - now apply find_norm_append.
      - rewrite (count_norm_None _ _ F). unfold count_norm.
        rewrite filter_app, length_app. fold (count_norm (normalize_style style) m).
        rewrite (count_norm_None _ _ F). simpl. now rewrite String.eqb_refl. }
    destruct (PyDict.mem (safe_key base_key) m) eqn:M; cbn [negb].
    + intros E. apply (probe_new_key _ _ _ _ _ _ _ _ F) in E as [G ->].
      now apply fresh.
    + intros E. injection E as <- <-. apply fresh.
      apply get_None_iff. now apply mem_false_iff.
Qed.

(** C5. [add_unique] is idempotent on duplicate content: whatever the
    library and the two base keys, inserting a style and then a style of the
    same normalized fingerprint returns the same key both times; the second
    call leaves the library as it is, and the fingerprint has as many entries
    as before the first call, or one if it had none. *)
Theorem add_unique_idempotent (lib : PyDict.dict string string)
    (key1 key2 style style' : string) :
  normalize_style style' = normalize_style style ->
  exists lib1 key,
    add_unique lib key1 style = Some (lib1, key)
    /\ add_unique lib1 key2 style' = Some (lib1, key)
    /\ count_norm (normalize_style style) lib1
       = Nat.max 1 (count_norm (normalize_style style) lib).
Proof.
  intros E.
  destruct (add_unique_returns lib key1 style) as (lib1 & key & A).
  exists lib1, key. destruct (add_unique_found _ _ _ _ _ A) as [F C].
  repeat split; [exact A | | exact C].
  unfold add_unique. now rewrite E, F.
Qed.

(** The same content in two attribute orders, under two base keys, in an
    empty library. *)
Lemma add_unique_idempotent_witness :
  exists lib1 key,
    add_unique [] "shape.a" "b=2;a=1;" = Some (lib1, key)
    /\ add_unique lib1 "shape.b" "a=1;b=2;" = Some (lib1, key)
    /\ count_norm (normalize_style "b=2;a=1;") lib1
       = Nat.max 1 (count_norm (normalize_style "b=2;a=1;") []).
Proof.
  apply (add_unique_idempotent [] "shape.a" "shape.b" "b=2;a=1;" "a=1;b=2;").
  reflexivity.
Defined.

End AddUnique.

(** ** guess_key_from_style *)

Section GuessKey.
Import Harvest.

Lemma split_once_prefix (sep s : string) :
  String.prefix sep s = true ->
  split_once sep s = Some ("", drop (String.length sep) s).
Proof.
  intros P. destruct s as [|c s].
  - destruct sep; [reflexivity | discriminate].
  - cbn [split_once]. now rewrite P.
Qed.

Lemma after_first_prefix (sep rest : string) : after_first sep (sep ++ rest) = rest.
Proof.
  unfold after_first.
  now rewrite (split_once_prefix _ _ (prefix_append sep rest)), drop_append.
Qed.

(** When the only occurrence of [EdgeStyle] in a value is at its end,
    removing every occurrence removes that suffix. *)
Lemma replace_EdgeStyle_suffix (p : string) :
  contains "EdgeStyle" (p ++ "EdgeStyl") = false ->
  replace "EdgeStyle" "" (p ++ "EdgeStyle") = p.
Proof.
  unfold replace. induction p as [|c p IH]; [reflexivity|].
  cbn [append contains]. intros C.
  apply orb_false_iff in C as [P C].
  cbn [replace_from].
  assert (String.prefix "EdgeStyle" (String c (p ++ "EdgeStyle")) = false) as P'.
  { assert (String c (p ++ "EdgeStyle") = String c (p ++ "EdgeStyl") ++ "e") as E
      by (cbn [append]; now rewrite append_assoc).
    rewrite E, prefix_append_long; [exact P|].
    cbn [String.length]. rewrite length_append. simpl. lia. }
  rewrite P'.
  now rewrite (IH C).
Qed.

Lemma guess_key_edge_style (style : string) :
  style_attr style "edgeStyle" <> "" ->
  guess_key_from_style style true
  = "edge." ++ replace "EdgeStyle" "" (style_attr style "edgeStyle").
Proof.
  unfold guess_key_from_style, style_attr. cbn [negb].
  set (d := PyDict.of_pairs (STYLE_KV_RE_findall style)).
  destruct (get_or_empty "edgeStyle" d); [congruence | reflexivity].
Qed.

Lemma guess_key_arrows (style : string) :
  style_attr style "edgeStyle" = "" ->
  guess_key_from_style style true
  = match style_attr style "endArrow", style_attr style "startArrow" with
    | String c a, _ => "edge." ++ String c a
    | EmptyString, String c a => "edge." ++ String c a
    | EmptyString, EmptyString => "edge.orthogonal"
    end.
Proof.
  unfold guess_key_from_style, style_attr, get_or_empty. cbn [negb].
  set (d := PyDict.of_pairs (STYLE_KV_RE_findall style)).
  intros E. rewrite E. cbn [String.eqb negb].
  destruct (PyDict.get "endArrow" d) as [[|c a]|];
    destruct (PyDict.get "startArrow" d) as [[|c' a']|]; reflexivity.
Qed.

(** C6 (amended). For a style that is not an edge and whose [shape] value
    is in the [mxgraph.] namespace, the key is what follows the prefix.  For
    an edge style with a non-empty [edgeStyle] value the key is [edge.] and
    the value with every occurrence of [EdgeStyle] removed, that is, the
    value without its suffix when the value ends in [EdgeStyle] and has it
    nowhere else.  With no [edgeStyle] value the key is [edge.] and the
    [endArrow] value, else the [startArrow] value, else [edge.orthogonal].
    The two instances of the specification hold. *)
Theorem guess_key_from_style_classes :
  (forall style rest,
     style_attr style "shape" = "mxgraph." ++ rest ->
     guess_key_from_style style false = rest)
  /\ (forall style,
        style_attr style "edgeStyle" <> "" ->
        guess_key_from_style style true
        = "edge." ++ replace "EdgeStyle" "" (style_attr style "edgeStyle"))
  /\ (forall style p,
        style_attr style "edgeStyle" = p ++ "EdgeStyle" ->
        contains "EdgeStyle" (p ++ "EdgeStyl") = false ->
        guess_key_from_style style true = "edge." ++ p)
  /\ (forall style c a,
        style_attr style "edgeStyle" = "" ->
        style_attr style "endArrow" = String c a ->
        guess_key_from_style style true = "edge." ++ String c a)
  /\ (forall style c a,
        style_attr style "edgeStyle" = "" ->
        style_attr style "endArrow" = "" ->
        style_attr style "startArrow" = String c a ->
        guess_key_from_style style true = "edge." ++ String c a)
  /\ (forall style,
        style_attr style "edgeStyle" = "" ->
        style_attr style "endArrow" = "" ->
        style_attr style "startArrow" = "" ->
        guess_key_from_style style true = "edge.orthogonal")
  /\ guess_key_from_style "shape=mxgraph.foo.bar;" false = "foo.bar"
  /\ guess_key_from_style "edgeStyle=entityRelationEdgeStyle;" true
     = "edge.entityRelation".
Proof.
  repeat split.
  - intros style rest E. unfold guess_key_from_style. cbn [negb].
    fold (style_attr style "shape"). rewrite E.
    unfold startswith. rewrite prefix_append. apply after_first_prefix.
  - apply guess_key_edge_style.
  - intros style p E C. rewrite guess_key_edge_style.
    + now rewrite E, replace_EdgeStyle_suffix.
    + rewrite E. now destruct p.
  - intros style c a E A. now rewrite guess_key_arrows, A.
  - intros style c a E A B. now rewrite guess_key_arrows, A, B.
  - intros style E A B. now rewrite guess_key_arrows, A, B.
Qed.

(** The two instances of the specification, from the general statements. *)
Lemma guess_key_from_style_classes_witness :
  guess_key_from_style "shape=mxgraph.foo.bar;" false = "foo.bar"
  /\ guess_key_from_style "edgeStyle=entityRelationEdgeStyle;" true
     = "edge.entityRelation"
  /\ guess_key_from_style "endArrow=block;startArrow=oval;" true = "edge.block"
  /\ guess_key_from_style "rounded=1;startArrow=oval;" true = "edge.oval"
  /\ guess_key_from_style "rounded=1;" true = "edge.orthogonal".
Proof.
  destruct guess_key_from_style_classes as (S & _ & E & A1 & A2 & A3 & _).
  refine (conj _ (conj _ (conj _ (conj _ _)))).
  - apply (S _ "foo.bar"). reflexivity.
  - apply (E _ "entityRelation"); reflexivity.
  - apply (A1 _ "b"%char "lock"); reflexivity.
  - apply (A2 _ "o"%char "val"); reflexivity.
  - apply A3; reflexivity.
Defined.

(** C6, as stated, fails: [EdgeStyle] inside the value, not at its end, is
    removed, where stripping a trailing suffix would leave the value as it
    is. *)
Lemma guess_key_removes_inner_EdgeStyle :
  style_attr "edgeStyle=EdgeStyleFoo;" "edgeStyle" = "EdgeStyleFoo"
  /\ guess_key_from_style "edgeStyle=EdgeStyleFoo;" true = "edge.Foo"
  /\ guess_key_from_style "edgeStyle=EdgeStyleFoo;" true
     <> "edge." ++ removesuffix "EdgeStyle" "EdgeStyleFoo".
Proof. repeat split. discriminate. Qed.

End GuessKey.

(** ** Style references *)

Section StyleReference.
Import Drawio.

Lemma prefix_split (p s : string) :
  String.prefix p s = true -> s = p ++ drop (String.length p) s.
Proof.
  revert s. induction p as [|c p IH]; intros [|d s]; simpl; try congruence.
  destruct (ascii_dec c d) as [->|]; [|discriminate].
  intros P. now rewrite <- IH.
Qed.

Lemma rstrip_by_cons (p : ascii -> bool) (c : ascii) (s : string) :
  p c = false -> rstrip_by p (String c s) = String c (rstrip_by p s).
Proof. intros E. simpl. rewrite E. now destruct (rstrip_by p s). Qed.

Lemma contains_semicolon_cons (c : ascii) (s : string) :
  contains ";" (String c s) = Ascii.eqb c ";" || contains ";" s.
Proof.
  cbn [contains String.prefix].
  destruct (ascii_dec ";" c) as [<-|N].
  - now rewrite prefix_empty.
  - destruct (Ascii.eqb_spec c ";"); [congruence | reflexivity].
Qed.

Lemma space_not_semicolon (c : ascii) : is_space c = true -> Ascii.eqb c ";" = false.
Proof. destruct c as [[] [] [] [] [] [] [] []]; vm_compute; congruence. Qed.

Lemma contains_semicolon_lstrip (s : string) :
  contains ";" s = true -> contains ";" (lstrip_by is_space s) = true.
Proof.
  induction s as [|c s IH]; [discriminate|].
  cbn [lstrip_by]. destruct (is_space c) eqn:E; [|tauto].
  rewrite contains_semicolon_cons, (space_not_semicolon c E). exact IH.
Qed.

Lemma contains_semicolon_rstrip (s : string) :
  contains ";" s = true -> contains ";" (rstrip_by is_space s) = true.
Proof.
  induction s as [|c s IH]; [discriminate|].
  rewrite contains_semicolon_cons. intros C.
  cbn [rstrip_by].
  destruct (Ascii.eqb c ";") eqn:E.
  - assert (is_space c = false) as ->
      by (destruct (is_space c) eqn:S; [apply space_not_semicolon in S|]; congruence).
    destruct (rstrip_by is_space s); rewrite contains_semicolon_cons, E; reflexivity.
  - specialize (IH C). destruct (rstrip_by is_space s) as [|d r]; [discriminate|].
    rewrite contains_semicolon_cons, IH. apply orb_true_r.
Qed.

Lemma shape_prefix_literal (r : string) :
  startswith (lower (rstrip_by is_space (lstrip_by is_space ("shape=" ++ r))))
    "shape=" || contains ";" (rstrip_by is_space (lstrip_by is_space ("shape=" ++ r)))
  = true.
Proof.
  cbn [append].
  change (lstrip_by is_space (String "s" ?x)) with (String "s" x).
  rewrite !rstrip_by_cons by reflexivity.
  apply orb_true_iff. left.
  unfold startswith. cbn. apply prefix_empty.
Qed.

(** A reference that begins with [shape=] or contains [;] passes the test of
    the code once stripped. *)
Lemma literal_after_strip (ref : string) :
  String.prefix "shape=" ref = true \/ contains ";" ref = true ->
  is_literal_reference (strip ref) = true.
Proof.
  unfold is_literal_reference, strip, strip_by. intros [P|C].
  - apply prefix_split in P. rewrite P. apply shape_prefix_literal.
  - now rewrite contains_semicolon_rstrip, orb_true_r
      by now apply contains_semicolon_lstrip.
Qed.

Lemma literal_nonempty (ref : string) :
  String.prefix "shape=" ref = true \/ contains ";" ref = true -> ref <> "".
Proof. intros [P|C] ->; discriminate. Qed.

Lemma forallb_map_lower (f : string -> bool) (l : list string) :
  forallb f (map lower l) = forallb (fun tok => f (lower tok)) l.
Proof. induction l as [|x l IH]; simpl; [reflexivity | now rewrite IH]. Qed.

Lemma existsb_map_lower (f : string -> bool) (l : list string) :
  existsb f (map lower l) = existsb (fun tok => f (lower tok)) l.
Proof. induction l as [|x l IH]; simpl; [reflexivity | now rewrite IH]. Qed.

Lemma find_first {A} (f : A -> bool) (l : list A) (x : A) :
  find f l = Some x <->
  exists pre post, l = (pre ++ x :: post)%list /\ f x = true
                   /\ forall y, In y pre -> f y = false.
Proof.
  split.
  - induction l as [|a l IH]; [discriminate|]. simpl.
    destruct (f a) eqn:E.
    + intros [= <-]. exists [], l. repeat split; [exact E | intros y []].
    + intros F. destruct (IH F) as (pre & post & -> & Fx & N).
      exists (a :: pre), post. repeat split; [exact Fx|].
      intros y [<-|I]; [exact E | now apply N].
  - intros (pre & post & -> & Fx & N).
    induction pre as [|a pre IH]; simpl.
    + now rewrite Fx.
    + rewrite (N a (or_introl eq_refl)). apply IH. intros y I. apply N. now right.
Qed.

Lemma find_none_iff {A} (f : A -> bool) (l : list A) :
  find f l = None <-> forall y, In y l -> f y = false.
Proof.
  split.
  - intros F y I. now apply (find_none f l F).
  - intros N. induction l as [|a l IH]; [reflexivity|]. simpl.
    rewrite (N a (or_introl eq_refl)). apply IH. intros y I. apply N. now right.
Qed.

Lemma first_matching_key_unique (styles : PyDict.dict string string)
    (include exclude : list string) (k k' : string) :
  first_matching_key styles include exclude k ->
  first_matching_key styles include exclude k' -> k = k'.
Proof.
  intros (pre & v & post & E & K & N) (pre' & v' & post' & E' & K' & N').
  rewrite E in E'. clear E. revert pre' E' N'.
  induction pre as [|a pre IH]; intros [|a' pre'] E' N'.
  - now injection E' as -> _.
  - injection E' as <- _. cbn [PyDict.keys map fst] in N'.
    rewrite (N' k (or_introl eq_refl)) in K. discriminate.
  - injection E' as -> _. cbn [PyDict.keys map fst] in N.
    rewrite (N k' (or_introl eq_refl)) in K'. discriminate.
  - injection E' as <- E'. apply (IH (fun y I => N y (or_intror I)) pre' E').
    intros y I. apply N'. now right.
Qed.

(** [_find_style] in terms of the first matching key. *)
Lemma find_style_first (styles : PyDict.dict string string)
    (include exclude : list string) :
  match _find_style styles include exclude with
  | Some s =>
      exists k, first_matching_key styles include exclude k
                /\ k <> "" /\ PyDict.get k styles = Some s
  | None =>
      forall k, first_matching_key styles include exclude k ->
                k = "" \/ PyDict.get k styles = None
  end.
Proof.
  unfold _find_style. destruct styles as [|kv0 rest].
  { intros k (pre & v & post & E & _). now destruct pre. }
  set (styles := kv0 :: rest).
  set (matches := fun kv : string * string => _).
  assert (forall kv, matches kv = key_matches include exclude (fst kv)) as M.
  { intros kv. unfold matches, key_matches.
    now rewrite forallb_map_lower, existsb_map_lower. }
  pose proof (first_matching_key_unique styles include exclude) as U.
  destruct (find matches styles) as [[k v]|] eqn:F.
  - apply find_first in F as (pre & post & E & Fx & N).
    assert (first_matching_key styles include exclude k) as FK.
    { exists pre, v, post. split; [exact E|]. rewrite M in Fx. split; [exact Fx|].
      intros k' I. apply in_map_iff in I as ([k'' v''] & <- & I).
      specialize (N _ I). now rewrite M in N. }
    destruct k as [|c k].
    + intros k' FK'. left. now apply (U k' "").
    + destruct (PyDict.get (String c k) styles) as [s|] eqn:G.
      * exists (String c k). repeat split; [exact FK | discriminate | exact G].
      * intros k' FK'. right. now rewrite (U k' _ FK' FK).
  - intros k (pre & v & post & E & K & _).
    rewrite find_none_iff in F. specialize (F (k, v)).
    rewrite M in F. cbn [fst] in F. rewrite F in K; [discriminate|].
    rewrite E. apply in_elt.
Qed.

Lemma truthy_find_style (styles : PyDict.dict string string)
    (include exclude : list string) :
  match truthy (_find_style styles include exclude) with
  | Some s => preferred styles include exclude s
  | None => forall s, ~ preferred styles include exclude s
  end.
Proof.
  pose proof (find_style_first styles include exclude) as F.
  destruct (_find_style styles include exclude) as [s|].
  - destruct F as (k & FK & N & G).
    destruct s as [|c s]; cbn [truthy].
    + intros s (k' & FK' & N' & G' & S').
      assert (k' = k) as -> by apply (first_matching_key_unique _ _ _ _ _ FK' FK).
      congruence.
    + exists k. repeat split; [exact FK | exact N | exact G | discriminate].
  - cbn [truthy]. intros s (k & FK & N & G & _).
    destruct (F k FK); congruence.
Qed.

Lemma first_preferred_takes (styles : PyDict.dict string string)
    (before : list (list string)) (inc : list string) (after : list (list string))
    (exclude : list string) (s : string) :
  (forall inc' s', In inc' before -> ~ preferred styles inc' exclude s') ->
  preferred styles inc exclude s ->
  first_preferred styles (before ++ inc :: after) exclude = Some s.
Proof.
  intros N P. induction before as [|a before IH]; cbn [app first_preferred].
  - pose proof (truthy_find_style styles inc exclude) as T.
    destruct (truthy (_find_style styles inc exclude)) as [s'|].
    + destruct P as (k & FK & _ & G & _), T as (k' & FK' & _ & G' & _).
      rewrite (first_matching_key_unique _ _ _ _ _ FK' FK) in G'. congruence.
    + now destruct (T s).
  - pose proof (truthy_find_style styles a exclude) as T.
    destruct (truthy (_find_style styles a exclude)) as [s'|].
    + now destruct (N a s' (or_introl eq_refl)).
    + apply IH. intros inc' s' I. apply N. now right.
Qed.

Lemma first_preferred_none (styles : PyDict.dict string string)
    (prefs : list (list string)) (exclude : list string) :
  (forall inc s, In inc prefs -> ~ preferred styles inc exclude s) ->
  first_preferred styles prefs exclude = None.
Proof.
  intros N. induction prefs as [|a prefs IH]; cbn [first_preferred]; [reflexivity|].
  pose proof (truthy_find_style styles a exclude) as T.
  destruct (truthy (_find_style styles a exclude)) as [s'|].
  - now destruct (N a s' (or_introl eq_refl)).
  - apply IH. intros inc s I. apply N. now right.
Qed.
(** C7 (amended). A reference that begins with [shape=] or contains [;] is
    a literal style and is returned with the white space around it removed;
    so is any reference that passes the test of the code after stripping (the
    prefix is compared without regard to case).  Any other non-empty
    reference is looked up by its stripped text as an exact key.  No
    reference, an empty one or an absent key gives no style.  The caller
    returns the style the reference gives; when it gives none, the style of
    the first preference, in their order, that has a match: the first key of
    the library, in its order, that holds every token of the preference and
    not [edge], letter case apart (an empty key or an empty style counts as
    no match); and the structural default of the shape only when no
    preference has a match.  The instances of the specification hold. *)
Theorem style_reference_resolution :
  (forall ref styles,
     String.prefix "shape=" ref = true \/ contains ";" ref = true ->
     style_from_key_or_literal (Some ref) styles = Some (strip ref))
  /\ (forall ref styles,
        ref <> "" -> is_literal_reference (strip ref) = true ->
        style_from_key_or_literal (Some ref) styles = Some (strip ref))
  /\ (forall ref styles,
        ref <> "" -> is_literal_reference (strip ref) = false ->
        style_from_key_or_literal (Some ref) styles = PyDict.get (strip ref) styles)
  /\ (forall styles,
        style_from_key_or_literal None styles = None
        /\ style_from_key_or_literal (Some "") styles = None)
  /\ (forall shape html styles prefs override s,
        truthy (style_from_key_or_literal override styles) = Some s ->
        style_for_vertex shape html styles prefs override
        = if html then ensure_html s else s)
  /\ (forall shape html styles before inc after override s,
        truthy (style_from_key_or_literal override styles) = None ->
        (forall inc' s', In inc' before -> ~ preferred styles inc' ["edge"] s') ->
        preferred styles inc ["edge"] s ->
        style_for_vertex shape html styles (before ++ inc :: after) override
        = if html then ensure_html s else s)
  /\ (forall shape html styles prefs override,
        truthy (style_from_key_or_literal override styles) = None ->
        (forall inc s, In inc prefs -> ~ preferred styles inc ["edge"] s) ->
        style_for_vertex shape html styles prefs override
        = default_vertex_style shape html)
  /\ (let library := [("x.y", "shape=ellipse;")] in
      style_for_vertex rect false library [["shape.rect"]] (Some "shape=rect;")
      = "shape=rect;"
      /\ style_for_vertex rect false library [["shape.rect"]] (Some "x.y")
         = "shape=ellipse;"
      /\ style_for_vertex rect false library [["shape.rect"]] None
         = default_vertex_style rect false).
Proof.
  assert (forall ref styles,
            ref <> "" -> is_literal_reference (strip ref) = true ->
            style_from_key_or_literal (Some ref) styles = Some (strip ref)) as lit.
  { intros [|c ref] styles N L; [congruence|].
    unfold style_from_key_or_literal. cbn [truthy].
    unfold is_literal_reference in L. now rewrite L. }
  split; [|split; [|split; [|split; [|split; [|split; [|split]]]]]].
  - intros ref styles H. apply lit; [now apply literal_nonempty | now apply literal_after_strip].
  - exact lit.
  - intros [|c ref] styles N L; [congruence|].
    unfold style_from_key_or_literal. cbn [truthy].
    unfold is_literal_reference in L. now rewrite L.
  - intros styles. now split.
  - intros shape html styles prefs override s T.
    unfold style_for_vertex. now rewrite T.
  - intros shape html styles before inc after override s T N P.
    unfold style_for_vertex.
    now rewrite T, (first_preferred_takes _ _ _ _ _ _ N P).
  - intros shape html styles prefs override T N.
    unfold style_for_vertex. now rewrite T, (first_preferred_none _ _ _ N).
  - repeat split.
Qed.

(** The instances of the specification and a preferred match: the first
    key that holds every token of the second preference is an edge key and
    is passed over; of the two keys that remain the first in the library is
    taken. *)
Lemma style_reference_resolution_witness :
  let library := [("edge.shape.rect", "endArrow=block;");
                  ("shape.rect.a", "fillColor=red;");
                  ("Shape.Rect.b", "fillColor=blue;")] in
  style_from_key_or_literal (Some "shape=rect;") library = Some "shape=rect;"
  /\ style_from_key_or_literal (Some "shape.rect.a") library = Some "fillColor=red;"
  /\ style_for_vertex round false library ([["circle"]] ++ ["SHAPE"; "rect"] :: [])
       (Some "missing")
     = "fillColor=red;"
  /\ style_for_vertex round true library [["circle"]; ["shape.round"]] (Some "missing")
     = "rounded=1;whiteSpace=wrap;html=1;".
Proof.
  intros library.
  destruct style_reference_resolution as (L & _ & K & _ & _ & P & D & _).
  refine (conj _ (conj _ (conj _ _))).
  - apply (L "shape=rect;"). left. reflexivity.
  - apply (K "shape.rect.a"); [discriminate | reflexivity].
  - apply (P round false library [["circle"]] ["SHAPE"; "rect"] [] (Some "missing")).
    + reflexivity.
    + intros inc' s' [<-|[]].
      exact (truthy_find_style library ["circle"] ["edge"] s').
    + exact (truthy_find_style library ["SHAPE"; "rect"] ["edge"]).
  - apply D; [reflexivity|].
    intros inc s [<-|[<-|[]]].
    + exact (truthy_find_style library ["circle"] ["edge"] s).
    + exact (truthy_find_style library ["shape.round"] ["edge"] s).
Defined.

(** C7, as stated, fails on three counts: a literal reference is returned
    stripped, not verbatim; a reference that begins with [SHAPE=] is a
    literal although it neither begins with [shape=] nor contains [;]; and
    an absent key makes the caller try the preferred keys of the library
    before the structural default. *)
Lemma style_reference_not_as_stated :
  (contains ";" "a;b " = true
   /\ style_from_key_or_literal (Some "a;b ") [] <> Some "a;b ")
  /\ (String.prefix "shape=" "SHAPE=x" = false /\ contains ";" "SHAPE=x" = false
      /\ style_from_key_or_literal (Some "SHAPE=x") [("SHAPE=x", "rounded=1")]
         <> PyDict.get "SHAPE=x" [("SHAPE=x", "rounded=1")])
  /\ (style_from_key_or_literal (Some "missing") [("shape.rect", "fillColor=red;")]
      = None
      /\ style_for_vertex rect false [("shape.rect", "fillColor=red;")]
           [["shape.rect"]] (Some "missing")
         <> default_vertex_style rect false).
Proof. repeat split; discriminate. Qed.

End StyleReference.

(** ** The serializer *)

Section Serializer.
Import Harvest Drawio.

Lemma edge_id_inj (a b : N) : edge_id a = edge_id b -> a = b.
Proof.
  unfold edge_id. intros E. apply (append_inj_r "e") in E.
  now apply str_of_N_inj.
Qed.

Lemma vertex_cell_id m styles override positions (n : node) :
  cell_id (vertex_cell m styles override positions n) = n_id n.
Proof. unfold vertex_cell. now destruct (position_of positions (n_id n)). Qed.

Lemma vertex_cells_ids m styles override positions (spec : graph_spec) :
  map cell_id (vertex_cells m styles override positions spec)
  = map n_id (g_nodes spec).
Proof.
  unfold vertex_cells. rewrite map_map.
  apply map_ext. intros n. apply vertex_cell_id.
Qed.

Lemma edge_cells_from_ids (eid : N) m styles override (edges : list edge) :
  map cell_id (edge_cells_from eid m styles override edges)
  = map (fun i => edge_id (eid + N.of_nat i)) (seq 0 (List.length edges)).
Proof.
  revert eid. induction edges as [|e rest IH]; intros eid; [reflexivity|].
  cbn [edge_cells_from map List.length seq cell_id].
  rewrite N.add_0_r. f_equal.
  rewrite IH, <- seq_shift, map_map.
  apply map_ext. intros i. f_equal. lia.
Qed.

Lemma edge_cells_from_bodies (eid : N) m styles override (edges : list edge) :
  map cell_body_of (edge_cells_from eid m styles override edges)
  = map (fun e => Edge (e_from e) (e_to e)) edges.
Proof.
  revert eid. induction edges as [|e rest IH]; intros eid; [reflexivity|].
  cbn [edge_cells_from map cell_body_of]. now rewrite IH.
Qed.

Lemma edge_ids_NoDup (eid : N) (n : nat) :
  NoDup (map (fun i => edge_id (eid + N.of_nat i)) (seq 0 n)).
Proof.
  apply Finite.Injective_map_NoDup; [|apply seq_NoDup].
  intros a b E. apply edge_id_inj in E. lia.
Qed.

(** A text without ampersand is the escaped form of itself only. *)
Lemma xml_attr_without_ampersand (s : string) :
  all_chars no_ampersand (xml_attr (Some s)) = true -> xml_attr (Some s) = s.
Proof.
  rewrite xml_attr_chars. induction s as [|c s IH]; [reflexivity|].
  cbn [subst_chars].
  destruct c as [[] [] [] [] [] [] [] []]; cbn; try discriminate;
    intros A; now rewrite (IH A).
Qed.

Lemma digits_without_ampersand (d : Decimal.uint) :
  all_chars no_ampersand (NilEmpty.string_of_uint d) = true.
Proof. induction d; simpl; auto. Qed.

Lemma edge_id_without_ampersand (k : N) : all_chars no_ampersand (edge_id k) = true.
Proof. unfold edge_id, str_of_N. simpl. apply digits_without_ampersand. Qed.

Lemma xml_attr_is_edge_id (s : string) (k : N) :
  xml_attr (Some s) = edge_id k -> s = edge_id k.
Proof.
  intros E. rewrite <- E. symmetry. apply xml_attr_without_ampersand.
  rewrite E. apply edge_id_without_ampersand.
Qed.

(** *** The elements of the document

    The text [make_drawio_xml] returns is read back with the regular
    expression of the harvester: every attribute value has gone through
    [xml_attr] or is a number, so no value opens or closes an element. *)

Lemma lower_char_lt (c : ascii) : Ascii.eqb "<" (lower_char c) = is_lt c.
Proof. each_char c; reflexivity. Qed.

Lemma scan_plain (name v rest : string) (k : nat) :
  free_of is_lt v = true ->
  tag_groups_from name k (v ++ rest) = tag_groups_from name (k - String.length v) rest.
Proof.
  revert k. induction v as [|c v IH]; intros k F.
  - now rewrite Nat.sub_0_r.
  - cbn [free_of all_chars] in F. apply andb_prop in F as [Fc Fv].
    cbn [append tag_groups_from String.length]. destruct k as [|k].
    + cbn [lower]. rewrite prefix_cons, lower_char_lt.
      apply negb_true_iff in Fc. rewrite Fc. cbn [andb].
      now rewrite (IH 0 Fv).
    + now rewrite (IH k Fv).
Qed.

Lemma scan_skip (name s rest : string) :
  tag_groups_from name (String.length s) (s ++ rest) = tag_groups_from name 0 rest.
Proof. induction s as [|c s IH]; [reflexivity | exact IH]. Qed.

Lemma until_gt_append (attrs rest : string) :
  free_of is_gt attrs = true -> until_gt (attrs ++ ">" ++ rest) = Some attrs.
Proof.
  induction attrs as [|c a IH]; intros F; [reflexivity|].
  cbn [free_of all_chars] in F. apply andb_prop in F as [Fc Fa].
  cbn [append until_gt]. apply negb_true_iff in Fc. unfold is_gt in Fc. rewrite Fc.
  change (until_gt (a ++ String ">" rest)) with (until_gt (a ++ ">" ++ rest)).
  now rewrite (IH Fa).
Qed.

Lemma drop_append_length (a b : string) : drop (String.length a) (a ++ b) = b.
Proof. induction a as [|c a IH]; [now destruct b | exact IH]. Qed.

Lemma length_lower (s : string) : String.length (lower s) = String.length s.
Proof. induction s as [|c s IH]; simpl; congruence. Qed.

Lemma reads_nil (name : string) : reads name "" [].
Proof. intros rest. reflexivity. Qed.

Lemma reads_append (name a b : string) (ga gb : list string) :
  reads name a ga -> reads name b gb -> reads name (a ++ b) (ga ++ gb).
Proof.
  intros A B rest. now rewrite append_assoc, A, B, app_assoc.
Qed.

Lemma reads_plain (name v : string) : free_of is_lt v = true -> reads name v [].
Proof. intros F rest. now rewrite (scan_plain name v rest 0 F). Qed.

(** An element [<t attrs>] whose name is [name], letter case apart. *)
Lemma reads_tag (name t attrs : string) :
  lower t = name -> free_of is_gt attrs = true ->
  reads name ("<" ++ t ++ attrs ++ ">") [attrs].
Proof.
  intros L F rest. rewrite !append_assoc.
  change ("<" ++ t ++ attrs ++ ">" ++ rest)
    with (String "<" (t ++ attrs ++ ">" ++ rest)).
  cbn [tag_groups_from lower].
  change (lower_char "<") with "<"%char.
  rewrite prefix_cons, lower_append, L, prefix_append.
  change (Ascii.eqb "<" "<" && true) with true. cbv iota.
  cbn [drop]. rewrite <- L, length_lower, drop_append_length.
  rewrite (until_gt_append attrs rest F).
  replace (String.length t + String.length attrs + 1)
    with (String.length (t ++ attrs ++ ">")).
  - rewrite <- (scan_skip (lower t) (t ++ attrs ++ ">") rest).
    now rewrite !append_assoc.
  - rewrite !length_append. cbn [String.length]. lia.
Qed.

Lemma mismatch_prefix (name t rest : string) :
  mismatch name t = true -> String.prefix name (lower (t ++ rest)) = false.
Proof.
  revert t. induction name as [|a name IH]; intros [|c t]; try discriminate.
  cbn [mismatch append lower]. rewrite prefix_cons. intros M.
  destruct (Ascii.eqb a (lower_char c)); [|reflexivity].
  cbn [negb orb andb] in *. now apply IH.
Qed.

(** An element with another name. *)
Lemma reads_other (name t : string) :
  mismatch name t = true -> free_of is_lt t = true -> reads name ("<" ++ t) [].
Proof.
  intros M F rest. rewrite append_assoc.
  change ("<" ++ t ++ rest) with (String "<" (t ++ rest)).
  cbn [tag_groups_from lower]. rewrite prefix_cons, (mismatch_prefix _ _ _ M), andb_false_r.
  now rewrite (scan_plain name t rest 0 F).
Qed.

Lemma reads_all (name text : string) (groups : list string) :
  reads name text groups -> tag_groups_from name 0 text = groups.
Proof.
  intros R. specialize (R ""). rewrite append_empty_r in R.
  rewrite R. cbn. apply app_nil_r.
Qed.

(** Lines joined by line feeds. *)
Lemma reads_join (name : string) (lines : list string) (groups : list (list string)) :
  Forall2 (reads name) lines groups ->
  reads name (join nl lines) (List.concat groups).
Proof.
  induction 1 as [|p gs lines groups R F IH]; [apply reads_nil|].
  cbn [List.concat]. destruct lines as [|q lines].
  - inversion F; subst. cbn [List.concat]. rewrite app_nil_r. exact R.
  - change (join nl (p :: q :: lines)) with (p ++ nl ++ join nl (q :: lines)).
    apply reads_append; [exact R|].
    rewrite <- (app_nil_l (List.concat groups)).
    apply reads_append; [now apply reads_plain | exact IH].
Qed.

Lemma markup_free_lt (s : string) : free_of is_markup s = true -> free_of is_lt s = true.
Proof. apply free_weaken. intros c. unfold is_lt, is_markup. now intros ->. Qed.

Lemma markup_free_gt (s : string) : free_of is_markup s = true -> free_of is_gt s = true.
Proof.
  apply free_weaken. intros c. unfold is_gt, is_markup. intros ->.
  now rewrite orb_true_r.
Qed.

Lemma markup_free_quote (s : string) :
  free_of is_markup s = true -> free_of is_quote s = true.
Proof.
  apply free_weaken. intros c. unfold is_quote, is_markup. intros ->.
  now rewrite orb_true_r.
Qed.

Lemma xml_attr_free (s : string) : free_of is_markup (xml_attr (Some s)) = true.
Proof. rewrite xml_attr_chars. apply all_chars_subst, xml_code_free. Qed.

Lemma uint_free (d : Decimal.uint) :
  free_of is_markup (NilEmpty.string_of_uint d) = true.
Proof. unfold free_of. induction d; simpl; auto. Qed.

Lemma str_of_N_free (k : N) : free_of is_markup (str_of_N k) = true.
Proof. apply uint_free. Qed.

Lemma str_of_Z_free (z : Z) : free_of is_markup (str_of_Z z) = true.
Proof.
  unfold str_of_Z. destruct (Z.to_int z) as [d|d]; cbn [NilEmpty.string_of_int].
  - apply uint_free.
  - unfold free_of. cbn [all_chars]. apply uint_free.
Qed.

Lemma edge_id_free (k : N) : free_of is_markup (edge_id k) = true.
Proof. unfold edge_id, free_of. cbn [append all_chars]. apply str_of_N_free. Qed.

Lemma free_of_append (p : ascii -> bool) (a b : string) :
  free_of p (a ++ b) = free_of p a && free_of p b.
Proof. apply all_chars_append. Qed.

(** An entry is made of literal pieces and of values that hold no markup. *)
Ltac free_pieces :=
  unfold vertex_entry, edge_entry, vertex_geometry, edge_geometry, attr;
  rewrite ?free_of_append;
  repeat match goal with
  | |- context [free_of is_lt (xml_attr (Some ?s))] =>
      rewrite (markup_free_lt _ (xml_attr_free s))
  | |- context [free_of is_gt (xml_attr (Some ?s))] =>
      rewrite (markup_free_gt _ (xml_attr_free s))
  | |- context [free_of is_lt (str_of_Z ?z)] =>
      rewrite (markup_free_lt _ (str_of_Z_free z))
  | |- context [free_of is_gt (str_of_Z ?z)] =>
      rewrite (markup_free_gt _ (str_of_Z_free z))
  | |- context [free_of is_lt (edge_id ?k)] =>
      rewrite (markup_free_lt _ (edge_id_free k))
  | |- context [free_of is_gt (edge_id ?k)] =>
      rewrite (markup_free_gt _ (edge_id_free k))
  end;
  reflexivity.

Lemma vertex_entry_free m styles override (n : node) :
  free_of is_lt (vertex_entry m styles override n) = true
  /\ free_of is_gt (vertex_entry m styles override n) = true.
Proof. split; free_pieces. Qed.

Lemma edge_entry_free m styles override (eid : N) (e : edge) :
  free_of is_lt (edge_entry m styles override eid e) = true
  /\ free_of is_gt (edge_entry m styles override eid e) = true.
Proof. split; free_pieces. Qed.

Lemma vertex_geometry_free (x y : Z) :
  free_of is_lt (vertex_geometry x y) = true
  /\ free_of is_gt (vertex_geometry x y) = true.
Proof. split; free_pieces. Qed.

(** The three lines of a cell, as element texts. *)
Lemma render_vertex_cell m styles override positions (n : node) :
  render_cell (vertex_cell m styles override positions n)
  = [ "        " ++ "<" ++ "mxCell" ++ vertex_entry m styles override n ++ ">";
      "          " ++ "<" ++ "mxGeometry"
        ++ vertex_geometry (fst (position_of positions (n_id n)))
             (snd (position_of positions (n_id n))) ++ ">";
      "        </mxCell>" ].
Proof.
  unfold vertex_cell. destruct (position_of positions (n_id n)) as [x y].
  unfold render_cell, vertex_entry, vertex_geometry, attr.
  cbn [cell_body_of cell_id cell_value cell_style fst snd].
  rewrite !append_assoc. reflexivity.
Qed.

Lemma render_edge_cell m styles override (eid : N) (e : edge) :
  render_cell {| cell_id := edge_id eid; cell_value := e_label e;
                 cell_style := edge_style m styles override;
                 cell_body_of := Edge (e_from e) (e_to e) |}
  = [ "        " ++ "<" ++ "mxCell" ++ edge_entry m styles override eid e ++ ">";
      "          " ++ "<" ++ "mxGeometry" ++ edge_geometry ++ ">";
      "        </mxCell>" ].
Proof.
  unfold render_cell, edge_entry, edge_geometry, attr.
  cbn [cell_body_of cell_id cell_value cell_style].
  rewrite !append_assoc. reflexivity.
Qed.

(** A line that holds one element of another name: the indentation, [<],
    the literal start of the element. *)
Ltac other_line indent tag :=
  match goal with
  | |- reads ?name (_ ++ ?r) _ =>
      change (reads name (indent ++ ("<" ++ (tag ++ r))) ([] ++ []))
  end;
  apply reads_append;
  [ apply reads_plain; reflexivity
  | apply reads_other; [reflexivity | free_pieces] ].

(** The same for a line without value. *)
Ltac literal_line indent t :=
  match goal with
  | |- reads ?name _ _ => change (reads name (indent ++ ("<" ++ t)) ([] ++ []))
  end;
  apply reads_append;
  [ apply reads_plain; reflexivity
  | apply reads_other; reflexivity ].

Lemma reads_roots_line :
  reads "mxcell"
    ("        <mxCell " ++ attr "id" "0" ++ "/><mxCell " ++ attr "id" "1" ++ " "
       ++ attr "parent" "0" ++ "/>")
    root_entries.
Proof.
  change (reads "mxcell"
            ("        " ++ (("<" ++ "mxCell" ++ (" " ++ attr "id" "0" ++ "/") ++ ">")
                            ++ ("<" ++ "mxCell"
                                  ++ (" " ++ attr "id" "1" ++ " " ++ attr "parent" "0" ++ "/")
                                  ++ ">")))
            ([] ++ [" " ++ attr "id" "0" ++ "/"]
                ++ [" " ++ attr "id" "1" ++ " " ++ attr "parent" "0" ++ "/"])).
  apply reads_append; [apply reads_plain; reflexivity|].
  apply reads_append; apply reads_tag; reflexivity.
Qed.

Lemma header_cells (page_id : string) (spec : graph_spec)
    (positions : PyDict.dict string (Z * Z)) :
  Forall2 (reads "mxcell") (header page_id spec positions)
    [[]; []; []; []; root_entries].
Proof.
  unfold header. destruct (page_size positions) as [page_w page_h].
  repeat apply Forall2_cons; try apply Forall2_nil.
  - other_line "" "mxfile ".
  - other_line "  " "diagram ".
  - other_line "    " "mxGraphModel ".
  - literal_line "      " "root>".
  - apply reads_roots_line.
Qed.

Lemma header_geometries (page_id : string) (spec : graph_spec)
    (positions : PyDict.dict string (Z * Z)) :
  Forall2 (reads "mxgeometry") (header page_id spec positions)
    [[]; []; []; []; []].
Proof.
  unfold header. destruct (page_size positions) as [page_w page_h].
  repeat apply Forall2_cons; try apply Forall2_nil.
  - other_line "" "mxfile ".
  - other_line "  " "diagram ".
  - other_line "    " "mxGraphModel ".
  - literal_line "      " "root>".
  - change (reads "mxgeometry"
              ("        " ++ (("<" ++ "mxCell id=" ++ dq ++ "0" ++ dq ++ "/>")
                              ++ ("<" ++ "mxCell id=" ++ dq ++ "1" ++ dq ++ " parent="
                                    ++ dq ++ "0" ++ dq ++ "/>")))
              ([] ++ [] ++ [])).
    apply reads_append; [apply reads_plain; reflexivity|].
    apply reads_append; apply reads_other; reflexivity.
Qed.

Lemma footer_cells : Forall2 (reads "mxcell") footer [[]; []; []; []].
Proof.
  unfold footer. repeat apply Forall2_cons; try apply Forall2_nil.
  - literal_line "      " "/root>".
  - literal_line "    " "/mxGraphModel>".
  - literal_line "  " "/diagram>".
  - literal_line "" "/mxfile>".
Qed.

Lemma footer_geometries : Forall2 (reads "mxgeometry") footer [[]; []; []; []].
Proof.
  unfold footer. repeat apply Forall2_cons; try apply Forall2_nil.
  - literal_line "      " "/root>".
  - literal_line "    " "/mxGraphModel>".
  - literal_line "  " "/diagram>".
  - literal_line "" "/mxfile>".
Qed.

(** The three lines of a cell hold one cell element and one geometry. *)
Lemma cell_lines_cells (entry geometry : string) :
  free_of is_lt entry = true -> free_of is_gt entry = true ->
  free_of is_lt geometry = true ->
  Forall2 (reads "mxcell")
    [ "        " ++ "<" ++ "mxCell" ++ entry ++ ">";
      "          " ++ "<" ++ "mxGeometry" ++ geometry ++ ">";
      "        </mxCell>" ]
    [[entry]; []; []].
Proof.
  intros L G L'. repeat apply Forall2_cons; try apply Forall2_nil.
  - change [entry] with ([] ++ [entry])%list.
    apply reads_append; [apply reads_plain; reflexivity|].
    apply reads_tag; [reflexivity | exact G].
  - change (@nil string) with (@nil string ++ [])%list.
    apply reads_append; [apply reads_plain; reflexivity|].
    apply reads_other; [reflexivity|].
    now rewrite !free_of_append, L'.
  - literal_line "        " "/mxCell>".
Qed.

Lemma cell_lines_geometries (entry geometry : string) :
  free_of is_lt entry = true ->
  free_of is_lt geometry = true -> free_of is_gt geometry = true ->
  Forall2 (reads "mxgeometry")
    [ "        " ++ "<" ++ "mxCell" ++ entry ++ ">";
      "          " ++ "<" ++ "mxGeometry" ++ geometry ++ ">";
      "        </mxCell>" ]
    [[]; [geometry]; []].
Proof.
  intros L L' G. repeat apply Forall2_cons; try apply Forall2_nil.
  - change (@nil string) with (@nil string ++ [])%list.
    apply reads_append; [apply reads_plain; reflexivity|].
    apply reads_other; [reflexivity|].
    now rewrite !free_of_append, L.
  - change [geometry] with ([] ++ [geometry])%list.
    apply reads_append; [apply reads_plain; reflexivity|].
    apply reads_tag; [reflexivity | exact G].
  - literal_line "        " "/mxCell>".
Qed.

Lemma concat_cell_groups {A} (f : A -> string) (l : list A) :
  List.concat (flat_map (fun x => [[f x]; []; []]) l) = map f l.
Proof. induction l as [|x l IH]; [reflexivity|]. cbn. now rewrite IH. Qed.

Lemma concat_geometry_groups {A} (f : A -> string) (l : list A) :
  List.concat (flat_map (fun x => [[]; [f x]; []]) l) = map f l.
Proof. induction l as [|x l IH]; [reflexivity|]. cbn. now rewrite IH. Qed.

Lemma vertex_lines_cells m styles override positions (nodes : list node) :
  Forall2 (reads "mxcell")
    (flat_map render_cell (map (vertex_cell m styles override positions) nodes))
    (flat_map (fun n => [[vertex_entry m styles override n]; []; []]) nodes).
Proof.
  induction nodes as [|n nodes IH]; [constructor|].
  cbn [map flat_map]. apply Forall2_app; [|exact IH].
  rewrite render_vertex_cell.
  destruct (vertex_entry_free m styles override n) as [L G].
  apply cell_lines_cells; [exact L | exact G | apply vertex_geometry_free].
Qed.

Lemma vertex_lines_geometries m styles override positions (nodes : list node) :
  Forall2 (reads "mxgeometry")
    (flat_map render_cell (map (vertex_cell m styles override positions) nodes))
    (flat_map (fun n => [[]; [node_geometry positions n]; []]) nodes).
Proof.
  induction nodes as [|n nodes IH]; [constructor|].
  cbn [map flat_map]. apply Forall2_app; [|exact IH].
  rewrite render_vertex_cell.
  destruct (vertex_entry_free m styles override n) as [L G].
  apply cell_lines_geometries; [exact L | apply vertex_geometry_free..].
Qed.

Lemma edge_lines_cells m styles override (edges : list edge) (eid : N) (k : nat) :
  Forall2 (reads "mxcell")
    (flat_map render_cell
       (edge_cells_from (eid + N.of_nat k) m styles override edges))
    (flat_map
       (fun ie => [[edge_entry m styles override (eid + N.of_nat (fst ie)) (snd ie)];
                   []; []])
       (PyList.enumerate k edges)).
Proof.
  revert k. induction edges as [|e edges IH]; intros k; [constructor|].
  cbn [edge_cells_from PyList.enumerate flat_map fst snd].
  apply Forall2_app.
  - rewrite render_edge_cell.
    destruct (edge_entry_free m styles override (eid + N.of_nat k) e) as [L G].
    apply cell_lines_cells; [exact L | exact G | reflexivity].
  - replace (eid + N.of_nat k + 1)%N with (eid + N.of_nat (S k))%N by lia.
    apply IH.
Qed.

Lemma edge_lines_geometries m styles override (edges : list edge) (eid : N) :
  Forall2 (reads "mxgeometry")
    (flat_map render_cell (edge_cells_from eid m styles override edges))
    (flat_map (fun _ : edge => [[]; [edge_geometry]; []]) edges).
Proof.
  revert eid. induction edges as [|e edges IH]; intros eid; [constructor|].
  cbn [edge_cells_from flat_map].
  apply Forall2_app; [|apply IH].
  rewrite render_edge_cell.
  destruct (edge_entry_free m styles override eid e) as [L G].
  apply cell_lines_geometries; [exact L | reflexivity | reflexivity].
Qed.

(** The cell elements of the document. *)
Lemma document_cells (page_id : string) (spec : graph_spec)
    (positions : PyDict.dict string (Z * Z))
    (styles : PyDict.dict string string) (m : mode) (override : overrides) :
  MXCELL_RE_groups (make_drawio_xml page_id spec positions styles m override)
  = (root_entries
     ++ map (vertex_entry m styles override) (g_nodes spec)
     ++ edge_entries m styles override (g_edges spec))%list.
Proof.
  unfold MXCELL_RE_groups, make_drawio_xml, drawio_parts.
  apply reads_all.
  replace (root_entries ++ map (vertex_entry m styles override) (g_nodes spec)
           ++ edge_entries m styles override (g_edges spec))%list
    with (List.concat
            ([[]; []; []; []; root_entries]
             ++ flat_map (fun n => [[vertex_entry m styles override n]; []; []])
                  (g_nodes spec)
             ++ flat_map
                  (fun ie => [[edge_entry m styles override
                                 (EID_BASE + N.of_nat (fst ie)) (snd ie)]; []; []])
                  (PyList.enumerate 0 (g_edges spec))
             ++ [[]; []; []; []])).
  - apply reads_join. apply Forall2_app; [apply header_cells|].
    apply Forall2_app; [apply vertex_lines_cells|].
    apply Forall2_app; [|apply footer_cells].
    unfold edge_cells.
    replace EID_BASE with (EID_BASE + N.of_nat 0)%N at 1 by reflexivity.
    apply edge_lines_cells.
  - rewrite !concat_app, concat_cell_groups.
    rewrite (concat_cell_groups
               (fun ie => edge_entry m styles override
                            (EID_BASE + N.of_nat (fst ie)) (snd ie))).
    cbn [List.concat app]. now rewrite !app_nil_r.
Qed.

(** The geometry elements of the document. *)
Lemma document_geometries (page_id : string) (spec : graph_spec)
    (positions : PyDict.dict string (Z * Z))
    (styles : PyDict.dict string string) (m : mode) (override : overrides) :
  geometry_groups (make_drawio_xml page_id spec positions styles m override)
  = (map (node_geometry positions) (g_nodes spec)
     ++ repeat edge_geometry (List.length (g_edges spec)))%list.
Proof.
  unfold geometry_groups, make_drawio_xml, drawio_parts.
  apply reads_all.
  replace (map (node_geometry positions) (g_nodes spec)
           ++ repeat edge_geometry (List.length (g_edges spec)))%list
    with (List.concat
            ([[]; []; []; []; []]
             ++ flat_map (fun n => [[]; [node_geometry positions n]; []]) (g_nodes spec)
             ++ flat_map (fun _ : edge => [[]; [edge_geometry]; []]) (g_edges spec)
             ++ [[]; []; []; []])).
  - apply reads_join. apply Forall2_app; [apply header_geometries|].
    apply Forall2_app; [apply vertex_lines_geometries|].
    apply Forall2_app; [apply edge_lines_geometries | apply footer_geometries].
  - rewrite !concat_app, !concat_geometry_groups.
    cbn [List.concat app]. rewrite !app_nil_r. f_equal.
    induction (g_edges spec) as [|e l IH]; [reflexivity|].
    cbn [map List.length repeat]. now rewrite IH.
Qed.

Lemma until_quote_append (v rest : string) :
  free_of is_quote v = true -> until_quote (v ++ dq ++ rest) = v.
Proof.
  induction v as [|c v IH]; intros F; [reflexivity|].
  cbn [free_of all_chars] in F. apply andb_prop in F as [Fc Fv].
  cbn [append until_quote]. apply negb_true_iff in Fc. unfold is_quote in Fc.
  rewrite Fc. f_equal. now apply IH.
Qed.

Lemma entry_id_starts (v rest : string) :
  free_of is_quote v = true ->
  entry_id (" " ++ "id" ++ "=" ++ dq ++ v ++ dq ++ rest) = Some v.
Proof.
  intros F. unfold entry_id.
  change (" " ++ "id" ++ "=" ++ dq ++ v ++ dq ++ rest)
    with ((" id=" ++ dq) ++ v ++ dq ++ rest) at 1.
  rewrite prefix_append.
  change (drop 5 (" " ++ "id" ++ "=" ++ dq ++ v ++ dq ++ rest))
    with (v ++ dq ++ rest).
  now rewrite until_quote_append.
Qed.

Lemma entry_id_vertex m styles override (n : node) :
  entry_id (vertex_entry m styles override n) = Some (xml_attr (Some (n_id n))).
Proof.
  unfold vertex_entry, attr. rewrite !append_assoc.
  apply entry_id_starts, markup_free_quote, xml_attr_free.
Qed.

Lemma entry_id_edge m styles override (eid : N) (e : edge) :
  entry_id (edge_entry m styles override eid e) = Some (edge_id eid).
Proof.
  unfold edge_entry, attr. rewrite !append_assoc.
  apply entry_id_starts, markup_free_quote, edge_id_free.
Qed.

Lemma enumerate_from {A} (l : list A) (k : nat) :
  PyList.enumerate k l = combine (seq k (List.length l)) l.
Proof.
  revert k. induction l as [|x l IH]; intros k; [reflexivity|].
  cbn. now rewrite IH.
Qed.

Lemma edge_entries_ids m styles override (edges : list edge) :
  map entry_id (edge_entries m styles override edges)
  = map (fun i => Some (edge_id (EID_BASE + N.of_nat i))) (seq 0 (List.length edges)).
Proof.
  unfold edge_entries. rewrite map_map.
  generalize 0. induction edges as [|e edges IH]; intros k; [reflexivity|].
  cbn [PyList.enumerate map List.length seq fst snd].
  now rewrite entry_id_edge, IH.
Qed.

Lemma edge_entries_length m styles override (edges : list edge) :
  List.length (edge_entries m styles override edges) = List.length edges.
Proof.
  unfold edge_entries. rewrite length_map.
  generalize 0. induction edges as [|e edges IH]; intros k; [reflexivity|].
  cbn. now rewrite IH.
Qed.

(** C8 (amended). The cell elements of the document, as the regular
    expression [MXCELL_RE] of the harvester reads them, are the two root
    cells, then one for each node of the specification, in order, under the
    identifier of the node as [xml_attr] writes it, then one for each edge,
    in order: besides the root cells the document holds exactly one cell
    entry for each node and one for each edge.  The edge entries carry the
    identifiers [e100000], [e100001], ..., pairwise distinct.  They differ
    from every node identifier, as given and as written, when no node is
    named like an edge identifier ([e] and a number). *)
Theorem drawio_cells_per_node_and_edge
    (page_id : string) (spec : graph_spec) (positions : PyDict.dict string (Z * Z))
    (styles : PyDict.dict string string) (m : mode) (override : overrides) :
  let doc := make_drawio_xml page_id spec positions styles m override in
  let edge_ids :=
    map (fun i => edge_id (EID_BASE + N.of_nat i))
      (seq 0 (List.length (g_edges spec))) in
  MXCELL_RE_groups doc
  = (root_entries
     ++ map (vertex_entry m styles override) (g_nodes spec)
     ++ edge_entries m styles override (g_edges spec))%list
  /\ List.length (MXCELL_RE_groups doc)
     = 2 + List.length (g_nodes spec) + List.length (g_edges spec)
  /\ map entry_id (MXCELL_RE_groups doc)
     = (Some "0" :: Some "1"
        :: map (fun n => Some (xml_attr (Some (n_id n)))) (g_nodes spec)
        ++ map Some edge_ids)%list
  /\ NoDup edge_ids
  /\ ((forall n k, In n (g_nodes spec) -> n_id n <> edge_id k) ->
      forall n id, In n (g_nodes spec) -> In id edge_ids ->
        n_id n <> id /\ xml_attr (Some (n_id n)) <> id).
Proof.
  intros doc edge_ids.
  pose proof (document_cells page_id spec positions styles m override) as C.
  fold doc in C.
  split; [exact C|]. split; [|split; [|split]].
  - rewrite C, !length_app, length_map, edge_entries_length. reflexivity.
  - rewrite C, !map_app, !map_map, edge_entries_ids.
    unfold edge_ids. rewrite map_map. cbn [root_entries map app]. f_equal. f_equal.
    f_equal. apply map_ext. intros n. apply entry_id_vertex.
  - apply edge_ids_NoDup.
  - intros fresh n id In_n In_id. unfold edge_ids in In_id.
    apply in_map_iff in In_id as (i & <- & _).
    pose proof (fresh n (EID_BASE + N.of_nat i)%N In_n) as F.
    split; [exact F|]. intros E. apply xml_attr_is_edge_id in E. congruence.
Qed.

(** Two nodes and one edge between them. *)
Lemma drawio_cells_per_node_and_edge_witness :
  let spec := mk_spec "" TD [mk_node "n1" "A<B" rect false; mk_node "n2" "B" round false]
                [mk_edge "n1" "n2" "go"] in
  let doc := make_drawio_xml "id" spec [] [] mode_generic no_overrides in
  List.length (MXCELL_RE_groups doc) = 5
  /\ map entry_id (MXCELL_RE_groups doc)
     = [Some "0"; Some "1"; Some "n1"; Some "n2"; Some "e100000"]
  /\ forall n id, In n (g_nodes spec) -> In id ["e100000"] ->
       n_id n <> id /\ xml_attr (Some (n_id n)) <> id.
Proof.
  intros spec doc.
  destruct (drawio_cells_per_node_and_edge "id" spec [] [] mode_generic no_overrides)
    as (_ & L & I & _ & D).
  refine (conj L (conj I _)).
  apply D. intros n k [<-|[<-|[]]]; discriminate.
Defined.

(** C8, as stated, fails: a node of a generic specification may be named
    [e100000], the identifier of the first edge; the document then holds
    two cell entries with that identifier. *)
Lemma edge_id_collides_with_node :
  let spec := mk_spec "" TD [mk_node "e100000" "A" rect false]
                [mk_edge "e100000" "e100000" ""] in
  (exists v e,
     In v (vertex_cells mode_generic [] no_overrides [] spec)
     /\ In e (edge_cells mode_generic [] no_overrides spec)
     /\ cell_id v = cell_id e)
  /\ map entry_id
       (MXCELL_RE_groups (make_drawio_xml "id" spec [] [] mode_generic no_overrides))
     = [Some "0"; Some "1"; Some "e100000"; Some "e100000"].
Proof.
  split; [|reflexivity].
  eexists _, _. split; [left; reflexivity|]. split; [left; reflexivity|]. reflexivity.
Qed.

(** The lines of a cell stand together in the document. *)
Lemma join_holds_lines (pre post : list string) (a b c : string) :
  exists x y,
    join nl (pre ++ [a; b; c] ++ post) = x ++ (a ++ nl ++ b ++ nl ++ c) ++ y.
Proof.
  induction pre as [|p pre (x & y & IH)].
  - exists "". destruct post as [|q post].
    + exists "". cbn [app join String.concat append].
      now rewrite !append_assoc, append_empty_r.
    + exists (nl ++ join nl (q :: post)).
      change (join nl ([] ++ [a; b; c] ++ q :: post))
        with (a ++ nl ++ b ++ nl ++ c ++ nl ++ join nl (q :: post)).
      cbn [append]. now rewrite !append_assoc.
  - exists (p ++ nl ++ x), y.
    assert (exists q rest, (pre ++ [a; b; c] ++ post)%list = q :: rest) as (q & rest & E)
      by (destruct pre; cbn; eauto).
    change ((p :: pre) ++ [a; b; c] ++ post)%list
      with (p :: (pre ++ [a; b; c] ++ post))%list.
    rewrite E in *.
    change (join nl (p :: q :: rest)) with (p ++ nl ++ join nl (q :: rest)).
    now rewrite IH, !append_assoc.
Qed.

Lemma document_holds_vertex (page_id : string) (spec : graph_spec)
    (positions : PyDict.dict string (Z * Z))
    (styles : PyDict.dict string string) (m : mode) (override : overrides)
    (n : node) :
  In n (g_nodes spec) ->
  contains
    ("        <mxCell" ++ vertex_entry m styles override n ++ ">" ++ nl
       ++ "          <mxGeometry" ++ node_geometry positions n ++ ">" ++ nl
       ++ "        </mxCell>")
    (make_drawio_xml page_id spec positions styles m override) = true.
Proof.
  intros I. apply in_split in I as (l1 & l2 & E).
  unfold make_drawio_xml, drawio_parts, vertex_cells. rewrite E.
  rewrite map_app, flat_map_app. cbn [map flat_map].
  rewrite render_vertex_cell. fold (node_geometry positions n).
  destruct (join_holds_lines
              (header page_id spec positions
               ++ flat_map render_cell (map (vertex_cell m styles override positions) l1))
              (flat_map render_cell (map (vertex_cell m styles override positions) l2)
               ++ flat_map render_cell (edge_cells m styles override spec) ++ footer)
              ("        " ++ "<" ++ "mxCell" ++ vertex_entry m styles override n ++ ">")
              ("          " ++ "<" ++ "mxGeometry" ++ node_geometry positions n ++ ">")
              "        </mxCell>") as (x & y & J).
  rewrite <- !app_assoc in J. rewrite <- !app_assoc. rewrite J.
  replace ("        <mxCell" ++ vertex_entry m styles override n ++ ">" ++ nl
           ++ "          <mxGeometry" ++ node_geometry positions n ++ ">" ++ nl
           ++ "        </mxCell>")
    with (("        " ++ "<" ++ "mxCell" ++ vertex_entry m styles override n ++ ">")
          ++ nl ++ ("          " ++ "<" ++ "mxGeometry" ++ node_geometry positions n ++ ">")
          ++ nl ++ "        </mxCell>")
    by (rewrite !append_assoc; reflexivity).
  apply contains_append.
Qed.

Lemma node_geometry_origin (positions : PyDict.dict string (Z * Z)) (n : node) :
  PyDict.get (n_id n) positions = None -> node_geometry positions n = origin_geometry.
Proof. intros G. unfold node_geometry, position_of. now rewrite G. Qed.
(** C10. A node without entry in the position map given to the serializer
    still has its cell in the document, one of the entries the document
    holds for the nodes and the edges: the entry at the place of the node,
    under its identifier; the geometry at that place is the one at the
    coordinates (0, 0) with the standard width and height, and the three
    lines of the cell, with that geometry inside, stand in the document. *)
Theorem vertex_without_position_at_origin
    (page_id : string) (spec : graph_spec) (positions : PyDict.dict string (Z * Z))
    (styles : PyDict.dict string string) (m : mode) (override : overrides)
    (i : nat) (n : node) :
  nth_error (g_nodes spec) i = Some n ->
  PyDict.get (n_id n) positions = None ->
  let doc := make_drawio_xml page_id spec positions styles m override in
  List.length (MXCELL_RE_groups doc)
  = 2 + List.length (g_nodes spec) + List.length (g_edges spec)
  /\ nth_error (MXCELL_RE_groups doc) (2 + i) = Some (vertex_entry m styles override n)
  /\ entry_id (vertex_entry m styles override n) = Some (xml_attr (Some (n_id n)))
  /\ nth_error (geometry_groups doc) i = Some origin_geometry
  /\ contains
       ("        <mxCell" ++ vertex_entry m styles override n ++ ">" ++ nl
          ++ "          <mxGeometry" ++ origin_geometry ++ ">" ++ nl
          ++ "        </mxCell>")
       doc = true.
Proof.
  intros Hn Hp doc. unfold doc.
  rewrite document_cells, document_geometries.
  split; [|split; [|split; [|split]]].
  - rewrite !length_app, length_map, edge_entries_length. reflexivity.
  - cbn [root_entries app nth_error Nat.add].
    rewrite nth_error_app1 by (rewrite length_map; apply nth_error_Some; congruence).
    now rewrite nth_error_map, Hn.
  - apply entry_id_vertex.
  - rewrite nth_error_app1 by (rewrite length_map; apply nth_error_Some; congruence).
    rewrite nth_error_map, Hn. cbn [option_map].
    now rewrite node_geometry_origin.
  - rewrite <- (node_geometry_origin positions n Hp).
    apply document_holds_vertex. now apply nth_error_In in Hn.
Qed.

(** A node the layout left out: the only node, with an empty position map. *)
Lemma vertex_without_position_at_origin_witness :
  let spec := mk_spec "" TD [mk_node "n1" "A" rect false] [] in
  let doc := make_drawio_xml "id" spec [] [] mode_generic no_overrides in
  List.length (MXCELL_RE_groups doc) = 3
  /\ nth_error (MXCELL_RE_groups doc) 2
     = Some (vertex_entry mode_generic [] no_overrides (mk_node "n1" "A" rect false))
  /\ entry_id (vertex_entry mode_generic [] no_overrides (mk_node "n1" "A" rect false))
     = Some "n1"
  /\ nth_error (geometry_groups doc) 0 = Some origin_geometry
  /\ contains
       ("        <mxCell"
          ++ vertex_entry mode_generic [] no_overrides (mk_node "n1" "A" rect false)
          ++ ">" ++ nl ++ "          <mxGeometry" ++ origin_geometry ++ ">" ++ nl
          ++ "        </mxCell>")
       doc = true.
Proof.
  intros spec.
  apply (vertex_without_position_at_origin "id" spec [] [] mode_generic no_overrides 0
           (mk_node "n1" "A" rect false)); reflexivity.
Defined.

End Serializer.

(** ** Graph construction *)

Section BuildGraph.
Import Drawio.

Lemma keys_setdefault {V} (k : string) (v : V) (d : PyDict.dict string V) :
  PyDict.keys (PyDict.setdefault k v d)
  = if PyDict.mem k d then PyDict.keys d else (PyDict.keys d ++ [k])%list.
Proof.
  unfold PyDict.setdefault. destruct (PyDict.mem k d) eqn:M; [reflexivity|].
  apply keys_set_absent. now apply mem_false_iff.
Qed.

Lemma get_setdefault {V} (k x : string) (v : V) (d : PyDict.dict string V) :
  PyDict.get x (PyDict.setdefault k v d) = PyDict.get x d
  \/ (x = k /\ PyDict.get x d = None
      /\ PyDict.get x (PyDict.setdefault k v d) = Some v).
Proof.
  unfold PyDict.setdefault, PyDict.mem.
  destruct (PyDict.get k d) eqn:G; [now left|].
  destruct (string_dec k x) as [<-|N].
  - right. now rewrite get_set_same.
  - left. now apply get_set_other.
Qed.

(** Dictionaries built by a loop of assignments. *)
Lemma of_pairs_get {V} (l : list (string * V)) (acc : PyDict.dict string V) (x : string) :
  let d := fold_left (fun d kv => PyDict.set (fst kv) (snd kv) d) l acc in
  (exists v, In (x, v) l /\ PyDict.get x d = Some v)
  \/ (~ In x (map fst l) /\ PyDict.get x d = PyDict.get x acc).
Proof.
  revert acc. induction l as [|[k v] l IH]; intros acc; simpl.
  - right. tauto.
  - destruct (IH (PyDict.set k v acc)) as [(w & I & G)|(N & G)].
    + left. exists w. split; [now right | exact G].
    + destruct (string_dec k x) as [<-|Nk].
      * left. exists v. split; [now left|]. now rewrite G, get_set_same.
      * right. split; [tauto|]. now rewrite G, get_set_other.
Qed.

Lemma of_pairs_keys {V} (l : list (string * V)) (x : string) :
  In x (PyDict.keys (PyDict.of_pairs l)) <-> In x (map fst l).
Proof.
  unfold PyDict.of_pairs.
  destruct (of_pairs_get l [] x) as [(v & I & G)|(N & G)]; simpl in G.
  - split; intros _.
    + now apply (in_map fst) in I.
    + apply mem_In. unfold PyDict.mem. now rewrite G.
  - apply get_None_iff in G. tauto.
Qed.

Lemma declared_nodes_keys (spec : graph_spec) (x : string) :
  In x (PyDict.keys (declared_nodes spec)) <-> In x (map n_id (g_nodes spec)).
Proof. unfold declared_nodes. now rewrite of_pairs_keys, map_map. Qed.

Lemma declared_nodes_get (spec : graph_spec) (x : string) (n : node) :
  PyDict.get x (declared_nodes spec) = Some n -> In n (g_nodes spec) /\ n_id n = x.
Proof.
  unfold declared_nodes, PyDict.of_pairs. intros G.
  destruct (of_pairs_get (map (fun n => (n_id n, n)) (g_nodes spec)) [] x)
    as [(v & I & G')|(_ & G')]; simpl in G'; [|congruence].
  apply in_map_iff in I as (n' & E & I). injection E as <- <-.
  split; congruence.
Qed.

Lemma build_graph_step_keys st (e : edge) :
  in_step st ->
  in_step (build_graph_step st e)
  /\ In (e_from e) (PyDict.keys (fst (build_graph_step st e)))
  /\ In (e_to e) (PyDict.keys (fst (build_graph_step st e)))
  /\ (forall x, In x (PyDict.keys (fst st)) ->
        In x (PyDict.keys (fst (build_graph_step st e)))).
Proof.
  destruct st as [nb ind]. unfold in_step. cbn [fst snd]. intros K.
  unfold build_graph_step.
  (* the target *)
  set (st1 := match PyDict.get (e_to e) ind with
              | Some d => (nb, PyDict.set (e_to e) (d + 1) ind)
              | None => (PyDict.setdefault (e_to e) (placeholder (e_to e)) nb,
                         PyDict.set (e_to e) 1 ind)
              end).
  assert (PyDict.keys (fst st1) = PyDict.keys (snd st1)
          /\ In (e_to e) (PyDict.keys (fst st1))
          /\ (forall x, In x (PyDict.keys nb) -> In x (PyDict.keys (fst st1))))
    as (K1 & T1 & M1).
  { unfold st1. destruct (PyDict.get (e_to e) ind) as [d|] eqn:G; cbn [fst snd].
    - assert (In (e_to e) (PyDict.keys ind)) as I
        by (apply get_In in G; now apply (in_map fst) in G).
      rewrite keys_set_present by exact I. rewrite K. auto.
    - apply get_None_iff in G.
      rewrite keys_setdefault, keys_set_absent by exact G.
      assert (PyDict.mem (e_to e) nb = false) as ->
        by (apply mem_false_iff; now rewrite K).
      rewrite K. repeat split.
      + apply in_or_app. right. now left.
      + intros x I. apply in_or_app. now left. }
  destruct st1 as [nb1 ind1]. cbn [fst snd] in *.
  (* the source *)
  destruct (PyDict.mem (e_from e) nb1) eqn:M; cbn [negb fst snd].
  - apply mem_In in M. auto.
  - rewrite !keys_setdefault, M.
    assert (PyDict.mem (e_from e) ind1 = false) as ->
      by (apply mem_false_iff; rewrite <- K1; now apply mem_false_iff).
    rewrite K1. repeat split.
    + apply in_or_app. right. now left.
    + apply in_or_app. left. now rewrite <- K1.
    + intros x I. apply in_or_app. left. rewrite <- K1. auto.
Qed.

(** A step changes the node of no identifier; it may add a placeholder for
    an identifier that had no node. *)
Lemma build_graph_step_get st (e : edge) (x : string) :
  PyDict.get x (fst (build_graph_step st e)) = PyDict.get x (fst st)
  \/ (PyDict.get x (fst st) = None
      /\ PyDict.get x (fst (build_graph_step st e)) = Some (placeholder x)).
Proof.
  destruct st as [nb ind]. cbn [fst]. unfold build_graph_step.
  set (st1 := match PyDict.get (e_to e) ind with
              | Some d => (nb, PyDict.set (e_to e) (d + 1) ind)
              | None => (PyDict.setdefault (e_to e) (placeholder (e_to e)) nb,
                         PyDict.set (e_to e) 1 ind)
              end).
  assert (PyDict.get x (fst st1) = PyDict.get x nb
          \/ (PyDict.get x nb = None
              /\ PyDict.get x (fst st1) = Some (placeholder x))) as H1.
  { unfold st1. destruct (PyDict.get (e_to e) ind); cbn [fst]; [now left|].
    destruct (get_setdefault (e_to e) x (placeholder (e_to e)) nb)
      as [E|(-> & N & E)]; auto. }
  destruct st1 as [nb1 ind1]. cbn [fst] in *.
  destruct (PyDict.mem (e_from e) nb1); cbn [negb fst]; [exact H1|].
  destruct (get_setdefault (e_from e) x (placeholder (e_from e)) nb1)
    as [E|(-> & N & E)].
  - rewrite E. exact H1.
  - right. split; [|exact E].
    destruct H1 as [<-|[_ H1]]; congruence.
Qed.

(** The loop over the edges, from any state. *)
Lemma build_graph_fold (edges : list edge) st :
  in_step st ->
  let final := fold_left build_graph_step edges st in
  in_step final
  /\ (forall e, In e edges ->
        In (e_from e) (PyDict.keys (fst final))
        /\ In (e_to e) (PyDict.keys (fst final)))
  /\ (forall x, In x (PyDict.keys (fst st)) -> In x (PyDict.keys (fst final)))
  /\ (forall x, PyDict.get x (fst final) = PyDict.get x (fst st)
                \/ (PyDict.get x (fst st) = None
                    /\ PyDict.get x (fst final) = Some (placeholder x))).
Proof.
  revert st. induction edges as [|e edges IH]; intros st K; cbv zeta;
    cbn [fold_left].
  - split; [exact K|]. split; [intros e' []|]. split; auto.
  - destruct (build_graph_step_keys st e K) as (K1 & F1 & T1 & M1).
    destruct (IH _ K1) as (Kf & Ef & Mf & Gf).
    split; [exact Kf|]. split; [|split].
    + intros e' [<-|I]; [split; now apply Mf | now apply Ef].
    + intros x I. now apply Mf, M1.
    + intros x. destruct (Gf x) as [E|[N E]];
        destruct (build_graph_step_get st e x) as [E1|[N1 E1]].
      * left. congruence.
      * right. split; congruence.
      * right. split; congruence.
      * congruence.
Qed.

Lemma build_graph_start (spec : graph_spec) :
  in_step (declared_nodes spec, map (fun kv => (fst kv, 0)) (declared_nodes spec)).
Proof.
  unfold in_step, PyDict.keys. cbn [fst snd]. rewrite map_map. reflexivity.
Qed.

Lemma build_graph_eq (spec : graph_spec) :
  build_graph spec
  = fold_left build_graph_step (g_edges spec)
      (declared_nodes spec, map (fun kv => (fst kv, 0)) (declared_nodes spec)).
Proof. reflexivity. Qed.

Lemma successors_append (acc : PyDict.dict string (list string)) (e : edge)
    (u v : string) :
  In v (successors
          (PyDict.set (e_from e) (successors acc (e_from e) ++ [e_to e])%list acc) u)
  <-> In v (successors acc u) \/ (e_from e = u /\ e_to e = v).
Proof.
  unfold successors at 1.
  destruct (string_dec (e_from e) u) as [<-|N].
  - rewrite get_set_same, in_app_iff. simpl. intuition congruence.
  - rewrite get_set_other by exact N. fold (successors acc u). intuition congruence.
Qed.

(** [adj[u]] holds the targets of the edges from [u]. *)
Lemma adjacency_successors (edges : list edge) (u v : string) :
  In v (successors (adjacency edges) u)
  <-> exists e, In e edges /\ e_from e = u /\ e_to e = v.
Proof.
  unfold adjacency.
  assert (forall acc,
            In v (successors
                    (fold_left
                       (fun adj e =>
                          let old := match PyDict.get (e_from e) adj with
                                     | Some l => l
                                     | None => []
                                     end in
                          PyDict.set (e_from e) (old ++ [e_to e])%list adj)
                       edges acc) u)
            <-> In v (successors acc u)
                \/ exists e, In e edges /\ e_from e = u /\ e_to e = v) as gen.
  { induction edges as [|e edges IH]; intros acc; cbn [fold_left].
    - split; [auto | intros [I|(e & [] & _)]; exact I].
    - rewrite IH. cbv zeta.
      change (match PyDict.get (e_from e) acc with Some l => l | None => [] end)
        with (successors acc (e_from e)).
      rewrite successors_append. split.
      + intros [[I|[E1 E2]]|(e' & I & E)].
        * now left.
        * right. exists e. split; [now left | now split].
        * right. exists e'. split; [now right | exact E].
      + intros [I|(e' & [<-|I] & E1 & E2)].
        * left. now left.
        * left. right. now split.
        * right. exists e'. now split. }
  rewrite gen. unfold successors. simpl. split; [intros [[]|E]; exact E | auto].
Qed.

(** C1 (amended). In the graph [build_graph] makes of a generic
    specification no edge is lost to an undeclared endpoint: both ends of
    every edge of the specification are nodes of the graph, an end that no
    declared node names is the placeholder of that identifier (shape rect,
    label the identifier), a declared end keeps a declared node, and the edge
    is in the adjacency the layout walks. *)
Theorem build_graph_keeps_every_edge (spec : graph_spec) (e : edge) :
  In e (g_edges spec) ->
  let nodes_by_id := fst (build_graph spec) in
  (forall x, x = e_from e \/ x = e_to e ->
     In x (PyDict.keys nodes_by_id)
     /\ (~ In x (map n_id (g_nodes spec)) ->
         PyDict.get x nodes_by_id = Some (placeholder x)
         /\ n_shape (placeholder x) = rect /\ n_label (placeholder x) = x)
     /\ (In x (map n_id (g_nodes spec)) ->
         exists n, In n (g_nodes spec) /\ n_id n = x
                   /\ PyDict.get x nodes_by_id = Some n))
  /\ In (e_to e) (successors (adjacency (g_edges spec)) (e_from e)).
Proof.
  intros I nodes_by_id. unfold nodes_by_id. rewrite build_graph_eq.
  destruct (build_graph_fold (g_edges spec) _ (build_graph_start spec))
    as (_ & Ef & _ & Gf).
  cbn [fst] in Gf. split.
  - intros x Hx.
    assert (In x (PyDict.keys (fst (fold_left build_graph_step (g_edges spec)
              (declared_nodes spec,
               map (fun kv => (fst kv, 0)) (declared_nodes spec)))))) as Ix
      by (destruct (Ef e I); destruct Hx as [->| ->]; assumption).
    split; [exact Ix|]. split.
    + intros N. split; [|split; reflexivity].
      destruct (Gf x) as [E|[_ E]]; [|exact E].
      exfalso. rewrite <- declared_nodes_keys in N.
      apply get_None_iff in N. rewrite N in E.
      apply get_None_iff in E. contradiction.
    + intros D. rewrite <- declared_nodes_keys in D.
      destruct (PyDict.get x (declared_nodes spec)) as [n|] eqn:G;
        [|apply get_None_iff in G; contradiction].
      destruct (declared_nodes_get spec x n G) as [In_n En].
      exists n. repeat split; try assumption.
      destruct (Gf x) as [E|[N _]]; congruence.
  - apply adjacency_successors. eauto.
Qed.

(** An edge between a declared node and two undeclared ones. *)
Lemma build_graph_keeps_every_edge_witness :
  let spec := mk_spec "" TD [mk_node "A" "a" round false]
                [mk_edge "A" "X" ""; mk_edge "Y" "A" ""] in
  PyDict.get "X" (fst (build_graph spec)) = Some (placeholder "X")
  /\ (exists n, In n (g_nodes spec) /\ n_id n = "A"
                /\ PyDict.get "A" (fst (build_graph spec)) = Some n)
  /\ In "X" (successors (adjacency (g_edges spec)) "A").
Proof.
  intros spec.
  destruct (build_graph_keeps_every_edge spec (mk_edge "A" "X" "")) as [N A];
    [left; reflexivity|].
  refine (conj _ (conj _ A)).
  - apply (N "X"); [right; reflexivity|].
    simpl. intros [E|[]]. discriminate.
  - apply (N "A"); [left; reflexivity|]. left. reflexivity.
Defined.

(** C1, as stated for every input specification, fails: the entity-relation
    converter keeps a relation only when both of its entities are declared.
    A relation to the undeclared entity [Auth] gives no edge, and no node is
    made up for [Auth]. *)
Lemma er_relation_to_undeclared_entity_is_dropped :
  let d := mk_er_spec "" TD
             [mk_entity "Users" [mk_attribute "id" "uuid" true true false]]
             [mk_relation "Users.id" "Auth.user_id" "1:N" "has_auth"] in
  er_relations d <> []
  /\ g_edges (nodes_edges_er d) = []
  /\ map n_id (g_nodes (nodes_edges_er d)) = ["E1"].
Proof. repeat split. discriminate. Qed.

End BuildGraph.

(** ** The breadth-first traversal *)

Section Traversal.
Import Drawio.
Variable edges : list edge.

Lemma seen_In (vis : list string) (x : string) : seen vis x = true <-> In x vis.
Proof.
  unfold seen. rewrite existsb_exists. split.
  - intros (y & I & E). apply String.eqb_eq in E. now subst.
  - intros I. exists x. split; [exact I | apply String.eqb_refl].
Qed.

Lemma seen_false (vis : list string) (x : string) :
  seen vis x = false <-> ~ In x vis.
Proof. rewrite <- seen_In. destruct (seen vis x); split; congruence. Qed.

Lemma filter_length_lt {A} (f g : A -> bool) (l : list A) (a : A) :
  (forall x, f x = true -> g x = true) ->
  In a l -> g a = true -> f a = false ->
  List.length (filter f l) < List.length (filter g l).
Proof.
  intros FG. induction l as [|x l IH]; simpl; [tauto|].
  intros [->|I] Ga Fa.
  - rewrite Ga, Fa. simpl.
    assert (List.length (filter f l) <= List.length (filter g l)); [|lia].
    clear -FG. induction l as [|y l IH]; simpl; [lia|].
    destruct (f y) eqn:Fy; [rewrite (FG y Fy); simpl; lia|].
    destruct (g y); simpl; lia.
  - specialize (IH I Ga Fa).
    destruct (f x) eqn:Fx; [rewrite (FG x Fx); simpl; lia|].
    destruct (g x); simpl; lia.
Qed.

Lemma unvisited_shrinks (vis : list string) (v : string) :
  In v (map e_to edges) -> ~ In v vis ->
  List.length (unvisited edges (v :: vis)) < List.length (unvisited edges vis).
Proof.
  intros T N. unfold unvisited. apply (filter_length_lt _ _ _ v).
  - intros x. rewrite !negb_true_iff, !seen_false. simpl. tauto.
  - exact T.
  - now rewrite negb_true_iff, seen_false.
  - rewrite negb_false_iff, seen_In. now left.
Qed.

(** The loop over the successors of [u]: all of them end up visited, the new
    ones at the end of the queue. *)
Lemma visit_all (u : string) (du : nat) (succs : list string) :
  forall q dist vis,
    (forall x, In x vis <-> In x (PyDict.keys dist)) ->
    PyDict.get u dist = Some du ->
    incl succs (map e_to edges) ->
    exists q' dist' vis',
      fold_left (visit u) succs (Some (q, dist, vis)) = Some (q', dist', vis')
      /\ (forall x, In x vis' <-> In x vis \/ In x succs)
      /\ (forall x, In x q' <-> In x q \/ (In x succs /\ ~ In x vis))
      /\ (forall x, In x vis' <-> In x (PyDict.keys dist'))
      /\ PyDict.get u dist' = Some du
      /\ List.length q' + List.length (unvisited edges vis')
         <= List.length q + List.length (unvisited edges vis).
Proof.
  induction succs as [|v succs IH]; intros q dist vis S G T.
  - exists q, dist, vis. simpl.
    split; [reflexivity|]. split; [tauto|]. split; [tauto|].
    split; [exact S|]. split; [exact G | lia].
  - cbn [fold_left visit]. fold (seen vis v).
    assert (incl succs (map e_to edges)) as T' by (intros x I; apply T; now right).
    destruct (seen vis v) eqn:Sv.
    + apply seen_In in Sv.
      destruct (IH q dist vis S G T') as (q' & dist' & vis' & E & V & Q & S' & G' & M).
      exists q', dist', vis'. split; [exact E|].
      split; [|split; [|auto]].
      * intros x. rewrite V. simpl. intuition congruence.
      * intros x. rewrite Q. simpl. intuition congruence.
    + apply seen_false in Sv. rewrite G.
      assert (v <> u) as Nvu.
      { intros ->. apply Sv, S. apply get_In in G. now apply (in_map fst) in G. }
      destruct (IH (q ++ [v])%list (PyDict.set v (du + 1) dist) (v :: vis))
        as (q' & dist' & vis' & E & V & Q & S' & G' & M); [| |exact T'|].
      * intros x. rewrite In_keys_set. simpl. rewrite S. intuition congruence.
      * now rewrite get_set_other.
      * exists q', dist', vis'. split; [exact E|].
        split; [|split; [|split; [exact S'|split; [exact G'|]]]].
        -- intros x. rewrite V. simpl. tauto.
        -- intros x. rewrite Q, in_app_iff. simpl.
           destruct (string_dec v x) as [<-|Nx]; [tauto|]. tauto.
        -- pose proof (unvisited_shrinks vis v (T v (or_introl eq_refl)) Sv).
           rewrite length_app in M. simpl in M. lia.
Qed.

(** The traversal returns, and what it returns has a distance for the
    reachable nodes and for no other. *)
Lemma bfs_reaches (roots : list string) (fuel : nat) :
  forall q dist vis,
    (forall x, In x vis <-> In x (PyDict.keys dist)) ->
    incl q vis ->
    List.length q + List.length (unvisited edges vis) <= fuel ->
    (forall x, In x vis -> reachable edges roots x) ->
    incl roots vis ->
    (forall x y, In x vis -> ~ In x q ->
                 In y (successors (adjacency edges) x) -> In y vis) ->
    exists dist',
      bfs fuel (adjacency edges) q dist vis = Some dist'
      /\ forall x, In x (PyDict.keys dist') <-> reachable edges roots x.
Proof.
  assert (forall (dist : PyDict.dict string nat) vis,
            (forall x, In x vis <-> In x (PyDict.keys dist)) ->
            (forall x, In x vis -> reachable edges roots x) ->
            incl roots vis ->
            (forall x y, In x vis -> ~ In x [] ->
                         In y (successors (adjacency edges) x) -> In y vis) ->
            forall x, In x (PyDict.keys dist) <-> reachable edges roots x) as done.
  { intros dist vis S Snd R C x. rewrite <- S. split; [apply Snd|].
    induction 1 as [r I|e I _ IH]; [now apply R|].
    apply (C (e_from e)); [exact IH | tauto |].
    apply adjacency_successors. eauto. }
  induction fuel as [|fuel IH]; intros q dist vis S Q M Snd R C.
  - destruct q as [|u q]; [|simpl in M; lia].
    exists dist. split; [reflexivity | now apply (done dist vis)].
  - destruct q as [|u q].
    + exists dist. split; [reflexivity | now apply (done dist vis)].
    + cbn [bfs].
      assert (In u vis) as Iu by (apply Q; now left).
      destruct (PyDict.get u dist) as [du|] eqn:G;
        [|apply get_None_iff in G; apply S in Iu; contradiction].
      assert (incl (successors (adjacency edges) u) (map e_to edges)) as T.
      { intros v I. apply adjacency_successors in I as (e & I & _ & <-).
        now apply in_map. }
      destruct (visit_all u du _ q dist vis S G T)
        as (q' & dist' & vis' & E & V & Q' & S' & G' & M').
      rewrite E. apply IH.
      * exact S'.
      * intros x I. apply V. apply Q' in I as [I|[I _]]; [|tauto].
        left. apply Q. now right.
      * simpl in M. lia.
      * intros x I. apply V in I as [I|I]; [now apply Snd|].
        apply adjacency_successors in I as (e & I & <- & <-).
        apply reach_edge; [exact I | now apply Snd].
      * intros x I. apply V. left. now apply R.
      * intros x y Ix Nq Iy. apply V.
        destruct (string_dec x u) as [->|Nu]; [now right|].
        destruct (in_dec string_dec x vis) as [Iv|Nv].
        -- left. apply (C x); [exact Iv | | exact Iy].
           intros [Eq|Iq]; [congruence|]. apply Nq, Q'. now left.
        -- exfalso. apply Nq, Q'. right. split; [|exact Nv].
           apply V in Ix. tauto.
Qed.

End Traversal.

(** ** Dictionaries filled by loops *)

Section DictLoops.
Context {K V A : Type} `{PyKey K}.
Variables (key : A -> K) (val : PyDict.dict K V -> A -> V).

Lemma assign_all_keys (l : list A) (acc : PyDict.dict K V) (x : K) :
  In x (PyDict.keys (assign_all key val l acc)) <-> In x (PyDict.keys acc) \/ In x (map key l).
Proof.
  unfold assign_all. revert acc.
  induction l as [|a l IH]; intros acc; simpl; [tauto|].
  rewrite IH, In_keys_set. intuition congruence.
Qed.

Lemma assign_all_NoDup (l : list A) (acc : PyDict.dict K V) :
  NoDup (PyDict.keys acc) -> NoDup (PyDict.keys (assign_all key val l acc)).
Proof.
  unfold assign_all. revert acc.
  induction l as [|a l IH]; intros acc D; simpl; [exact D|].
  now apply IH, NoDup_keys_set.
Qed.

Lemma get_of_In (m : PyDict.dict K V) (k : K) (v : V) :
  NoDup (PyDict.keys m) -> In (k, v) m -> PyDict.get k m = Some v.
Proof.
  induction m as [|[k' v'] m IH]; simpl; [tauto|].
  intros D [E|I]; inversion D as [|? ? N D']; subst.
  - injection E as -> ->. now rewrite key_eqb_refl.
  - destruct (key_eqb_spec k' k) as [->|_]; [|now apply IH].
    elim N. now apply (in_map fst) in I.
Qed.

End DictLoops.

(** ** Layers *)

Section Layers.
Import Drawio.

Lemma enumerate_snd {A} (start : nat) (l : list A) :
  map snd (PyList.enumerate start l) = l.
Proof.
  revert start. induction l as [|x l IH]; intros start; simpl; [reflexivity|].
  now rewrite IH.
Qed.

Lemma sorted_In {A} (leb : A -> A -> bool) (l : list A) (x : A) :
  In x (PyList.sorted leb l) <-> In x l.
Proof.
  split; apply Permutation_in; [symmetry|]; apply sorted_perm.
Qed.

Lemma members_append (layers : PyDict.dict nat (list string)) (d : nat)
    (nid x : string) :
  let old := match PyDict.get d layers with Some l => l | None => [] end in
  In x (members (PyDict.set d (old ++ [nid])%list layers))
  <-> x = nid \/ In x (members layers).
Proof.
  unfold members. induction layers as [|[k l] layers IH]; simpl.
  - intuition congruence.
  - change (Nat.eqb k d) with (key_eqb k d).
    destruct (key_eqb k d) eqn:E; simpl.
    + rewrite !in_app_iff. simpl. intuition congruence.
    + simpl in IH. rewrite !in_app_iff, IH. tauto.
Qed.

Lemma group_layers_members (dist : PyDict.dict string nat) (x : string) :
  In x (members (group_layers dist)) <-> In x (PyDict.keys dist).
Proof.
  unfold group_layers.
  assert (forall acc,
            In x (members
                    (fold_left
                       (fun layers kv =>
                          let old := match PyDict.get (snd kv) layers with
                                     | Some l => l
                                     | None => []
                                     end in
                          PyDict.set (snd kv) (old ++ [fst kv])%list layers)
                       dist acc))
            <-> In x (members acc) \/ In x (PyDict.keys dist)) as gen.
  { induction dist as [|[nid d] dist IH]; intros acc; cbn [fold_left]; [simpl; tauto|].
    rewrite IH. cbn [fst snd]. rewrite (members_append acc d nid x).
    simpl. intuition congruence. }
  rewrite gen. simpl. tauto.
Qed.

(** [pos] has an entry for the members of the layers and for no other
    identifier, and no identifier twice. *)
Lemma assign_positions_keys (dir : direction)
    (layers : PyDict.dict nat (list string)) (x : string) :
  In x (PyDict.keys (assign_positions dir layers)) <-> In x (members layers).
Proof.
  unfold assign_positions.
  set (L := PyList.sorted (fun a b => Nat.leb (fst a) (fst b)) layers).
  assert (forall acc : PyDict.dict string (Z * Z),
            In x (PyDict.keys
                    (fold_left
                       (fun pos layer_nids =>
                          fold_left
                            (fun pos i_nid =>
                               PyDict.set (snd i_nid)
                                 (place dir (fst layer_nids) (fst i_nid)) pos)
                            (PyList.enumerate 0
                               (PyList.sorted String.leb (snd layer_nids)))
                            pos)
                       L acc))
            <-> In x (PyDict.keys acc) \/ In x (List.concat (map snd L))) as gen.
  { induction L as [|[d nids] L IH]; intros acc; cbn [fold_left]; [simpl; tauto|].
    rewrite IH. cbn [fst snd map List.concat].
    pose proof (assign_all_keys snd (fun _ i_nid => place dir d (fst i_nid))
                  (PyList.enumerate 0 (PyList.sorted String.leb nids)) acc x) as P.
    unfold assign_all in P. rewrite P.
    rewrite enumerate_snd, in_app_iff, sorted_In. tauto. }
  rewrite gen. simpl. unfold members, PyDict.values.
  rewrite !in_concat. split.
  - intros [[]|(l & I & Ix)]. exists l. split; [|exact Ix].
    eapply Permutation_in; [|exact I].
    apply Permutation_map. symmetry. apply sorted_perm.
  - intros (l & I & Ix). right. exists l. split; [|exact Ix].
    eapply Permutation_in; [|exact I].
    apply Permutation_map. apply sorted_perm.
Qed.

Lemma assign_positions_NoDup (dir : direction)
    (layers : PyDict.dict nat (list string)) :
  NoDup (PyDict.keys (assign_positions dir layers)).
Proof.
  unfold assign_positions.
  set (L := PyList.sorted (fun a b => Nat.leb (fst a) (fst b)) layers).
  assert (forall acc : PyDict.dict string (Z * Z),
            NoDup (PyDict.keys acc) ->
            NoDup (PyDict.keys
                     (fold_left
                        (fun pos layer_nids =>
                           fold_left
                             (fun pos i_nid =>
                                PyDict.set (snd i_nid)
                                  (place dir (fst layer_nids) (fst i_nid)) pos)
                             (PyList.enumerate 0
                                (PyList.sorted String.leb (snd layer_nids)))
                             pos)
                        L acc))) as gen.
  { induction L as [|[d nids] L IH]; intros acc D; cbn [fold_left]; [exact D|].
    apply IH.
    apply (assign_all_NoDup snd (fun _ i_nid => place dir d (fst i_nid))), D. }
  apply gen. constructor.
Qed.

End Layers.

(** ** Layout *)

Section Layout.
Import Drawio.

Lemma build_graph_nonempty (spec : graph_spec) :
  g_nodes spec <> [] \/ g_edges spec <> [] -> fst (build_graph spec) <> [].
Proof.
  rewrite build_graph_eq.
  destruct (build_graph_fold (g_edges spec) _ (build_graph_start spec))
    as (_ & Ef & Mf & _).
  cbn [fst] in Mf.
  assert (forall x,
            In x (PyDict.keys (fst (fold_left build_graph_step (g_edges spec)
                    (declared_nodes spec,
                     map (fun kv => (fst kv, 0)) (declared_nodes spec))))) ->
            fst (fold_left build_graph_step (g_edges spec)
                   (declared_nodes spec,
                    map (fun kv => (fst kv, 0)) (declared_nodes spec))) <> [])
    as ne by (intros x I E; rewrite E in I; exact I).
  intros [N|N].
  - destruct (g_nodes spec) as [|n ns] eqn:G; [congruence|].
    apply (ne (n_id n)), Mf, declared_nodes_keys. rewrite G. now left.
  - destruct (g_edges spec) as [|e es] eqn:G; [congruence|].
    rewrite <- G in *. apply (ne (e_from e)), Ef. rewrite G. now left.
Qed.

Lemma start_queue_returns (nodes_by_id : PyDict.dict string node)
    (indegree : PyDict.dict string nat) :
  nodes_by_id <> [] -> PyDict.keys nodes_by_id = PyDict.keys indegree ->
  exists roots,
    start_queue nodes_by_id indegree = Some roots
    /\ roots <> [] /\ incl roots (PyDict.keys nodes_by_id).
Proof.
  intros N K. unfold start_queue.
  destruct (map fst (filter (fun kv => Nat.eqb (snd kv) 0) indegree))
    as [|r roots] eqn:F.
  - destruct nodes_by_id as [|[nid n] rest]; [congruence|].
    exists [nid]. repeat split; [discriminate|].
    intros x [<-|[]]. now left.
  - exists (r :: roots). repeat split; [discriminate|].
    rewrite K, <- F. intros x I.
    apply in_map_iff in I as (kv & <- & I). apply filter_In in I as [I _].
    now apply in_map.
Qed.

(** The traversal of a specification with a node or an edge returns; the
    nodes it gives a layer are those reachable from the initial queue, all of
    them nodes of the graph. *)
Lemma bfs_layers_returns (spec : graph_spec) :
  g_nodes spec <> [] \/ g_edges spec <> [] ->
  exists roots dist,
    layout_roots spec = Some roots
    /\ roots <> []
    /\ bfs_layers spec = Some dist
    /\ (forall x, In x (PyDict.keys dist) <-> reachable (g_edges spec) roots x)
    /\ (forall x, In x (PyDict.keys dist) ->
                  In x (PyDict.keys (fst (build_graph spec)))).
Proof.
  intros NE. pose proof (build_graph_nonempty spec NE) as N.
  unfold layout_roots, bfs_layers.
  pose proof (build_graph_fold (g_edges spec) _ (build_graph_start spec))
    as (K & Ef & _ & _).
  rewrite <- build_graph_eq in K, Ef.
  destruct (build_graph spec) as [nodes_by_id indegree]. cbn [fst snd] in *.
  destruct (start_queue_returns nodes_by_id indegree N K) as (roots & S & Nr & Ir).
  rewrite S. exists roots.
  destruct (bfs_reaches (g_edges spec) roots (bfs_fuel (g_edges spec) roots) roots
              (PyDict.of_pairs (map (fun nid => (nid, 0)) roots)) roots)
    as (dist & B & R).
  - intros x. rewrite of_pairs_keys, map_map. simpl. now rewrite map_id.
  - apply incl_refl.
  - unfold bfs_fuel, unvisited.
    pose proof (filter_length_le (fun t => negb (seen roots t)) (map e_to (g_edges spec))).
    rewrite length_map in *. lia.
  - intros x I. now apply reach_root.
  - apply incl_refl.
  - tauto.
  - exists dist. repeat split; try assumption; try apply R.
    intros x I. apply R in I.
    induction I as [r I|e I _ _]; [now apply Ir | now apply Ef].
Qed.

(** C2 (amended). The layout of a specification with a node or an edge
    returns a position map with no identifier twice; a node has an entry
    exactly when the traversal reaches it from the initial queue (the
    zero-indegree nodes, or the first node when there is none), and every
    entry is a node of the graph.  A node the traversal does not reach gets
    no layer and no entry. *)
Theorem layer_layout_positions (spec : graph_spec) (dir : option direction) :
  g_nodes spec <> [] \/ g_edges spec <> [] ->
  exists spec' pos roots,
    layer_layout spec dir = Some (spec', pos)
    /\ layout_roots spec = Some roots
    /\ NoDup (PyDict.keys pos)
    /\ (forall nid,
          In nid (PyDict.keys pos) <-> reachable (g_edges spec) roots nid)
    /\ (forall nid,
          In nid (PyDict.keys pos) ->
          In nid (PyDict.keys (fst (build_graph spec)))).
Proof.
  intros NE.
  destruct (bfs_layers_returns spec NE) as (roots & dist & S & _ & B & R & G).
  assert (exists d, match dir with
                    | None => choose_direction_auto spec
                    | Some d => Some d
                    end = Some d) as (d & D).
  { destruct dir as [d|]; [now exists d|].
    unfold choose_direction_auto. rewrite B. eauto. }
  unfold layer_layout. rewrite D.
  change (bfs_layers {| g_title := g_title spec; g_direction := d;
                        g_nodes := g_nodes spec; g_edges := g_edges spec |})
    with (bfs_layers spec).
  rewrite B. do 3 eexists. split; [reflexivity|]. split; [exact S|].
  split; [apply assign_positions_NoDup|].
  split; intros nid; rewrite assign_positions_keys, group_layers_members;
    [apply R | apply G].
Qed.

Lemma layer_layout_positions_witness :
  exists spec' pos roots,
    layer_layout cycle_beside_root None = Some (spec', pos)
    /\ layout_roots cycle_beside_root = Some roots
    /\ NoDup (PyDict.keys pos)
    /\ (forall nid,
          In nid (PyDict.keys pos)
          <-> reachable (g_edges cycle_beside_root) roots nid)
    /\ (forall nid,
          In nid (PyDict.keys pos) ->
          In nid (PyDict.keys (fst (build_graph cycle_beside_root)))).
Proof.
  apply (layer_layout_positions cycle_beside_root None).
  left. discriminate.
Defined.

(** C2, as stated, fails: [B] is a node of the graph and the traversal from
    the only root [A] never visits it; the layout gives it no layer 0 and no
    entry in the position map. *)
Lemma unvisited_node_has_no_position :
  In "B" (PyDict.keys (fst (build_graph cycle_beside_root)))
  /\ exists spec' pos,
       layer_layout cycle_beside_root None = Some (spec', pos)
       /\ pos = [("A", (0, 0)%Z)]
       /\ ~ In "B" (PyDict.keys pos).
Proof.
  split; [right; left; reflexivity|].
  do 2 eexists. split; [reflexivity|]. split; [reflexivity|].
  intros [E|[]]. discriminate.
Qed.

End Layout.

(** ** The direction heuristic *)

Section Direction.
Import Drawio.

Lemma count_layers_counts (dist : PyDict.dict string nat) :
  forall acc,
    positive acc -> NoDup (PyDict.keys acc) ->
    positive (count_layers dist acc)
    /\ NoDup (PyDict.keys (count_layers dist acc))
    /\ forall d, counted (count_layers dist acc) d
                 = counted acc d + population dist d.
Proof.
  unfold count_layers, population.
  induction dist as [|[nid l] dist IH]; intros acc P D; cbn [fold_left].
  - repeat split; auto.
  - cbn [snd]. fold (counted acc l).
    destruct (IH (PyDict.set l (counted acc l + 1) acc)) as (P' & D' & C').
    + intros d c. destruct (Nat.eq_dec l d) as [<-|N].
      * rewrite get_set_same. intros E. injection E as <-. lia.
      * rewrite get_set_other by exact N. apply P.
    + now apply NoDup_keys_set.
    + split; [exact P'|]. split; [exact D'|].
      intros d. rewrite C'. unfold counted at 1. cbn [PyDict.values map snd count_occ].
      destruct (Nat.eq_dec l d) as [<-|N].
      * rewrite get_set_same. unfold PyDict.values. lia.
      * rewrite get_set_other by exact N. fold (counted acc d).
        unfold PyDict.values. lia.
Qed.

Lemma list_max_same_members {A} (f : A -> nat) (l1 l2 : list A) :
  (forall x, In x l1 <-> In x l2) ->
  list_max (map f l1) = list_max (map f l2).
Proof.
  assert (forall l1 l2 : list A, incl l1 l2 ->
            list_max (map f l1) <= list_max (map f l2)) as le.
  { intros a b I. apply list_max_le, Forall_forall.
    intros n Hn. apply in_map_iff in Hn as (x & <- & Hx).
    assert (Forall (fun k => k <= list_max (map f b)) (map f b)) as F
      by (now apply list_max_le).
    rewrite Forall_forall in F. apply F, in_map, I, Hx. }
  intros E. apply Nat.le_antisymm; apply le; intros x; apply E.
Qed.

(** The counter agrees with the specification's quantities. *)
Lemma count_layers_quantities (dist : PyDict.dict string nat) :
  let layers := count_layers dist [] in
  list_max (PyDict.values layers) = maxPop dist
  /\ List.length layers = layerCount dist
  /\ (layers = [] <-> dist = []).
Proof.
  intros layers.
  destruct (count_layers_counts dist []) as (P & D & C).
  { intros d c. discriminate. }
  { constructor. }
  fold layers in P, D, C.
  assert (forall d, In d (PyDict.keys layers) <-> In d (PyDict.values dist)) as mem.
  { intros d. rewrite (count_occ_In Nat.eq_dec (PyDict.values dist)).
    fold (population dist d).
    specialize (C d). unfold counted at 2 in C. simpl in C. rewrite <- C.
    unfold counted. destruct (PyDict.get d layers) as [c|] eqn:G.
    - split; [intros _; now apply (P d) | intros _].
      apply get_In in G. now apply (in_map fst) in G.
    - apply get_None_iff in G. split; [tauto | lia]. }
  assert (PyDict.values layers = map (population dist) (PyDict.keys layers)) as vals.
  { unfold PyDict.values, PyDict.keys. rewrite map_map.
    apply map_ext_in. intros [d c] I. cbn [fst snd].
    specialize (C d). unfold counted at 2 in C. simpl in C. rewrite <- C.
    unfold counted. now rewrite (get_of_In layers d c D I). }
  split; [|split].
  - rewrite vals. now apply list_max_same_members.
  - unfold layerCount. replace (List.length layers) with (List.length (PyDict.keys layers))
      by apply length_map.
    apply Permutation_length, NoDup_Permutation; [exact D | apply NoDup_nodup |].
    intros d. now rewrite mem, nodup_In.
  - split.
    + intros E. destruct dist as [|[nid d] dist]; [reflexivity|].
      exfalso. assert (In d (PyDict.keys layers)) as I by (apply mem; now left).
      rewrite E in I. exact I.
    + intros ->. reflexivity.
Qed.

Lemma choose_direction_auto_of_layers (spec : graph_spec) (dist : PyDict.dict string nat) :
  bfs_layers spec = Some dist ->
  choose_direction_auto spec
  = Some (if Nat.ltb (layerCount dist) (maxPop dist) then LR else TD).
Proof.
  intros B. unfold choose_direction_auto. rewrite B.
  fold (count_layers dist []).
  destruct (count_layers_quantities dist) as (M & L & E).
  destruct (count_layers dist []) as [|kv layers] eqn:Q.
  - assert (dist = []) as -> by now apply E.
    reflexivity.
  - rewrite M, <- L. reflexivity.
Qed.

(** The rule of the specification: for a specification with a node or an
    edge the automatic choice returns left-to-right when the largest number
    of nodes on one layer of the traversal exceeds the number of distinct
    layers, and top-down otherwise. *)
Lemma choose_direction_auto_rule (spec : graph_spec) :
  g_nodes spec <> [] \/ g_edges spec <> [] ->
  exists dist,
    bfs_layers spec = Some dist
    /\ choose_direction_auto spec
       = Some (if Nat.ltb (layerCount dist) (maxPop dist) then LR else TD).
Proof.
  intros NE.
  destruct (bfs_layers_returns spec NE) as (roots & dist & _ & _ & B & _).
  exists dist. split; [exact B | now apply choose_direction_auto_of_layers].
Qed.

(** The two instances of the specification: the star has at most 4 nodes on
    a layer and 2 layers, the chain 1 node on each of its 5 layers. *)
Lemma choose_direction_auto_rule_witness :
  (exists dist, bfs_layers star4 = Some dist
                /\ maxPop dist = 4 /\ layerCount dist = 2
                /\ choose_direction_auto star4 = Some LR)
  /\ (exists dist, bfs_layers chain5 = Some dist
                   /\ maxPop dist = 1 /\ layerCount dist = 5
                   /\ choose_direction_auto chain5 = Some TD).
Proof.
  split.
  - destruct (choose_direction_auto_rule star4) as (dist & B & C);
      [left; discriminate|].
    exists dist. split; [exact B|].
    assert (dist = [("r", 0); ("a", 1); ("b", 1); ("c", 1); ("d", 1)]) as E
      by (vm_compute in B; congruence).
    rewrite C, E. repeat split.
  - destruct (choose_direction_auto_rule chain5) as (dist & B & C);
      [left; discriminate|].
    exists dist. split; [exact B|].
    assert (dist = [("n1", 0); ("n2", 1); ("n3", 2); ("n4", 3); ("n5", 4)]) as E
      by (vm_compute in B; congruence).
    rewrite C, E. repeat split.
Defined.

(** C3. The rule fails on one input, the specification with no node and
    no edge, which the converter of the state diagrams returns for an answer
    with no start, no end and no state.  The rule gives top-down there, no
    layer holding more nodes than there are layers; the last line of the
    code has the guards [if layers else 1] and [len(layers) or 1] for that
    case, but [next(iter(nodes_by_id))] raises before, in the expression of
    the initial queue, and no direction is returned; the layout, which has
    the same expression, raises as well. *)
Theorem choose_direction_auto_empty_graph :
  let spec := nodes_edges_state (mk_state_spec "" None [] [] None None) in
  g_nodes spec = [] /\ g_edges spec = []
  /\ (if Nat.ltb (layerCount []) (maxPop []) then LR else TD) = TD
  /\ choose_direction_auto spec = None
  /\ layer_layout spec None = None.
Proof. repeat split. Qed.

End Direction.

(** * Further properties of the code

    Properties of the functions the specification does not speak of, and of
    the way the functions compose: the canonical form of a style and the
    keys of the harvest; the distances and the grid of the layout; the
    converters of the diagram kinds and what the serializer makes of their
    output; the reading of the model's answer.  First the lemmas, by
    subject, then the properties themselves. *)

(** ** Canonical styles, keys and the harvest loop *)
Section Canonical.
Import Harvest.

Lemma span_all (p : ascii -> bool) (s a b : string) :
  span p s = (a, b) -> all_chars p a = true.
Proof.
  revert a b. induction s as [|c s IH]; simpl; intros a b E.
  - now injection E as <- <-.
  - destruct (p c) eqn:P.
    + destruct (span p s) as [a' b'] eqn:S. injection E as <- <-.
      simpl. rewrite P. now apply (IH a' b').
    + now injection E as <- <-.
Qed.

Lemma match_kv_well_formed (s k v : string) (n : nat) :
  match_kv s = Some ((k, v), n) -> well_formed_pair (k, v).
Proof.
  unfold match_kv. destruct (span is_key_char s) as [k0 r] eqn:Sk.
  destruct k0 as [|c k0]; [discriminate|].
  destruct r as [|e r]; [discriminate|].
  destruct (Ascii.eqb_spec e "=") as [->|N].
  2:{ destruct e as [[] [] [] [] [] [] [] []]; try discriminate. now elim N. }
  destruct (span not_semicolon r) as [v0 r''] eqn:Sv.
  intros E. injection E as <- <- _.
  repeat split; simpl.
  - discriminate.
  - exact (span_all _ _ _ _ Sk).
  - exact (span_all _ _ _ _ Sv).
Qed.

Lemma findall_well_formed (s : string) :
  forall skip, Forall well_formed_pair (findall_from skip s).
Proof.
  induction s as [|c s IH]; intros skip; simpl; [constructor|].
  destruct skip as [|k]; [|apply IH].
  destruct (match_kv (String c s)) as [[[k v] n]|] eqn:M; [|apply IH].
  constructor; [|apply IH]. exact (match_kv_well_formed _ _ _ _ M).
Qed.

Lemma all_chars_lstrip (p q : ascii -> bool) (s : string) :
  all_chars p s = true -> all_chars p (lstrip_by q s) = true.
Proof.
  induction s as [|c s IH]; simpl; [reflexivity|].
  intros H. destruct (q c); [|exact H].
  apply andb_prop in H as [_ H]. now apply IH.
Qed.

Lemma all_chars_rstrip (p q : ascii -> bool) (s : string) :
  all_chars p s = true -> all_chars p (rstrip_by q s) = true.
Proof.
  induction s as [|c s IH]; simpl; [reflexivity|].
  intros H. apply andb_prop in H as [Hc H]. specialize (IH H).
  destruct (rstrip_by q s) as [|d r].
  - destruct (q c); simpl; [reflexivity | now rewrite Hc].
  - simpl in *. now rewrite Hc.
Qed.

Lemma all_chars_strip_by (p q : ascii -> bool) (s : string) :
  all_chars p s = true -> all_chars p (strip_by q s) = true.
Proof. intros H. unfold strip_by. now apply all_chars_rstrip, all_chars_lstrip. Qed.

(** [rstrip] leaves nothing to strip at the end, [lstrip] nothing at the
    start. *)
Lemma rstrip_by_idem (p : ascii -> bool) (s : string) :
  rstrip_by p (rstrip_by p s) = rstrip_by p s.
Proof.
  induction s as [|c s IH]; simpl; [reflexivity|].
  destruct (rstrip_by p s) as [|d r] eqn:R.
  - destruct (p c) eqn:P; simpl; [reflexivity | now rewrite P].
  - change (rstrip_by p (String c (String d r)))
      with (match rstrip_by p (String d r) with
            | EmptyString => if p c then EmptyString else String c EmptyString
            | String x y => String c (String x y)
            end).
    now rewrite IH.
Qed.

Lemma lstrip_by_idem (p : ascii -> bool) (s : string) :
  lstrip_by p (lstrip_by p s) = lstrip_by p s.
Proof.
  induction s as [|c s IH]; simpl; [reflexivity|].
  destruct (p c) eqn:P; [exact IH|]. simpl. now rewrite P.
Qed.

(** After [rstrip], [lstrip] commutes: the result of [strip] starts with a
    character that stays. *)
Lemma lstrip_rstrip_fixed (p : ascii -> bool) (s : string) :
  lstrip_by p s = s -> lstrip_by p (rstrip_by p s) = rstrip_by p s.
Proof.
  destruct s as [|c s]; [reflexivity|].
  cbn [lstrip_by]. destruct (p c) eqn:P.
  - intros E. exfalso.
    assert (String.length (lstrip_by p s) <= String.length s) as L.
    { clear. induction s as [|d s IH]; simpl; [lia|]. destruct (p d); simpl; lia. }
    rewrite E in L. simpl in L. lia.
  - intros _. rewrite (rstrip_by_cons p c s P). simpl. now rewrite P.
Qed.

Lemma strip_by_idem (p : ascii -> bool) (s : string) :
  strip_by p (strip_by p s) = strip_by p s.
Proof.
  unfold strip_by.
  rewrite (lstrip_rstrip_fixed p (lstrip_by p s) (lstrip_by_idem p s)).
  apply rstrip_by_idem.
Qed.

Lemma strip_idem (s : string) : strip (strip s) = strip s.
Proof. apply strip_by_idem. Qed.

(** The pairs [normalize_style] keeps are pairs of the style syntax, with
    stripped values. *)
Lemma style_pairs_well_formed (s : string) :
  Forall (fun kv => well_formed_pair kv /\ strip (snd kv) = snd kv) (style_pairs s).
Proof.
  unfold style_pairs, STYLE_KV_RE_findall.
  pose proof (findall_well_formed s 0) as F.
  induction F as [|[k v] l (Hne & Hk & Hv) F IH]; simpl; [constructor|].
  simpl in Hne, Hk, Hv. rewrite (strip_key k Hk).
  destruct (String.eqb_spec k "") as [->|_]; [now elim Hne|].
  simpl. constructor; [|exact IH].
  simpl. rewrite (strip_key k Hk). repeat split; simpl; try assumption.
  - now apply all_chars_strip_by.
  - apply strip_idem.
Qed.

Lemma join_render (l : list (string * string)) :
  join ";" (map (fun x => fst x ++ "=" ++ snd x) l)
  ++ (match l with [] => "" | _ => ";" end)
  = render_pairs l.
Proof.
  induction l as [|[k v] l IH]; [reflexivity|].
  cbn [map render_pairs fold_right fst snd]. fold (render_pairs l).
  rewrite <- IH. unfold join. cbn [String.concat].
  destruct l as [|y l]; cbn [map].
  - now rewrite !append_assoc.
  - rewrite !append_assoc. reflexivity.
Qed.

Lemma normalize_style_render (s : string) :
  normalize_style s = render_pairs (PyList.sorted by_sort_key (style_pairs s)).
Proof. rewrite normalize_style_by_sort_key. apply join_render. Qed.

Lemma sorted_fixed {A} (leb : A -> A -> bool) (l : list A) :
  StronglySorted (holds leb) l -> PyList.sorted leb l = l.
Proof.
  induction 1 as [|x l S IH F]; simpl; [reflexivity|].
  rewrite IH. destruct l as [|y l]; [reflexivity|].
  simpl. apply Forall_inv in F. unfold holds in F. now rewrite F.
Qed.

End Canonical.

Section SafeKey.
Import Harvest.

Lemma hyphen_safe (c : ascii) : is_hyphen c = true -> safe_char c = true.
Proof. each_char c; vm_compute; congruence. Qed.

Lemma safe_not_space (c : ascii) : safe_char c = true -> is_space c = false.
Proof. each_char c; vm_compute; congruence. Qed.

Lemma safe_lower (c : ascii) : safe_char c = true -> lower_char c = c.
Proof. each_char c; vm_compute; congruence. Qed.

Lemma sub_runs_not_safe (s : string) (b : bool) :
  all_chars safe_char (sub_runs not_safe_char b s) = true.
Proof.
  revert b. induction s as [|c s IH]; intros b; simpl; [reflexivity|].
  destruct (not_safe_char c) eqn:N.
  - destruct b; [apply IH|]. simpl. now rewrite IH.
  - simpl. unfold safe_char at 1. now rewrite N, IH.
Qed.

Lemma sub_runs_hyphen_safe (s : string) (b : bool) :
  all_chars safe_char s = true ->
  all_chars safe_char (sub_runs is_hyphen b s) = true.
Proof.
  revert b. induction s as [|c s IH]; intros b; simpl; [reflexivity|].
  intros H. apply andb_prop in H as [Hc Hs].
  destruct (is_hyphen c) eqn:N.
  - destruct b; [now apply IH|]. simpl. now rewrite IH.
  - simpl. now rewrite Hc, IH.
Qed.

Lemma sub_runs_single (s : string) (b : bool) :
  single_hyphens false (sub_runs is_hyphen b s) = true
  /\ (b = true -> single_hyphens true (sub_runs is_hyphen b s) = true).
Proof.
  revert b. induction s as [|c s IH]; intros b; simpl; [now split|].
  destruct (is_hyphen c) eqn:N.
  - destruct b.
    + apply IH.
    + split; [|discriminate]. simpl. change (is_hyphen "-") with true. simpl.
      now apply (IH true).
  - simpl. rewrite N. split; intros; apply (IH false).
Qed.

Lemma single_weaken (s : string) :
  single_hyphens true s = true -> single_hyphens false s = true.
Proof. destruct s as [|c s]; simpl; [reflexivity|]. destruct (is_hyphen c); [discriminate | tauto]. Qed.

Lemma single_lstrip (s : string) (b : bool) :
  single_hyphens b s = true -> single_hyphens false (lstrip_by is_hyphen s) = true.
Proof.
  revert b. induction s as [|c s IH]; intros b; simpl; [reflexivity|].
  destruct (is_hyphen c) eqn:N.
  - intros H. apply andb_prop in H as [_ H]. now apply (IH true).
  - intros H. simpl. now rewrite N.
Qed.

Lemma single_rstrip (s : string) (b : bool) :
  single_hyphens b s = true -> single_hyphens b (rstrip_by is_hyphen s) = true.
Proof.
  revert b. induction s as [|c s IH]; intros b; simpl; [reflexivity|].
  destruct (is_hyphen c) eqn:N.
  - intros H. apply andb_prop in H as [Hb H]. specialize (IH true H).
    destruct (rstrip_by is_hyphen s) as [|d r]; [reflexivity|].
    cbn [single_hyphens]. rewrite N, Hb. exact IH.
  - intros H. specialize (IH false H).
    destruct (rstrip_by is_hyphen s) as [|d r].
    + simpl. now rewrite N.
    + cbn [single_hyphens]. rewrite N. exact IH.
Qed.

Lemma contains_double_hyphen (s : string) (b : bool) :
  single_hyphens b s = true -> contains "--" s = false.
Proof.
  revert b. induction s as [|c s IH]; intros b; [reflexivity|].
  cbn [single_hyphens contains]. intros H.
  assert (contains "--" s = false) as ->.
  { destruct (is_hyphen c); [apply andb_prop in H as [_ H]|]; eapply IH; exact H. }
  rewrite orb_false_r.
  destruct s as [|d s].
  - rewrite prefix_cons. simpl. apply andb_false_r.
  - rewrite !prefix_cons, prefix_empty, andb_true_r.
    rewrite (Ascii.eqb_sym "-" c), (Ascii.eqb_sym "-" d).
    cbn [single_hyphens] in H. unfold is_hyphen in H.
    destruct (Ascii.eqb c "-"); [|reflexivity].
    destruct (Ascii.eqb d "-"); [|reflexivity].
    simpl in H. now rewrite andb_false_r in H.
Qed.

Lemma first_char_lstrip (p : ascii -> bool) (s : string) (c : ascii) :
  first_char (lstrip_by p s) = Some c -> p c = false.
Proof.
  induction s as [|d s IH]; simpl; [discriminate|].
  destruct (p d) eqn:P; [exact IH|]. simpl. now intros [= <-].
Qed.

Lemma first_char_rstrip (p : ascii -> bool) (s : string) (c : ascii) :
  first_char (rstrip_by p s) = Some c -> first_char s = Some c.
Proof.
  destruct s as [|d s]; simpl; [discriminate|].
  destruct (rstrip_by p s); [destruct (p d)|]; simpl; congruence.
Qed.

Lemma last_char_rstrip (p : ascii -> bool) (s : string) (c : ascii) :
  last_char (rstrip_by p s) = Some c -> p c = false.
Proof.
  induction s as [|d s IH]; simpl; [discriminate|].
  destruct (rstrip_by p s) as [|e r] eqn:R.
  - destruct (p d) eqn:P; simpl; [discriminate | now intros [= <-]].
  - intros H. apply IH. exact H.
Qed.

Lemma safe_key_file_key (key : string) : file_key (safe_key key).
Proof.
  unfold safe_key.
  set (a := sub_runs not_safe_char false (lower (strip key))).
  set (b := sub_runs is_hyphen false a).
  assert (all_chars safe_char b = true) as Sb
    by (apply sub_runs_hyphen_safe, sub_runs_not_safe).
  assert (single_hyphens false b = true) as Hb by apply sub_runs_single.
  destruct (strip_by is_hyphen b) as [|c r] eqn:E.
  - repeat split; try discriminate; reflexivity.
  - rewrite <- E. repeat split.
    + rewrite E. discriminate.
    + now apply all_chars_strip_by.
    + intros F. unfold strip_by in F. apply first_char_rstrip in F.
      apply first_char_lstrip in F. discriminate.
    + intros F. apply last_char_rstrip in F. discriminate.
    + apply (contains_double_hyphen _ false). unfold strip_by.
      apply single_rstrip. eapply single_lstrip. exact Hb.
Qed.

Lemma lower_safe (s : string) : all_chars safe_char s = true -> lower s = s.
Proof.
  induction s as [|c s IH]; simpl; [reflexivity|].
  intros H. apply andb_prop in H as [Hc Hs]. now rewrite (safe_lower c Hc), IH.
Qed.

Lemma sub_runs_safe_fixed (s : string) (b : bool) :
  all_chars safe_char s = true -> sub_runs not_safe_char b s = s.
Proof.
  revert b. induction s as [|c s IH]; intros b; simpl; [reflexivity|].
  intros H. apply andb_prop in H as [Hc Hs].
  unfold safe_char in Hc. apply negb_true_iff in Hc. rewrite Hc. now rewrite IH.
Qed.

Lemma sub_runs_single_fixed (s : string) (b : bool) :
  single_hyphens b s = true -> sub_runs is_hyphen b s = s.
Proof.
  revert b. induction s as [|c s IH]; intros b; simpl; [reflexivity|].
  destruct (is_hyphen c) eqn:N.
  - intros H. apply andb_prop in H as [Hb H]. apply negb_true_iff in Hb. subst b.
    rewrite (IH true H). f_equal.
    clear - N. each_char c; vm_compute in N; try discriminate. reflexivity.
  - intros H. now rewrite (IH false H).
Qed.

Lemma lstrip_first (p : ascii -> bool) (s : string) :
  (forall c, first_char s = Some c -> p c = false) -> lstrip_by p s = s.
Proof. destruct s as [|c s]; simpl; [reflexivity|]. intros H. now rewrite (H c eq_refl). Qed.

Lemma rstrip_last (p : ascii -> bool) (s : string) :
  (forall c, last_char s = Some c -> p c = false) -> rstrip_by p s = s.
Proof.
  induction s as [|c s IH]; [reflexivity|].
  intros H. cbn [rstrip_by]. destruct s as [|d s].
  - simpl. now rewrite (H c eq_refl).
  - rewrite IH by (intros x Hx; apply H; exact Hx). reflexivity.
Qed.

Lemma all_chars_first (p : ascii -> bool) (s : string) (c : ascii) :
  all_chars p s = true -> first_char s = Some c -> p c = true.
Proof. destruct s; simpl; [discriminate|]. intros H [= <-]. now apply andb_prop in H. Qed.

Lemma all_chars_last (p : ascii -> bool) (s : string) (c : ascii) :
  all_chars p s = true -> last_char s = Some c -> p c = true.
Proof.
  induction s as [|d s IH]; [discriminate|].
  intros H. cbn [all_chars] in H. apply andb_prop in H as [Hd Hs].
  destruct s as [|e s]; [now intros [= <-] | now apply IH].
Qed.

Lemma file_key_fixed (k : string) : file_key k -> safe_key k = k.
Proof.
  intros (Hne & Hs & Hf & Hl & Hd). unfold safe_key.
  assert (strip k = k) as ->.
  { unfold strip, strip_by. rewrite lstrip_first.
    - apply rstrip_last. intros c Hc. apply safe_not_space. eapply all_chars_last; eassumption.
    - intros c Hc. apply safe_not_space. eapply all_chars_first; eassumption. }
  rewrite (lower_safe k Hs), (sub_runs_safe_fixed k false Hs).
  assert (single_hyphens false k = true) as Hh.
  { clear - Hd. induction k as [|c k IH]; [reflexivity|].
    cbn [contains] in Hd. apply orb_false_iff in Hd as [Hp Hd].
    specialize (IH Hd). cbn [single_hyphens].
    destruct (is_hyphen c) eqn:N; [|exact IH]. simpl.
    destruct k as [|d k]; [reflexivity|].
    cbn [single_hyphens] in *. destruct (is_hyphen d) eqn:Nd; [|exact IH].
    exfalso. rewrite !prefix_cons, prefix_empty, andb_true_r in Hp.
    rewrite (Ascii.eqb_sym "-" c), (Ascii.eqb_sym "-" d) in Hp.
    unfold is_hyphen in N, Nd. rewrite N, Nd in Hp. discriminate. }
  rewrite (sub_runs_single_fixed k false Hh).
  unfold strip_by. rewrite lstrip_first, rstrip_last.
  - destruct k; [now elim Hne | reflexivity].
  - intros c Hc. destruct (is_hyphen c) eqn:N; [|reflexivity].
    elim Hl. rewrite Hc. f_equal. clear - N.
    each_char c; vm_compute in N; try discriminate. reflexivity.
  - intros c Hc. destruct (is_hyphen c) eqn:N; [|reflexivity].
    elim Hf. rewrite Hc. f_equal. clear - N.
    each_char c; vm_compute in N; try discriminate. reflexivity.
Qed.

End SafeKey.

Section Collect.
Import Harvest.

Lemma find_norm_Some (s ek : string) (m : PyDict.dict string string) :
  find_norm s m = Some ek -> exists es, In (ek, es) m /\ normalize_style es = s.
Proof.
  induction m as [|[k v] m IH]; simpl; [discriminate|].
  destruct (String.eqb_spec (normalize_style v) s) as [E|N].
  - intros [= <-]. exists v. split; [now left | exact E].
  - intros F. destruct (IH F) as (es & I & E). exists es. split; [now right | exact E].
Qed.

(** What a call does to the library: nothing, when an entry has the
    fingerprint of the style, and otherwise one entry more, at the end, under
    a key that was free: the safe key, or the safe key with a numeric
    suffix. *)
Lemma add_unique_effect (m m' : PyDict.dict string string) (base_key style key : string) :
  add_unique m base_key style = Some (m', key) ->
  (m' = m /\ exists es, In (key, es) m /\ normalize_style es = normalize_style style)
  \/ (find_norm (normalize_style style) m = None
      /\ PyDict.get key m = None
      /\ m' = (m ++ [(key, style)])%list
      /\ (key = safe_key base_key \/ exists i, key = suffixed (safe_key base_key) i)).
Proof.
  unfold add_unique.
  destruct (find_norm (normalize_style style) m) as [ek|] eqn:F.
  - intros [= <- <-]. left. split; [reflexivity|]. now apply find_norm_Some.
  - intros H. right. split; [reflexivity|].
    destruct (PyDict.mem (safe_key base_key) m) eqn:M; cbn [negb] in H.
    + pose proof (probe_new_key _ _ _ _ _ _ _ _ F H) as [G ->].
      repeat split; [exact G | now apply set_absent |].
      right. clear - H. revert H. generalize 1%N as i.
      induction (S (List.length m)) as [|fuel IH]; intros i; cbn [probe]; [discriminate|].
      destruct (PyDict.get (safe_key base_key ++ "-" ++ str_of_N i) m) as [es|].
      * destruct (String.eqb (normalize_style es) (normalize_style style)).
        -- intros [= _ <-]. now exists i.
        -- apply IH.
      * intros [= _ <-]. now exists i.
    + injection H as <- <-.
      assert (PyDict.get (safe_key base_key) m = None) as G
        by (apply get_None_iff; now apply mem_false_iff).
      repeat split; [exact G | now apply set_absent | now left].
Qed.

Lemma digits_safe (d : Decimal.uint) :
  all_chars safe_char (NilEmpty.string_of_uint d) = true.
Proof. induction d; simpl; try rewrite IHd; reflexivity. Qed.

Lemma suffixed_safe (k : string) (i : N) :
  all_chars safe_char k = true -> all_chars safe_char (suffixed k i) = true.
Proof.
  intros H. unfold suffixed. rewrite !all_chars_append, H. simpl.
  apply digits_safe.
Qed.

Lemma append_nonempty (a b : string) : a <> "" -> a ++ b <> "".
Proof. destruct a; [congruence | discriminate]. Qed.

Lemma collect_styles_invariant (cells done : list (string * bool))
    (m : PyDict.dict string string) :
  filed done m ->
  (forall style b, In (style, b) done -> In (normalize_style style) (fingerprints m)) ->
  exists lib,
    fold_left collect_cell cells (Some m) = Some lib
    /\ filed (done ++ cells) lib
    /\ (forall style b, In (style, b) (done ++ cells) ->
          In (normalize_style style) (fingerprints lib))
    /\ (forall k v, In (k, v) m -> In (k, v) lib).
Proof.
  revert done m. induction cells as [|[style b] cells IH]; intros done m Inv Cov.
  - exists m. rewrite app_nil_r. simpl. auto.
  - cbn [fold_left collect_cell fst snd].
    destruct (add_unique_returns m (guess_key_from_style style b) style) as (m' & key & A).
    rewrite A. cbn [option_map fst].
    destruct Inv as (Dk & Df & Prov & Safe & Len).
    assert (filed (done ++ [(style, b)]) m'
            /\ (forall s c, In (s, c) (done ++ [(style, b)]) ->
                  In (normalize_style s) (fingerprints m'))
            /\ (forall k v, In (k, v) m -> In (k, v) m')) as (Inv' & Cov' & Mono).
    { destruct (add_unique_effect _ _ _ _ _ A)
        as [[-> (es & I & E)] | (F & G & -> & K)].
      - split; [|split; [|auto]].
        + split; [exact Dk|]. split; [exact Df|]. split; [|split].
          * intros k v Hkv. destruct (Prov k v Hkv) as (c & Hc).
            exists c. apply in_or_app. now left.
          * exact Safe.
          * rewrite length_app. simpl. lia.
        + intros s c Hs. apply in_app_or in Hs as [Hs | [[= -> ->] | []]].
          * now apply (Cov s c).
          * rewrite <- E. unfold fingerprints.
            apply (in_map (fun kv => normalize_style (snd kv)) _ (key, es)). exact I.
      - split; [|split].
        + split; [|split; [|split; [|split]]].
          * unfold PyDict.keys. rewrite map_app. simpl.
            apply NoDup_app; [exact Dk | repeat constructor; simpl; tauto |].
            intros x Hx [<-|[]]. apply get_None_iff in G. contradiction.
          * unfold fingerprints. rewrite map_app. simpl.
            apply NoDup_app; [exact Df | repeat constructor; simpl; tauto |].
            intros x Hx [<-|[]]. apply in_map_iff in Hx as ([k v] & E & I).
            simpl in E. pose proof (find_norm_None _ _ F k v I) as Q.
            rewrite E, String.eqb_refl in Q. discriminate.
          * intros k v Hkv. apply in_app_or in Hkv as [Hkv | [[= <- <-] | []]].
            -- destruct (Prov k v Hkv) as (c & Hc). exists c. apply in_or_app. now left.
            -- exists b. apply in_or_app. right. now left.
          * intros k Hk. unfold PyDict.keys in Hk. rewrite map_app in Hk.
            apply in_app_or in Hk as [Hk | [<- | []]]; [now apply Safe|].
            destruct (safe_key_file_key (guess_key_from_style style b)) as (Hne & Hs & _).
            simpl. destruct K as [-> | (i & ->)].
            -- now split.
            -- split; [now apply append_nonempty | now apply suffixed_safe].
          * rewrite !length_app. simpl. lia.
        + intros s c Hs. unfold fingerprints. rewrite map_app. apply in_or_app.
          apply in_app_or in Hs as [Hs | [[= -> ->] | []]].
          * left. now apply (Cov s c).
          * right. now left.
        + intros k v Hkv. apply in_or_app. now left. }
    destruct (IH (done ++ [(style, b)])%list m' Inv' Cov') as (lib & E & Inv'' & Cov'' & Mono').
    exists lib. rewrite <- app_assoc in Inv'', Cov''. simpl in Inv'', Cov''.
    split; [exact E|]. split; [exact Inv''|]. split; [exact Cov''|].
    intros k v Hkv. now apply Mono', Mono.
Qed.

End Collect.

(** ** Distances, layers and the grid *)
Section Distances.
Import Drawio.
Variable edges : list edge.
Variable roots : list string.

(** The loop over the successors of [u], for the distances: the nodes met
    for the first time go to the end of the queue, one layer below [u];
    nothing else changes. *)
Lemma visit_all_layers (u : string) (du : nat) (succs : list string) :
  forall q dist vis q' dist' vis',
    (forall x, In x vis <-> In x (PyDict.keys dist)) ->
    NoDup (PyDict.keys dist) ->
    PyDict.get u dist = Some du ->
    fold_left (visit u) succs (Some (q, dist, vis)) = Some (q', dist', vis') ->
    exists new,
      q' = (q ++ new)%list
      /\ (forall x, In x new <-> In x succs /\ ~ In x vis)
      /\ (forall x, In x vis' <-> In x vis \/ In x new)
      /\ (forall x, In x vis' <-> In x (PyDict.keys dist'))
      /\ NoDup (PyDict.keys dist')
      /\ (forall x, In x vis -> PyDict.get x dist' = PyDict.get x dist)
      /\ (forall x, In x new -> PyDict.get x dist' = Some (du + 1)).
Proof.
  induction succs as [|v succs IH]; intros q dist vis q' dist' vis' S D G E.
  - simpl in E. injection E as <- <- <-. exists []. rewrite app_nil_r.
    split; [reflexivity|]. split; [simpl; tauto|]. split; [simpl; tauto|].
    split; [exact S|]. split; [exact D|]. split; [reflexivity | simpl; tauto].
  - cbn [fold_left visit] in E. fold (seen vis v) in E.
    destruct (seen vis v) eqn:Sv.
    + apply seen_In in Sv.
      destruct (IH _ _ _ _ _ _ S D G E) as (new & Eq & N & V & S' & D' & P & L).
      exists new. split; [exact Eq|]. split; [|auto 6].
      intros x. rewrite N. simpl. intuition congruence.
    + apply seen_false in Sv. rewrite G in E.
      assert (v <> u) as Nvu.
      { intros ->. apply Sv, S. apply get_In in G. now apply (in_map fst) in G. }
      assert (PyDict.get v dist = None) as Gv.
      { apply get_None_iff. intros I. now apply Sv, S. }
      destruct (IH (q ++ [v])%list (PyDict.set v (du + 1) dist) (v :: vis) q' dist' vis')
        as (new & Eq & N & V & S' & D' & P & L).
      * intros x. rewrite In_keys_set. simpl. rewrite S. intuition congruence.
      * now apply NoDup_keys_set.
      * now rewrite get_set_other.
      * exact E.
      * exists (v :: new). split; [now rewrite Eq, <- app_assoc|].
        split; [|split; [|split; [exact S'|split; [exact D'|split]]]].
        -- intros x. simpl. rewrite N. simpl.
           destruct (string_dec v x) as [<-|Nx]; [tauto|]. tauto.
        -- intros x. rewrite V. simpl. tauto.
        -- intros x Ix. rewrite P by now right.
           apply get_set_other. intros <-. contradiction.
        -- intros x [<-|Ix]; [|now apply L].
           rewrite P by now left. apply get_set_same.
Qed.

Lemma get_Some_In {V} (x : string) (v : V) (d : PyDict.dict string V) :
  PyDict.get x d = Some v -> In x (PyDict.keys d).
Proof. intros G. apply get_In in G. now apply (in_map fst) in G. Qed.

Lemma In_get_Some {V} (x : string) (d : PyDict.dict string V) :
  In x (PyDict.keys d) -> exists v, PyDict.get x d = Some v.
Proof.
  intros I. destruct (PyDict.get x d) as [v|] eqn:G; [eauto|].
  apply get_None_iff in G. contradiction.
Qed.

Lemma bfs_level_step (k : nat) (u : string) (qa qb : list string)
    (dist : PyDict.dict string nat) (vis : list string) q' dist' vis' :
  level_queue edges roots k (u :: qa) qb dist vis ->
  fold_left (visit u) (successors (adjacency edges) u) (Some ((qa ++ qb)%list, dist, vis))
  = Some (q', dist', vis') ->
  exists new, q' = (qa ++ (qb ++ new))%list /\ level_queue edges roots k qa (qb ++ new)%list dist' vis'.
Proof.
  intros (S & D & A & B & U & C & H & R) E.
  assert (PyDict.get u dist = Some k) as G by (apply A; now left).
  destruct (visit_all_layers u k _ _ _ _ _ _ _ S D G E)
    as (new & Eq & N & V & S' & D' & P & L).
  exists new. split; [now rewrite Eq, app_assoc|].
  assert (forall x d, PyDict.get x dist = Some d -> PyDict.get x dist' = Some d) as keep.
  { intros x d Gx. rewrite P; [exact Gx|]. apply S. now apply get_Some_In in Gx. }
  assert (forall x d, PyDict.get x dist' = Some d ->
            PyDict.get x dist = Some d \/ (In x new /\ d = k + 1)) as back.
  { intros x d Gx. pose proof (get_Some_In _ _ _ Gx) as Ix.
    apply S', V in Ix as [Ix|Ix].
    - left. now rewrite <- P.
    - right. split; [exact Ix|]. rewrite (L x Ix) in Gx. now injection Gx. }
  split; [exact S'|]. split; [exact D'|].
  split; [intros x Ix; apply keep, A; now right|].
  split.
  { intros x Ix. apply in_app_or in Ix as [Ix|Ix]; [now apply keep, B | now apply L]. }
  split.
  { intros w d Gw. apply back in Gw as [Gw|[_ ->]]; [now apply (U w) | lia]. }
  split.
  { intros x y dx Gx Nq Iy.
    assert (forall z, In z (successors (adjacency edges) u) ->
              exists dy, PyDict.get z dist' = Some dy /\ dy <= k + 1) as succ_u.
    { intros z Iz. destruct (in_dec string_dec z vis) as [Iv|Nv].
      - apply S, In_get_Some in Iv as (dz & Gz). exists dz.
        split; [now apply keep | now apply (U z)].
      - exists (k + 1). split; [|lia]. apply L, N. now split. }
    destruct (string_dec x u) as [->|Nu].
    - rewrite (keep u k G) in Gx. injection Gx as <-. now apply succ_u.
    - apply back in Gx as [Gx|[Ix _]].
      + destruct (C x y dx Gx) as (dy & Gy & Ly); [|exact Iy|].
        * intros I. apply Nq. simpl in I. destruct I as [I|I]; [congruence|].
          apply in_app_or in I as [I|I]; apply in_or_app; [now left|].
          right. apply in_or_app. now left.
        * exists dy. split; [now apply keep | exact Ly].
      + exfalso. apply Nq. apply in_or_app. right. apply in_or_app. now right. }
  split.
  { intros v d Gv. apply back in Gv as [Gv|[Iv ->]]; [now apply H|].
    apply N in Iv as [Iv _]. apply adjacency_successors in Iv as (e & Ie & <- & <-).
    replace (k + 1) with (Datatypes.S k) by lia. apply hops_edge; [exact Ie | now apply H]. }
  intros r Ir. now apply keep, R.
Qed.

Lemma level_queue_next (k : nat) (qb : list string)
    (dist : PyDict.dict string nat) (vis : list string) :
  level_queue edges roots k [] qb dist vis -> level_queue edges roots (k + 1) qb [] dist vis.
Proof.
  intros (S & D & A & B & U & C & H & R).
  split; [exact S|]. split; [exact D|]. split; [exact B|].
  split; [intros x []|]. split; [intros w d G; apply U in G; lia|].
  split; [|split; assumption].
  intros x y dx G N. apply C; [exact G|]. now rewrite app_nil_r in N.
Qed.

Lemma bfs_layered (fuel : nat) :
  forall k qa qb dist vis dist',
    level_queue edges roots k qa qb dist vis ->
    bfs fuel (adjacency edges) (qa ++ qb)%list dist vis = Some dist' ->
    layered edges roots dist'.
Proof.
  induction fuel as [|fuel IH]; intros k qa qb dist vis dist' L E.
  - destruct (qa ++ qb)%list as [|u q] eqn:Q; [|discriminate].
    apply app_eq_nil in Q as [-> ->]. simpl in E. injection E as <-.
    destruct L as (S & D & A & B & U & C & H & R).
    split; [exact D|]. split; [exact H|]. split; [exact R|].
    intros x y dx G. apply C; [exact G | tauto].
  - destruct qa as [|u qa].
    + destruct qb as [|u qb].
      * simpl in E. injection E as <-.
        destruct L as (S & D & A & B & U & C & H & R).
        split; [exact D|]. split; [exact H|]. split; [exact R|].
        intros x y dx G. apply C; [exact G | tauto].
      * apply level_queue_next in L. cbn [app bfs] in E.
        destruct (fold_left (visit u) (successors (adjacency edges) u)
                    (Some (qb, dist, vis))) as [[[q' d'] v']|] eqn:F; [|discriminate].
        rewrite <- (app_nil_r qb) in F.
        destruct (bfs_level_step _ _ _ _ _ _ _ _ _ L F) as (new & -> & L').
        exact (IH _ _ _ _ _ _ L' E).
    + cbn [app bfs] in E.
      destruct (fold_left (visit u) (successors (adjacency edges) u)
                  (Some ((qa ++ qb)%list, dist, vis))) as [[[q' d'] v']|] eqn:F; [|discriminate].
      destruct (bfs_level_step _ _ _ _ _ _ _ _ _ L F) as (new & -> & L').
      exact (IH _ _ _ _ _ _ L' E).
Qed.

(** With the layers closed under the edges, the layer of a node is the
    length of the shortest walk to it. *)
Lemma layered_shortest (dist : PyDict.dict string nat) :
  layered edges roots dist ->
  forall v d, PyDict.get v dist = Some d <-> shortest edges roots v d.
Proof.
  intros (D & H & R & C).
  assert (forall n v, hops edges roots n v ->
            exists d, PyDict.get v dist = Some d /\ d <= n) as low.
  { induction 1 as [r I|n e I _ (dx & Gx & Lx)].
    - exists 0. split; [now apply R | lia].
    - destruct (C (e_from e) (e_to e) dx Gx) as (dy & Gy & Ly).
      + apply adjacency_successors. eauto.
      + exists dy. split; [exact Gy | lia]. }
  intros v d. split.
  - intros G. split; [now apply H|].
    intros n Hn. destruct (low n v Hn) as (d' & G' & L'). congruence.
  - intros [Hd M]. destruct (low d v Hd) as (d' & G' & L').
    pose proof (M d' (H v d' G')). now replace d with d' by lia.
Qed.

End Distances.

Section Slots.
Import Drawio.

Lemma assign_all_get {K V A : Type} `{PyKey K} (key : A -> K)
    (val : PyDict.dict K V -> A -> V) (l : list A) :
  forall (acc : PyDict.dict K V) (k : K) (v : V),
    PyDict.get k (assign_all key val l acc) = Some v ->
    PyDict.get k acc = Some v \/ exists a d, In a l /\ key a = k /\ v = val d a.
Proof.
  unfold assign_all.
  induction l as [|a l IH]; intros acc k v G; simpl in G; [now left|].
  destruct (IH _ _ _ G) as [G'|(b & d & I & E & Ev)].
  - destruct (key_eqb_spec (key a) k) as [E|N].
    + rewrite <- E, get_set_same in G'. injection G' as <-.
      right. exists a, acc. split; [now left | now split].
    + left. now rewrite get_set_other in G'.
  - right. exists b, d. split; [now right | now split].
Qed.

Lemma enumerate_In {A} (l : list A) :
  forall (start i : nat) (x : A),
    In (i, x) (PyList.enumerate start l) ->
    exists j, i = start + j /\ nth_error l j = Some x.
Proof.
  induction l as [|y l IH]; intros start i x; simpl; [tauto|].
  intros [E|I].
  - injection E as <- <-. exists 0. split; [lia | reflexivity].
  - destruct (IH _ _ _ I) as (j & -> & N). exists (S j). split; [lia | exact N].
Qed.

Lemma In_set {K V} `{PyKey K} (k k' : K) (v v' : V) (d : PyDict.dict K V) :
  In (k', v') (PyDict.set k v d) -> (k' = k /\ v' = v) \/ In (k', v') d.
Proof.
  induction d as [|[a b] d IH]; simpl.
  - intros [E|[]]. left. now injection E as <- <-.
  - destruct (key_eqb_spec a k) as [->|N]; simpl.
    + intros [E|I]; [left; now injection E as <- <- | tauto].
    + intros [E|I]; [tauto|]. destruct (IH I); tauto.
Qed.

(** The layers hold each layer number once, and a node is in the list of
    the layer [dist] gives it. *)
Lemma group_layers_entries (dist : PyDict.dict string nat) :
  NoDup (PyDict.keys (group_layers dist))
  /\ forall d nids x, In (d, nids) (group_layers dist) -> In x nids -> In (x, d) dist.
Proof.
  unfold group_layers.
  assert (forall acc : PyDict.dict nat (list string),
            NoDup (PyDict.keys acc) ->
            let final :=
              fold_left
                (fun layers kv =>
                   let old := match PyDict.get (snd kv) layers with
                              | Some l => l
                              | None => []
                              end in
                   PyDict.set (snd kv) (old ++ [fst kv])%list layers)
                dist acc in
            NoDup (PyDict.keys final)
            /\ forall d nids x, In (d, nids) final -> In x nids ->
                 (exists nids0, In (d, nids0) acc /\ In x nids0) \/ In (x, d) dist) as gen.
  { induction dist as [|[nid d] dist IH]; intros acc D; cbn [fold_left fst snd].
    - split; [exact D|]. intros d nids x I Ix. left. eauto.
    - edestruct IH as [D' P]; [apply NoDup_keys_set, D|].
      split; [exact D'|].
      intros d' nids x I Ix. destruct (P d' nids x I Ix) as [(nids0 & I0 & Ix0)|I'].
      + apply In_set in I0 as [[-> ->]|I0].
        * apply in_app_or in Ix0 as [Ix0|[<-|[]]].
          -- left. destruct (PyDict.get d acc) as [l|] eqn:G; [|destruct Ix0].
             exists l. split; [now apply get_In | exact Ix0].
          -- right. now left.
        * left. eauto.
      + right. now right. }
  destruct (gen [] (NoDup_nil _)) as [D P].
  split; [exact D|].
  intros d nids x I Ix. destruct (P d nids x I Ix) as [(? & [] & _)|I']. exact I'.
Qed.

(** Every position was given to the node at some place of some layer. *)
Lemma assign_positions_slots (dir : direction)
    (layers : PyDict.dict nat (list string)) (nid : string) (xy : Z * Z) :
  PyDict.get nid (assign_positions dir layers) = Some xy ->
  exists layer nids i,
    In (layer, nids) layers
    /\ nth_error (PyList.sorted String.leb nids) i = Some nid
    /\ xy = place dir layer i.
Proof.
  unfold assign_positions.
  set (L := PyList.sorted (fun a b => Nat.leb (fst a) (fst b)) layers).
  assert (forall acc : PyDict.dict string (Z * Z),
            PyDict.get nid
              (fold_left
                 (fun pos layer_nids =>
                    fold_left
                      (fun pos i_nid =>
                         PyDict.set (snd i_nid)
                           (place dir (fst layer_nids) (fst i_nid)) pos)
                      (PyList.enumerate 0
                         (PyList.sorted String.leb (snd layer_nids)))
                      pos)
                 L acc) = Some xy ->
            PyDict.get nid acc = Some xy
            \/ exists layer nids i,
                 In (layer, nids) L
                 /\ nth_error (PyList.sorted String.leb nids) i = Some nid
                 /\ xy = place dir layer i) as gen.
  { induction L as [|[d nids] L IH]; intros acc G; cbn [fold_left] in G; [now left|].
    destruct (IH _ G) as [G'|(layer & nids' & i & I & N & E)].
    - cbn [fst snd] in G'.
      pose proof (assign_all_get snd (fun _ i_nid => place dir d (fst i_nid))
                    (PyList.enumerate 0 (PyList.sorted String.leb nids)) acc nid xy) as P.
      unfold assign_all in P. destruct (P G') as [Ga|([i x] & _ & I & Ek & Ev)].
      + now left.
      + right. simpl in Ek, Ev. subst x.
        apply enumerate_In in I as (j & -> & N).
        exists d, nids, j. split; [now left | now split].
    - right. exists layer, nids', i. split; [now right | now split]. }
  intros G. destruct (gen [] G) as [G'|(layer & nids & i & I & N & E)]; [discriminate|].
  exists layer, nids, i. split; [|now split].
  unfold L in I. now apply sorted_In in I.
Qed.

Lemma In_unique_value {K V} `{PyKey K} (m : PyDict.dict K V) (k : K) (v v' : V) :
  NoDup (PyDict.keys m) -> In (k, v) m -> In (k, v') m -> v = v'.
Proof.
  intros D I I'. apply (get_of_In m k v D) in I. apply (get_of_In m k v' D) in I'.
  congruence.
Qed.

(** Two places of the grid are a full pitch apart along one axis. *)
Lemma place_apart (dir : direction) (l1 i1 l2 i2 : nat) :
  (l1, i1) <> (l2, i2) ->
  let (x1, y1) := place dir l1 i1 in
  let (x2, y2) := place dir l2 i2 in
  (NODE_W + H_GAP <= Z.abs (x1 - x2) \/ NODE_H + V_GAP <= Z.abs (y1 - y2))%Z.
Proof.
  intros N. unfold place, NODE_W, NODE_H, H_GAP, V_GAP.
  assert (l1 <> l2 \/ i1 <> i2) as [D|D].
  { destruct (Nat.eq_dec l1 l2) as [->|]; [|now left].
    right. intros ->. now elim N. }
  - destruct dir; [right | left]; lia.
  - destruct dir; [left | right]; lia.
Qed.

End Slots.

Section LayoutGrid.
Import Drawio.

Lemma of_pairs_NoDup {V} (l : list (string * V)) :
  NoDup (PyDict.keys (PyDict.of_pairs l)).
Proof.
  unfold PyDict.of_pairs.
  assert (forall acc : PyDict.dict string V,
            NoDup (PyDict.keys acc) ->
            NoDup (PyDict.keys
                     (fold_left (fun d kv => PyDict.set (fst kv) (snd kv) d) l acc))) as gen.
  { induction l as [|kv l IH]; intros acc D; simpl; [exact D|].
    now apply IH, NoDup_keys_set. }
  apply gen. constructor.
Qed.

Lemma zero_layer_get (q : list string) (x : string) (d : nat) :
  PyDict.get x (PyDict.of_pairs (map (fun nid => (nid, 0)) q)) = Some d ->
  In x q /\ d = 0.
Proof.
  intros G.
  pose proof (of_pairs_get (map (fun nid => (nid, 0)) q) [] x) as P.
  cbv zeta in P. fold (PyDict.of_pairs (map (fun nid => (nid, 0)) q)) in P.
  destruct P as [(v & I & G')|[_ G']].
  - apply in_map_iff in I as (y & E & I). injection E as -> <-.
    split; [exact I | congruence].
  - rewrite G in G'. discriminate.
Qed.

Lemma zero_layer_In (q : list string) (x : string) :
  In x q -> PyDict.get x (PyDict.of_pairs (map (fun nid => (nid, 0)) q)) = Some 0.
Proof.
  intros I.
  destruct (In_get_Some x (PyDict.of_pairs (map (fun nid => (nid, 0)) q))) as (d & G).
  - apply of_pairs_keys. rewrite map_map. simpl. now rewrite map_id.
  - destruct (zero_layer_get _ _ _ G) as [_ ->]. exact G.
Qed.

(** The distances [layer_layout] and [choose_direction_auto] compute are
    closed layers. *)
Lemma bfs_layers_layered (spec : graph_spec) (roots : list string)
    (dist : PyDict.dict string nat) :
  layout_roots spec = Some roots -> bfs_layers spec = Some dist ->
  layered (g_edges spec) roots dist.
Proof.
  unfold layout_roots, bfs_layers.
  destruct (build_graph spec) as [nodes_by_id indegree]. cbn [fst snd].
  intros -> B.
  apply (bfs_layered (g_edges spec) roots (bfs_fuel (g_edges spec) roots) 0 roots []
           (PyDict.of_pairs (map (fun nid => (nid, 0)) roots)) roots).
  2:{ now rewrite app_nil_r. }
  split; [|split; [|split; [|split; [|split; [|split; [|split]]]]]].
  - intros x. rewrite of_pairs_keys, map_map. simpl. now rewrite map_id.
  - apply of_pairs_NoDup.
  - apply zero_layer_In.
  - intros x [].
  - intros w d G. apply zero_layer_get in G as [_ ->]. lia.
  - intros x y dx G N. apply zero_layer_get in G as [I _].
    elim N. rewrite app_nil_r. exact I.
  - intros v d G. apply zero_layer_get in G as [I ->]. now apply hops_root.
  - apply zero_layer_In.
Qed.

(** What [layer_layout] returns, in terms of its parts. *)
Lemma layer_layout_parts (spec spec' : graph_spec) (dir : option direction)
    (pos : PyDict.dict string (Z * Z)) :
  layer_layout spec dir = Some (spec', pos) ->
  exists dist,
    bfs_layers spec = Some dist
    /\ match dir with
       | Some d => g_direction spec' = d
       | None => choose_direction_auto spec = Some (g_direction spec')
       end
    /\ g_title spec' = g_title spec
    /\ g_nodes spec' = g_nodes spec
    /\ g_edges spec' = g_edges spec
    /\ pos = assign_positions (g_direction spec') (group_layers dist).
Proof.
  unfold layer_layout.
  destruct (match dir with
            | None => choose_direction_auto spec
            | Some d => Some d
            end) as [d|] eqn:D; [|discriminate].
  change (bfs_layers {| g_title := g_title spec; g_direction := d;
                        g_nodes := g_nodes spec; g_edges := g_edges spec |})
    with (bfs_layers spec).
  destruct (bfs_layers spec) as [dist|]; [|discriminate].
  intros E. injection E as <- <-. exists dist. cbn.
  split; [reflexivity|]. split; [|auto].
  destruct dir as [d'|]; [now injection D | exact D].
Qed.

(** A position is a place of the grid: the layer is the one the traversal
    gave the node. *)
Lemma position_is_place (dir : direction) (dist : PyDict.dict string nat)
    (nid : string) (xy : Z * Z) :
  NoDup (PyDict.keys dist) ->
  PyDict.get nid (assign_positions dir (group_layers dist)) = Some xy ->
  exists layer nids i,
    PyDict.get nid dist = Some layer
    /\ In (layer, nids) (group_layers dist)
    /\ nth_error (PyList.sorted String.leb nids) i = Some nid
    /\ xy = place dir layer i.
Proof.
  intros D G.
  destruct (assign_positions_slots _ _ _ _ G) as (layer & nids & i & I & N & E).
  exists layer, nids, i. split; [|now split].
  apply get_of_In; [exact D|].
  apply (proj2 (group_layers_entries dist) layer nids); [exact I|].
  apply (sorted_In String.leb). eapply nth_error_In. exact N.
Qed.

End LayoutGrid.

Section Indegree.
Import Drawio.

Lemma incoming_app (a b : list edge) (n : string) :
  incoming (a ++ b) n = incoming a n + incoming b n.
Proof. unfold incoming. now rewrite filter_app, length_app. Qed.

Lemma incoming_none (edges : list edge) (n : string) :
  (forall e, In e edges -> e_to e <> n) -> incoming edges n = 0.
Proof.
  unfold incoming. induction edges as [|e edges IH]; intros H; simpl; [reflexivity|].
  destruct (String.eqb_spec (e_to e) n) as [E|_].
  - elim (H e (or_introl eq_refl) E).
  - apply IH. intros e' I. apply H. now right.
Qed.

Lemma incoming_one (e : edge) (n : string) :
  incoming [e] n = if String.eqb (e_to e) n then 1 else 0.
Proof. unfold incoming. simpl. now destruct (String.eqb (e_to e) n). Qed.

Lemma build_graph_step_counts (done : list edge) st (e : edge) :
  counted_edges done st -> counted_edges (done ++ [e]) (build_graph_step st e).
Proof.
  intros (K & T & C).
  destruct (build_graph_step_keys st e K) as (K' & F' & T' & M').
  split; [exact K'|]. split.
  { intros e' I. rewrite <- K'. apply in_app_or in I as [I|[<-|[]]]; [|exact T'].
    apply M'. rewrite K. now apply T. }
  clear K' F' T' M'.
  destruct st as [nb ind]. unfold in_step in K. cbn [fst snd] in *.
  intros n c. rewrite incoming_app, incoming_one.
  unfold build_graph_step.
  set (st1 := match PyDict.get (e_to e) ind with
              | Some d => (nb, PyDict.set (e_to e) (d + 1) ind)
              | None => (PyDict.setdefault (e_to e) (placeholder (e_to e)) nb,
                         PyDict.set (e_to e) 1 ind)
              end).
  assert (PyDict.keys (fst st1) = PyDict.keys (snd st1)
          /\ In (e_to e) (PyDict.keys (snd st1))
          /\ (forall x, In x (PyDict.keys ind) -> In x (PyDict.keys (snd st1)))
          /\ (forall x k, PyDict.get x (snd st1) = Some k ->
                k = incoming done x + (if String.eqb (e_to e) x then 1 else 0)))
    as (K1 & T1 & M1 & C1).
  { unfold st1. destruct (PyDict.get (e_to e) ind) as [d|] eqn:G; cbn [fst snd].
    - assert (In (e_to e) (PyDict.keys ind)) as I by now apply get_Some_In in G.
      rewrite keys_set_present by exact I.
      split; [exact K|]. split; [exact I|]. split; [auto|].
      intros x k. destruct (String.eqb_spec (e_to e) x) as [<-|N].
      + rewrite get_set_same. intros [= <-]. now rewrite (C _ _ G).
      + rewrite get_set_other by exact N. intros Gx. rewrite (C _ _ Gx). lia.
    - pose proof G as G'. apply get_None_iff in G.
      rewrite keys_setdefault, keys_set_absent by exact G.
      assert (PyDict.mem (e_to e) nb = false) as ->
        by (apply mem_false_iff; now rewrite K).
      rewrite K. split; [reflexivity|].
      split; [apply in_or_app; right; now left|].
      split; [intros x I; apply in_or_app; now left|].
      intros x k. destruct (String.eqb_spec (e_to e) x) as [<-|N].
      + rewrite get_set_same. intros [= <-].
        rewrite incoming_none; [reflexivity|].
        intros e' I E. apply G. rewrite <- E. now apply T.
      + rewrite get_set_other by exact N. intros Gx. rewrite (C _ _ Gx). lia. }
  destruct st1 as [nb1 ind1]. cbn [fst snd] in *.
  destruct (PyDict.mem (e_from e) nb1) eqn:M; cbn [negb fst snd]; [apply C1|].
  assert (~ In (e_from e) (PyDict.keys ind1)) as N1
    by (rewrite <- K1; now apply mem_false_iff).
  unfold PyDict.setdefault at 1.
  assert (PyDict.mem (e_from e) ind1 = false) as -> by now apply mem_false_iff.
  destruct (String.eqb_spec (e_from e) n) as [<-|N].
  - rewrite get_set_same. intros [= <-].
    rewrite incoming_none.
    + destruct (String.eqb_spec (e_to e) (e_from e)) as [E|_]; [|reflexivity].
      elim N1. now rewrite <- E.
    + intros e' I E. apply N1, M1. rewrite <- E. now apply T.
  - rewrite get_set_other by exact N. apply C1.
Qed.

Lemma build_graph_counts (edges : list edge) :
  forall done st,
    counted_edges done st ->
    counted_edges (done ++ edges) (fold_left build_graph_step edges st).
Proof.
  induction edges as [|e edges IH]; intros done st C; cbn [fold_left].
  - now rewrite app_nil_r.
  - replace (done ++ e :: edges)%list with ((done ++ [e]) ++ edges)%list
      by (now rewrite <- app_assoc).
    apply IH. now apply build_graph_step_counts.
Qed.

Lemma build_graph_counted (spec : graph_spec) :
  counted_edges (g_edges spec) (build_graph spec).
Proof.
  rewrite build_graph_eq. apply (build_graph_counts (g_edges spec) []).
  split; [apply build_graph_start|]. split; [intros e []|].
  cbn [snd]. intros n c G. apply get_In in G.
  apply in_map_iff in G as ([k v] & E & _). now injection E as _ <-.
Qed.

End Indegree.

Section Roots.
Import Drawio.

Lemma build_graph_NoDup (spec : graph_spec) :
  NoDup (PyDict.keys (fst (build_graph spec))).
Proof.
  rewrite build_graph_eq.
  assert (forall edges st,
            NoDup (PyDict.keys (fst st)) ->
            NoDup (PyDict.keys (fst (fold_left build_graph_step edges st)))) as gen.
  { induction edges as [|e edges IH]; intros st D; cbn [fold_left]; [exact D|].
    apply IH. destruct st as [nb ind]. cbn [fst] in *. unfold build_graph_step.
    assert (forall (k : string) (v : node) (d : PyDict.dict string node),
              NoDup (PyDict.keys d) ->
              NoDup (PyDict.keys (PyDict.setdefault k v d))) as sd.
    { intros k v d Dd. unfold PyDict.setdefault.
      destruct (PyDict.mem k d); [exact Dd | now apply NoDup_keys_set]. }
    destruct (PyDict.get (e_to e) ind); cbv beta iota;
      match goal with
      | |- context [PyDict.mem (e_from e) ?m] => destruct (PyDict.mem (e_from e) m)
      end; cbn [negb fst]; repeat apply sd; exact D. }
  apply gen. cbn [fst]. apply of_pairs_NoDup.
Qed.

Lemma zero_indegree_sources (spec : graph_spec) :
  map fst (filter (fun kv => Nat.eqb (snd kv) 0) (snd (build_graph spec)))
  = sources spec.
Proof.
  unfold sources.
  destruct (build_graph_counted spec) as (K & _ & C). unfold in_step in K.
  pose proof (build_graph_NoDup spec) as D. rewrite K in *.
  set (ind := snd (build_graph spec)) in *.
  assert (forall n c, In (n, c) ind -> c = incoming (g_edges spec) n) as Ci.
  { intros n c I. apply C. now apply get_of_In. }
  clear C D K. induction ind as [|[n c] ind IH]; [reflexivity|].
  cbn [filter map PyDict.keys fst snd].
  rewrite <- (Ci n c (or_introl eq_refl)).
  change (map fst ind) with (PyDict.keys ind).
  rewrite <- IH by (intros; apply Ci; now right).
  now destruct (Nat.eqb c 0).
Qed.

End Roots.

Section Page.
Import Drawio.

Lemma fold_max_ge (l : list Z) (a : Z) :
  (a <= fold_left Z.max l a)%Z /\ forall x, In x l -> (x <= fold_left Z.max l a)%Z.
Proof.
  revert a. induction l as [|y l IH]; intros a; simpl; [split; [lia | tauto]|].
  destruct (IH (Z.max a y)) as [Ha Hl]. split; [lia|].
  intros x [<-|I]; [lia | now apply Hl].
Qed.

Lemma max_coord_ge (l : list Z) (x : Z) : In x l -> (x <= max_coord l)%Z.
Proof.
  destruct l as [|y l]; [intros []|]. simpl.
  destruct (fold_max_ge l y) as [Hy Hl]. intros [<-|I]; [exact Hy | now apply Hl].
Qed.

End Page.

(** ** The converters *)
Section Numbered.
Import Drawio.

Lemma digits_are_digits (d : Decimal.uint) :
  all_chars is_digit (NilEmpty.string_of_uint d) = true.
Proof. induction d; simpl; try rewrite IHd; reflexivity. Qed.

Lemma str_of_N_digits (i : N) : all_chars is_digit (str_of_N i) = true.
Proof. apply digits_are_digits. Qed.

Lemma numbered_converter_id (c : ascii) (i : N) :
  is_upper c = true -> converter_id (String c (str_of_N i)) = true.
Proof.
  intros U. simpl. rewrite U. simpl.
  apply (all_chars_impl is_digit); [|apply str_of_N_digits].
  intros x ->. reflexivity.
Qed.

Lemma numbered_inj (prefix : string) (a b : N) :
  prefix ++ str_of_N a = prefix ++ str_of_N b -> a = b.
Proof. intros E. apply append_inj_r in E. now apply str_of_N_inj. Qed.

Lemma numbered_NoDup (prefix : string) (n : nat) : NoDup (numbered prefix n).
Proof.
  unfold numbered. apply Finite.Injective_map_NoDup; [|apply seq_NoDup].
  intros a b E. apply numbered_inj in E. lia.
Qed.

Lemma numbered_from (prefix : string) (i : N) (n : nat) :
  map (fun j => prefix ++ str_of_N (i + N.of_nat j)) (seq 0 n)
  = map (fun j => prefix ++ str_of_N (N.of_nat j)) (seq (N.to_nat i) n).
Proof.
  revert i. induction n as [|n IH]; intros i; [reflexivity|].
  cbn [seq map]. f_equal.
  - f_equal. f_equal. lia.
  - rewrite <- (seq_shift n 0), map_map.
    replace (S (N.to_nat i)) with (N.to_nat (i + 1)) by lia.
    rewrite <- IH. apply map_ext.
    intros j. f_equal. f_equal. lia.
Qed.

(** The converters' identifiers pass [xml_attr] unchanged and are no edge
    identifier and no identifier of the two root cells. *)
Lemma plain_chars_attr (s : string) :
  all_chars (fun x => is_digit x || is_upper x) s = true -> xml_attr (Some s) = s.
Proof.
  rewrite xml_attr_chars. induction s as [|c s IH]; simpl; [reflexivity|].
  intros H. apply andb_prop in H as [Hc Hs]. rewrite (IH Hs).
  clear - Hc. each_char c; vm_compute in Hc; try discriminate; reflexivity.
Qed.

Lemma converter_id_written (s : string) :
  converter_id s = true ->
  xml_attr (Some s) = s /\ s <> "0" /\ s <> "1" /\ forall k, s <> edge_id k.
Proof.
  destruct s as [|c r]; [discriminate|]. simpl. intros H.
  apply andb_prop in H as [U R].
  split.
  { apply plain_chars_attr. simpl. now rewrite U, R, orb_true_r. }
  repeat split; intros; intros E; injection E as -> _; vm_compute in U; discriminate.
Qed.

End Numbered.

Section Converters.
Import Drawio.

(** The proof for a loop that numbers the elements of a list: the
    identifiers are consecutive, and the dictionary gains identifiers of
    the new nodes only. *)

(** The proof for a loop that numbers the elements of a list: the
    identifiers are consecutive, the dictionary gains the names of the
    elements, bound to identifiers of the new nodes. *)
Ltac numbered_loop f :=
  let l := fresh "l" in
  let x := fresh "x" in
  let IH := fresh "IH" in
  let i := fresh "i" in
  let m := fresh "m" in
  let nodes := fresh "nodes" in
  let final := fresh "final" in
  let Ids := fresh "Ids" in
  let Vals := fresh "Vals" in
  let Keys := fresh "Keys" in
  let k := fresh "k" in
  let v := fresh "v" in
  let G := fresh "G" in
  let G' := fresh "G'" in
  let I := fresh "I" in
  let N := fresh "N" in
  let j := fresh "j" in
  intros l; induction l as [|x l IH]; intros i m; cbn [f];
  [ cbn; split; [reflexivity|]; split; [auto | tauto]
  | match goal with
    | |- context [f ?i' l ?m'] =>
        specialize (IH i' m'); destruct (f i' l m') as [nodes final]
    end;
    cbn [fst snd] in *; destruct IH as (Ids & Vals & Keys);
    split; [|split];
    [ cbn [map List.length seq n_id]; f_equal;
      [ f_equal; f_equal; lia
      | rewrite Ids, <- seq_shift, map_map; apply map_ext;
        intros j; f_equal; f_equal; lia ]
    | intros k v G; destruct (Vals k v G) as [G'|I]; [|right; now right];
      match type of G' with
      | PyDict.get k (PyDict.set ?key _ _) = _ =>
          destruct (String.eqb_spec key k) as [<-|N];
          [ rewrite get_set_same in G'; injection G' as <-; right; now left
          | rewrite get_set_other in G' by exact N; now left ]
      end
    | intros k; rewrite Keys, In_keys_set; simpl; intuition congruence ] ].

Lemma er_nodes_ids :
  forall (ents : list er_entity) (i : N) (m : PyDict.dict string string),
    map n_id (fst (er_nodes i ents m))
    = map (fun j => "E" ++ str_of_N (i + N.of_nat j)) (seq 0 (List.length ents))
    /\ (forall k v, PyDict.get k (snd (er_nodes i ents m)) = Some v ->
          PyDict.get k m = Some v \/ In v (map n_id (fst (er_nodes i ents m))))
    /\ (forall k, In k (PyDict.keys (snd (er_nodes i ents m)))
          <-> In k (PyDict.keys m) \/ In k (map ent_name ents)).
Proof. numbered_loop er_nodes. Qed.

Lemma class_nodes_ids :
  forall (classes : list uml_class) (i : N) (m : PyDict.dict string string),
    map n_id (fst (class_nodes i classes m))
    = map (fun j => "C" ++ str_of_N (i + N.of_nat j)) (seq 0 (List.length classes))
    /\ (forall k v, PyDict.get k (snd (class_nodes i classes m)) = Some v ->
          PyDict.get k m = Some v \/ In v (map n_id (fst (class_nodes i classes m))))
    /\ (forall k, In k (PyDict.keys (snd (class_nodes i classes m)))
          <-> In k (PyDict.keys m) \/ In k (map cls_name classes)).
Proof. numbered_loop class_nodes. Qed.

Lemma activity_nodes_ids :
  forall (activities : list activity) (i : N) (m : PyDict.dict string string),
    map n_id (fst (activity_nodes i activities m))
    = map (fun j => "A" ++ str_of_N (i + N.of_nat j)) (seq 0 (List.length activities))
    /\ (forall k v, PyDict.get k (snd (activity_nodes i activities m)) = Some v ->
          PyDict.get k m = Some v
          \/ In v (map n_id (fst (activity_nodes i activities m))))
    /\ (forall k, In k (PyDict.keys (snd (activity_nodes i activities m)))
          <-> In k (PyDict.keys m) \/ In k (map act_id activities)).
Proof. numbered_loop activity_nodes. Qed.

Lemma actor_nodes_ids :
  forall (actors : list string) (i : N) (m : PyDict.dict string string),
    map n_id (fst (actor_nodes i actors m))
    = map (fun j => "A" ++ str_of_N (i + N.of_nat j)) (seq 0 (List.length actors))
    /\ (forall k v, PyDict.get k (snd (actor_nodes i actors m)) = Some v ->
          PyDict.get k m = Some v \/ In v (map n_id (fst (actor_nodes i actors m))))
    /\ (forall k, In k (PyDict.keys (snd (actor_nodes i actors m)))
          <-> In k (PyDict.keys m) \/ In k (map (fun a => a) actors)).
Proof. numbered_loop actor_nodes. Qed.

Lemma usecase_nodes_ids :
  forall (usecases : list string) (i : N) (m : PyDict.dict string string),
    map n_id (fst (usecase_nodes i usecases m))
    = map (fun j => "U" ++ str_of_N (i + N.of_nat j)) (seq 0 (List.length usecases))
    /\ (forall k v, PyDict.get k (snd (usecase_nodes i usecases m)) = Some v ->
          PyDict.get k m = Some v \/ In v (map n_id (fst (usecase_nodes i usecases m))))
    /\ (forall k, In k (PyDict.keys (snd (usecase_nodes i usecases m)))
          <-> In k (PyDict.keys m) \/ In k (map (fun u => u) usecases)).
Proof. numbered_loop usecase_nodes. Qed.

Lemma numbered_from_one (prefix : string) (n : nat) :
  map (fun j => prefix ++ str_of_N (1 + N.of_nat j)) (seq 0 n) = numbered prefix n.
Proof. apply (numbered_from prefix 1 n). Qed.

Lemma numbered_ids (prefix : ascii) (n : nat) (s : string) :
  is_upper prefix = true -> In s (numbered (String prefix "") n) -> converter_id s = true.
Proof.
  intros U I. apply in_map_iff in I as (j & <- & _).
  now apply numbered_converter_id.
Qed.

(** The edges of a converter that looks both ends up in its dictionary. *)
Lemma looked_up_edges {R : Type} (m : PyDict.dict string string) (ids : list string)
    (ends : R -> option string * option string) (label : R -> string)
    (rels : list R) (e : edge) :
  (forall k v, PyDict.get k m = Some v -> In v ids) ->
  In e (flat_map
          (fun r =>
             match lookup_name m (fst (ends r)), lookup_name m (snd (ends r)) with
             | Some a, Some b => [ {| e_from := a; e_to := b; e_label := label r |} ]
             | _, _ => []
             end)
          rels) ->
  In (e_from e) ids /\ In (e_to e) ids.
Proof.
  intros V I. apply in_flat_map in I as (r & _ & I).
  destruct (lookup_name m (fst (ends r))) as [a|] eqn:A; [|destruct I].
  destruct (lookup_name m (snd (ends r))) as [b|] eqn:B; [|destruct I].
  destruct I as [<-|[]]. cbn [e_from e_to].
  unfold lookup_name in A, B.
  destruct (fst (ends r)) as [ka|]; [|discriminate].
  destruct (snd (ends r)) as [kb|]; [|discriminate].
  split; eapply V; eassumption.
Qed.

Lemma nodes_edges_er_closed (d : er_spec) :
  node_ids (nodes_edges_er d) = numbered "E" (List.length (er_entities d))
  /\ edges_join_nodes (nodes_edges_er d).
Proof.
  unfold nodes_edges_er, node_ids, edges_join_nodes.
  destruct (er_nodes_ids (er_entities d) 1 []) as (Ids & Vals & _).
  destruct (er_nodes 1 (er_entities d) []) as [nodes m]. cbn [fst snd g_nodes g_edges] in *.
  rewrite numbered_from_one in Ids. split; [exact Ids|].
  intros e I. unfold er_edges in I. apply in_flat_map in I as (r & _ & I).
  destruct (PyDict.get (splitf_fst (r_from r)) m) as [a|] eqn:A; [|destruct I].
  destruct (PyDict.get (splitf_fst (r_to r)) m) as [b|] eqn:B; [|destruct I].
  destruct I as [<-|[]]. cbn [e_from e_to].
  destruct (Vals _ _ A) as [F|Ia]; [discriminate|].
  destruct (Vals _ _ B) as [F|Ib]; [discriminate|]. now split.
Qed.

Lemma nodes_edges_class_closed (d : class_spec) :
  node_ids (nodes_edges_class d) = numbered "C" (List.length (cs_classes d))
  /\ edges_join_nodes (nodes_edges_class d).
Proof.
  unfold nodes_edges_class, node_ids, edges_join_nodes.
  destruct (class_nodes_ids (cs_classes d) 1 []) as (Ids & Vals & _).
  destruct (class_nodes 1 (cs_classes d) []) as [nodes m]. cbn [fst snd g_nodes g_edges] in *.
  rewrite numbered_from_one in Ids. split; [exact Ids|].
  intros e I. unfold class_edges in I. apply in_flat_map in I as (r & _ & I).
  destruct (PyDict.get (cr_from r) m) as [a|] eqn:A; [|destruct I].
  destruct (PyDict.get (cr_to r) m) as [b|] eqn:B; [|destruct I].
  destruct I as [<-|[]]. cbn [e_from e_to].
  destruct (Vals _ _ A) as [F|Ia]; [discriminate|].
  destruct (Vals _ _ B) as [F|Ib]; [discriminate|]. now split.
Qed.

Lemma nodes_edges_activity_closed (d : activity_spec) :
  node_ids (nodes_edges_activity d) = numbered "A" (List.length (as_activities d))
  /\ edges_join_nodes (nodes_edges_activity d).
Proof.
  unfold nodes_edges_activity, node_ids, edges_join_nodes.
  destruct (activity_nodes_ids (as_activities d) 1 []) as (Ids & Vals & _).
  destruct (activity_nodes 1 (as_activities d) []) as [nodes m].
  cbn [fst snd g_nodes g_edges] in *.
  rewrite numbered_from_one in Ids. split; [exact Ids|].
  intros e I. unfold activity_edges in I.
  apply (looked_up_edges m (map n_id nodes)
           (fun r => (ae_from r, ae_to r)) ae_label (as_edges d) e); [|exact I].
  intros k v G. destruct (Vals _ _ G) as [F|Iv]; [discriminate | exact Iv].
Qed.

Lemma nodes_edges_usecase_closed (d : usecase_spec) :
  node_ids (nodes_edges_usecase d)
  = (numbered "A" (List.length (us_actors d))
     ++ numbered "U" (List.length (us_usecases d)))%list
  /\ edges_join_nodes (nodes_edges_usecase d).
Proof.
  unfold nodes_edges_usecase, node_ids, edges_join_nodes.
  destruct (actor_nodes_ids (us_actors d) 1 []) as (IdsA & ValsA & _).
  destruct (actor_nodes 1 (us_actors d) []) as [actors m]. cbn [fst snd] in *.
  destruct (usecase_nodes_ids (us_usecases d) 1 m) as (IdsU & ValsU & _).
  destruct (usecase_nodes 1 (us_usecases d) m) as [usecases m'].
  cbn [fst snd g_nodes g_edges] in *.
  rewrite numbered_from_one in IdsA, IdsU. rewrite map_app, IdsA, IdsU.
  split; [reflexivity|].
  intros e I. unfold usecase_edges in I. unfold node_ids. cbn [g_nodes].
  apply (looked_up_edges m' (map n_id (actors ++ usecases))
           (fun r => (ur_from r, ur_to r))
           (fun r => label_or_type (ur_label r) (ur_type r)) (us_relations d) e);
    [|exact I].
  intros k v G. rewrite map_app. apply in_or_app.
  destruct (ValsU _ _ G) as [G'|Iv]; [|now right].
  destruct (ValsA _ _ G') as [F|Iv]; [discriminate | now left].
Qed.

Lemma enumerate_fst {A} (l : list A) (start : nat) :
  map fst (PyList.enumerate start l) = seq start (List.length l).
Proof.
  revert start. induction l as [|x l IH]; intros start; simpl; [reflexivity|].
  now rewrite IH.
Qed.

Lemma index_lt (x : string) (l : list string) (i : nat) :
  PyList.index x l = Some i -> i < List.length l /\ nth_error l i = Some x.
Proof.
  revert i. induction l as [|y l IH]; intros i; simpl; [discriminate|].
  destruct (String.eqb_spec y x) as [->|N].
  - intros [= <-]. split; [lia | reflexivity].
  - destruct (PyList.index x l) as [j|]; [|discriminate].
    intros [= <-]. destruct (IH j eq_refl). split; [lia | assumption].
Qed.

Lemma index_first (x : string) (l : list string) (i : nat) :
  PyList.index x l = Some i -> forall j, j < i -> nth_error l j <> Some x.
Proof.
  revert i. induction l as [|y l IH]; intros i; simpl; [discriminate|].
  destruct (String.eqb_spec y x) as [->|N].
  - intros [= <-] j L. lia.
  - destruct (PyList.index x l) as [k|]; [|discriminate].
    intros [= <-] [|j] L; simpl; [congruence|].
    apply (IH k eq_refl). lia.
Qed.

Lemma nodes_edges_sequence_closed (d : sequence_spec) :
  node_ids (nodes_edges_sequence d) = numbered "P" (List.length (sq_participants d))
  /\ edges_join_nodes (nodes_edges_sequence d).
Proof.
  assert (node_ids (nodes_edges_sequence d)
          = numbered "P" (List.length (sq_participants d))) as Ids.
  { unfold node_ids, nodes_edges_sequence, numbered. cbn [g_nodes].
    rewrite map_map. cbn [n_id].
    rewrite <- (enumerate_fst (sq_participants d) 1), map_map. reflexivity. }
  split; [exact Ids|].
  intros e I. rewrite Ids. unfold nodes_edges_sequence in I. cbn [g_edges] in I.
  apply in_flat_map in I as (m & _ & I). unfold sequence_edge in I.
  destruct (in_names (msg_from m) (sq_participants d)
            && in_names (msg_to m) (sq_participants d)); [|destruct I].
  destruct (msg_from m) as [a|]; [|destruct I].
  destruct (msg_to m) as [b|]; [|destruct I].
  destruct (PyList.index a (sq_participants d)) as [i|] eqn:A; [|destruct I].
  destruct (PyList.index b (sq_participants d)) as [j|] eqn:B; [|destruct I].
  destruct I as [<-|[]]. cbn [e_from e_to].
  apply index_lt in A as [A _]. apply index_lt in B as [B _].
  unfold numbered, participant_id.
  split; apply (in_map (fun i => "P" ++ str_of_N (N.of_nat i))); apply in_seq; lia.
Qed.

Lemma length_set_ge {V} (k : string) (v : V) (d : PyDict.dict string V) :
  List.length d <= List.length (PyDict.set k v d).
Proof.
  induction d as [|[a b] d IH]; cbn [PyDict.set List.length]; [lia|].
  destruct (key_eqb a k); cbn [List.length]; lia.
Qed.

Lemma state_named_inv (nid label : string) (shape : shape_kind)
    (name : string) (acc : state_acc) :
  nid = "S0" \/ nid = "SE" ->
  state_inv acc -> ~ In nid (map n_id (fst acc)) ->
  state_inv ((fst acc ++ [ {| n_id := nid; n_label := label;
                              n_shape := shape; n_html := true |} ])%list,
             PyDict.set name nid (snd acc)).
Proof.
  intros Hn (Dn & Dk & V & F) N. unfold state_inv. cbn [fst snd].
  split; [|split; [|split]].
  - rewrite map_app. simpl. apply NoDup_app; [exact Dn | repeat constructor; simpl; tauto|].
    intros x Ix [<-|[]]. contradiction.
  - now apply NoDup_keys_set.
  - intros k v G. rewrite map_app. apply in_or_app.
    destruct (String.eqb_spec name k) as [<-|Nk].
    + rewrite get_set_same in G. injection G as <-. right. now left.
    + rewrite get_set_other in G by exact Nk. left. now apply (V k).
  - intros x Ix. rewrite map_app in Ix. apply in_app_or in Ix as [Ix|[<-|[]]].
    + destruct (F x Ix) as [E|[E|(j & L & E)]]; [tauto | tauto |].
      right. right. exists j. split; [|exact E].
      pose proof (length_set_ge name nid (snd acc)). lia.
    + simpl. tauto.
Qed.

Lemma S_numbered_not_named (j : nat) :
  1 <= j ->
  "S" ++ str_of_N (N.of_nat j) <> "S0" /\ "S" ++ str_of_N (N.of_nat j) <> "SE".
Proof.
  intros L. split; intros E; apply (append_inj_r "S") in E.
  - change "0" with (str_of_N 0) in E. apply str_of_N_inj in E. lia.
  - pose proof (str_of_N_digits (N.of_nat j)) as D. rewrite E in D. discriminate.
Qed.

Lemma state_step_inv (acc : state_acc) (s : string) :
  state_inv acc -> state_inv (state_step acc s).
Proof.
  intros Inv. unfold state_step.
  destruct (PyDict.mem s (snd acc)) eqn:M; cbn [negb]; [exact Inv|].
  destruct Inv as (Dn & Dk & V & F).
  assert (PyDict.get s (snd acc) = None) as G
    by (apply get_None_iff; now apply mem_false_iff).
  set (nid := "S" ++ str_of_N (N.of_nat (List.length (snd acc) + 1))).
  unfold state_inv. cbn [fst snd]. split; [|split; [|split]].
  - rewrite map_app. simpl. apply NoDup_app; [exact Dn | repeat constructor; simpl; tauto|].
    intros x Ix [<-|[]].
    destruct (S_numbered_not_named (List.length (snd acc) + 1)) as [N0 NE]; [lia|].
    destruct (F _ Ix) as [E|[E|(j & L & E)]]; [contradiction | contradiction |].
    apply numbered_inj in E. lia.
  - now apply NoDup_keys_set.
  - intros k v Gk. rewrite map_app. apply in_or_app.
    destruct (String.eqb_spec s k) as [<-|Nk].
    + rewrite get_set_same in Gk. injection Gk as <-. right. now left.
    + rewrite get_set_other in Gk by exact Nk. left. now apply (V k).
  - intros x Ix. rewrite (length_set_absent _ _ _ G).
    rewrite map_app in Ix. apply in_app_or in Ix as [Ix|[<-|[]]].
    + destruct (F x Ix) as [E|[E|(j & L & E)]]; [tauto | tauto |].
      right. right. exists j. split; [lia | exact E].
    + right. right. exists (List.length (snd acc) + 1). split; [lia | reflexivity].
Qed.

Lemma state_inv_empty : state_inv ([], []).
Proof.
  unfold state_inv. simpl. split; [constructor|]. split; [constructor|].
  split; [intros k v G; discriminate | intros x []].
Qed.

Lemma state_nodes_inv (d : state_spec) : state_inv (state_nodes d).
Proof.
  unfold state_nodes.
  assert (state_inv (state_end (ss_end d) (state_start (ss_start d) ([], [])))) as Inv.
  { assert (state_inv (state_start (ss_start d) ([], []))
            /\ ~ In "SE" (map n_id (fst (state_start (ss_start d) ([], [])))))
      as [Inv N].
    { unfold state_start. destruct (truthy (ss_start d)) as [s|].
      - split.
        + apply (state_named_inv "S0" _ round s ([], []));
            [now left | apply state_inv_empty | simpl; tauto].
        + simpl. intros [E|[]]. discriminate.
      - split; [apply state_inv_empty | simpl; tauto]. }
    unfold state_end. destruct (truthy (ss_end d)) as [s|]; [|exact Inv].
    apply (state_named_inv "SE" _ rect s); [now right | exact Inv | exact N]. }
  revert Inv. generalize (state_end (ss_end d) (state_start (ss_start d) ([], []))).
  induction (ss_states d) as [|s l IH]; intros acc Inv; cbn [fold_left]; [exact Inv|].
  apply IH. now apply state_step_inv.
Qed.

Lemma nodes_edges_state_closed (d : state_spec) :
  NoDup (node_ids (nodes_edges_state d))
  /\ edges_join_nodes (nodes_edges_state d)
  /\ (forall x, In x (node_ids (nodes_edges_state d)) -> converter_id x = true).
Proof.
  pose proof (state_nodes_inv d) as (Dn & Dk & V & F).
  unfold nodes_edges_state, node_ids, edges_join_nodes.
  destruct (state_nodes d) as [nodes ids]. cbn [fst snd g_nodes g_edges] in *.
  split; [exact Dn|]. split.
  - intros e I. unfold state_edges in I. apply in_flat_map in I as (t & _ & I).
    destruct (state_id ids (tr_from t)) as [a|] eqn:A; [|destruct I].
    destruct (state_id ids (tr_to t)) as [b|] eqn:B; [|destruct I].
    destruct I as [<-|[]]. unfold node_ids. cbn [e_from e_to g_nodes].
    unfold state_id in A, B.
    destruct (tr_from t) as [ka|]; [|discriminate].
    destruct (tr_to t) as [kb|]; [|discriminate].
    destruct (PyDict.get ka ids) as [[|c a']|] eqn:Ga; try discriminate.
    destruct (PyDict.get kb ids) as [[|c' b']|] eqn:Gb; try discriminate.
    injection A as <-. injection B as <-. split; eapply V; eassumption.
  - intros x Ix. destruct (F x Ix) as [->|[->|(j & _ & ->)]]; try reflexivity.
    now apply (numbered_converter_id "S").
Qed.

End Converters.

Section ClosedGraphs.
Import Drawio.

Lemma of_pairs_distinct {V} (l : list (string * V)) :
  NoDup (map fst l) -> PyDict.of_pairs l = l.
Proof.
  unfold PyDict.of_pairs.
  assert (forall acc : PyDict.dict string V,
            NoDup (map fst (acc ++ l)) ->
            fold_left (fun d kv => PyDict.set (fst kv) (snd kv) d) l acc
            = (acc ++ l)%list) as gen.
  { induction l as [|[k v] l IH]; intros acc D; cbn [fold_left fst snd].
    - now rewrite app_nil_r.
    - rewrite set_absent.
      + rewrite IH; rewrite <- app_assoc; [reflexivity | exact D].
      + apply get_None_iff. unfold PyDict.keys.
        rewrite map_app in D. cbn [map fst] in D. apply NoDup_remove_2 in D.
        intros I. apply D, in_or_app. now left. }
  intros D. now apply (gen []).
Qed.


(** On a specification whose edges join declared nodes, [build_graph] makes
    no placeholder: its node dictionary is the list of the declared nodes. *)
Lemma build_graph_closed (spec : graph_spec) :
  NoDup (node_ids spec) -> edges_join_nodes spec ->
  fst (build_graph spec) = map (fun n => (n_id n, n)) (g_nodes spec).
Proof.
  intros D J. rewrite build_graph_eq.
  assert (declared_nodes spec = map (fun n => (n_id n, n)) (g_nodes spec)) as Dn.
  { unfold declared_nodes. apply of_pairs_distinct. now rewrite map_map. }
  assert (forall edges st,
            in_step st ->
            (forall e, In e edges ->
               In (e_from e) (PyDict.keys (fst st)) /\ In (e_to e) (PyDict.keys (fst st))) ->
            fst (fold_left build_graph_step edges st) = fst st) as gen.
  { induction edges as [|e edges IH]; intros st K E; cbn [fold_left]; [reflexivity|].
    destruct (E e (or_introl eq_refl)) as [If It].
    assert (fst (build_graph_step st e) = fst st) as Est.
    { destruct st as [nb ind]. unfold in_step in K. cbn [fst snd] in *.
      unfold build_graph_step.
      rewrite K in It. apply In_get_Some in It as (c & ->).
      apply mem_In in If. now rewrite If. }
    rewrite IH.
    - exact Est.
    - now apply build_graph_step_keys.
    - intros e' I. rewrite Est. apply E. now right. }
  rewrite gen.
  - exact Dn.
  - apply build_graph_start.
  - cbn [fst]. intros e I. rewrite Dn. unfold PyDict.keys. rewrite map_map.
    now apply J.
Qed.

(** The layout of such a specification raises exactly when it has no
    node. *)
Lemma layer_layout_closed (spec : graph_spec) (dir : option direction) :
  edges_join_nodes spec ->
  layer_layout spec dir = None <-> g_nodes spec = [].
Proof.
  intros J. split.
  - intros L. destruct (g_nodes spec) as [|n l] eqn:E; [reflexivity|].
    exfalso.
    destruct (bfs_layers_returns spec) as (roots & dist & _ & _ & B & _);
      [left; now rewrite E|].
    unfold layer_layout in L.
    destruct dir as [d|].
    + change (bfs_layers {| g_title := g_title spec; g_direction := d;
                            g_nodes := g_nodes spec; g_edges := g_edges spec |})
        with (bfs_layers spec) in L.
      rewrite B in L. discriminate.
    + unfold choose_direction_auto in L. rewrite B in L.
      match type of L with
      | context [bfs_layers ?s] => change (bfs_layers s) with (bfs_layers spec) in L
      end.
      rewrite B in L. discriminate.
  - intros E.
    assert (g_edges spec = []) as Ee.
    { destruct (g_edges spec) as [|e l] eqn:Eq; [reflexivity|].
      destruct (J e) as [I _]; [rewrite Eq; now left|].
      unfold node_ids in I. rewrite E in I. destruct I. }
    assert (bfs_layers spec = None) as B.
    { unfold bfs_layers, build_graph. now rewrite E, Ee. }
    unfold layer_layout. destruct dir as [d|].
    + change (bfs_layers {| g_title := g_title spec; g_direction := d;
                            g_nodes := g_nodes spec; g_edges := g_edges spec |})
        with (bfs_layers spec).
      now rewrite B.
    + unfold choose_direction_auto. now rewrite B.
Qed.

Lemma written_id_vertex m styles override positions (n : node) :
  written_id (vertex_cell m styles override positions n) = xml_attr (Some (n_id n)).
Proof.
  unfold vertex_cell, written_id. now destruct (position_of positions (n_id n)).
Qed.

Lemma written_id_edges (eid : N) m styles override (edges : list edge) :
  map written_id (edge_cells_from eid m styles override edges)
  = map (fun i => edge_id (eid + N.of_nat i)) (seq 0 (List.length edges)).
Proof.
  rewrite <- (edge_cells_from_ids eid m styles override edges).
  revert eid. induction edges as [|e edges IH]; intros eid; [reflexivity|].
  cbn [edge_cells_from map]. now rewrite IH.
Qed.

(** The identifiers written for the cells of a document are pairwise
    distinct, the two root cells included, when the nodes have distinct
    identifiers made by a converter. *)
Lemma document_ids_distinct (spec : graph_spec) m styles override positions :
  NoDup (node_ids spec) ->
  (forall x, In x (node_ids spec) -> converter_id x = true) ->
  NoDup ("0" :: "1"
         :: map written_id (vertex_cells m styles override positions spec
                            ++ edge_cells m styles override spec)).
Proof.
  intros D C.
  assert (map written_id (vertex_cells m styles override positions spec)
          = node_ids spec) as Ev.
  { unfold vertex_cells, node_ids. rewrite map_map.
    apply map_ext_in. intros n I. rewrite written_id_vertex.
    apply converter_id_written, C. now apply in_map. }
  rewrite map_app, Ev. unfold edge_cells. rewrite written_id_edges.
  assert (forall x, In x (node_ids spec) ->
            x <> "0" /\ x <> "1" /\ forall k, x <> edge_id k) as Cx
    by (intros x I; now apply converter_id_written, C).
  assert (forall x, In x (map (fun i => edge_id (EID_BASE + N.of_nat i))
                            (seq 0 (List.length (g_edges spec)))) ->
            x <> "0" /\ x <> "1") as Ce.
  { intros x I. apply in_map_iff in I as (i & <- & _).
    unfold edge_id. split; discriminate. }
  constructor.
  { simpl. intros [E|I]; [discriminate|].
    apply in_app_or in I as [I|I]; [now apply Cx in I | now apply Ce in I]. }
  constructor.
  { intros I. apply in_app_or in I as [I|I]; [now apply Cx in I | now apply Ce in I]. }
  apply NoDup_app; [exact D | apply edge_ids_NoDup|].
  intros x I Ie. apply in_map_iff in Ie as (i & <- & _).
  destruct (Cx _ I) as (_ & _ & N). now apply (N (EID_BASE + N.of_nat i)%N).
Qed.

End ClosedGraphs.

(** ** Escaped text, keywords and the answer of the model *)
Section EscapedText.
Import Drawio.

Lemma html_code_free (c : ascii) :
  free_of (fun x => is_markup x || is_apostrophe x) (html_code c) = true.
Proof. each_char c; reflexivity. Qed.

End EscapedText.

Section EnsureHtml.
Import Drawio.

Lemma html1_after_append (a : string) :
  html1_after_semicolon (a ++ ";html=1;") = true.
Proof.
  induction a as [|c a IH]; [reflexivity|].
  cbn [append html1_after_semicolon]. rewrite IH. apply orb_true_r.
Qed.

Lemma has_html1_ensure (s : string) : has_html1 (ensure_html s) = true.
Proof.
  unfold ensure_html. destruct (has_html1 s) eqn:H; [exact H|].
  unfold has_html1. rewrite html1_after_append. apply orb_true_r.
Qed.

Lemma ensure_html_fixed (s : string) : has_html1 s = true -> ensure_html s = s.
Proof. intros H. unfold ensure_html. now rewrite H. Qed.

End EnsureHtml.

Section Keywords.
Import Drawio.

Lemma any_in_In (keywords : list string) (k p : string) :
  In k keywords -> contains k p = true -> any_in keywords p = true.
Proof.
  intros I C. unfold any_in. apply existsb_exists. exists k. now split.
Qed.

End Keywords.

Section JsonSpan.
Import Drawio.

Lemma prefix_one (a c : ascii) (s : string) :
  String.prefix (String a "") (String c s) = Ascii.eqb a c.
Proof. now rewrite prefix_cons, prefix_empty, andb_true_r. Qed.

Lemma find_cons (a c : ascii) (s : string) :
  str_find (String a "") (String c s)
  = if Ascii.eqb a c then Some 0 else option_map S (str_find (String a "") s).
Proof. cbn [str_find]. now rewrite prefix_one. Qed.

Lemma rfind_cons (a c : ascii) (s : string) :
  str_rfind (String a "") (String c s)
  = match str_rfind (String a "") s with
    | Some i => Some (S i)
    | None => if Ascii.eqb a c then Some 0 else None
    end.
Proof. cbn [str_rfind]. now rewrite prefix_one. Qed.

Lemma find_free (a : ascii) (s : string) :
  free_of (Ascii.eqb a) s = true -> str_find (String a "") s = None.
Proof.
  induction s as [|c s IH]; [reflexivity|].
  unfold free_of. cbn [all_chars]. intros H. apply andb_prop in H as [Hc Hs].
  rewrite find_cons. apply negb_true_iff in Hc. rewrite Hc.
  unfold free_of in IH. now rewrite IH.
Qed.

Lemma rfind_free (a : ascii) (s : string) :
  free_of (Ascii.eqb a) s = true -> str_rfind (String a "") s = None.
Proof.
  induction s as [|c s IH]; [reflexivity|].
  unfold free_of. cbn [all_chars]. intros H. apply andb_prop in H as [Hc Hs].
  rewrite rfind_cons. apply negb_true_iff in Hc. rewrite Hc.
  unfold free_of in IH. now rewrite IH.
Qed.

Lemma find_skip (a : ascii) (pre r : string) :
  free_of (Ascii.eqb a) pre = true ->
  str_find (String a "") (pre ++ r)
  = option_map (Nat.add (String.length pre)) (str_find (String a "") r).
Proof.
  induction pre as [|c pre IH]; intros H.
  - simpl. now destruct (str_find (String a "") r).
  - unfold free_of in *. cbn [all_chars] in H. apply andb_prop in H as [Hc Hs].
    cbn [append]. rewrite find_cons. apply negb_true_iff in Hc. rewrite Hc.
    rewrite (IH Hs). now destruct (str_find (String a "") r).
Qed.

Lemma rfind_skip (a : ascii) (pre r : string) :
  free_of (Ascii.eqb a) pre = true ->
  str_rfind (String a "") (pre ++ r)
  = option_map (Nat.add (String.length pre)) (str_rfind (String a "") r).
Proof.
  induction pre as [|c pre IH]; intros H.
  - simpl. now destruct (str_rfind (String a "") r).
  - unfold free_of in *. cbn [all_chars] in H. apply andb_prop in H as [Hc Hs].
    cbn [append]. rewrite rfind_cons. apply negb_true_iff in Hc. rewrite Hc.
    rewrite (IH Hs). now destruct (str_rfind (String a "") r).
Qed.

Lemma find_post (a : ascii) (t post : string) :
  free_of (Ascii.eqb a) post = true ->
  str_find (String a "") (t ++ post) = str_find (String a "") t.
Proof.
  intros H. induction t as [|c t IH].
  - simpl. now apply find_free.
  - cbn [append]. now rewrite !find_cons, IH.
Qed.

Lemma rfind_post (a : ascii) (t post : string) :
  free_of (Ascii.eqb a) post = true ->
  str_rfind (String a "") (t ++ post) = str_rfind (String a "") t.
Proof.
  intros H. induction t as [|c t IH].
  - simpl. now apply rfind_free.
  - cbn [append]. now rewrite !rfind_cons, IH.
Qed.

Lemma rfind_lt (a : ascii) (t : string) (e : nat) :
  str_rfind (String a "") t = Some e -> e < String.length t.
Proof.
  revert e. induction t as [|c t IH]; intros e; [discriminate|].
  rewrite rfind_cons. cbn [String.length].
  destruct (str_rfind (String a "") t) as [i|].
  - intros [= <-]. specialize (IH i eq_refl). lia.
  - destruct (Ascii.eqb a c); [|discriminate]. intros [= <-]. lia.
Qed.

Lemma substring_skip (pre r : string) (s n : nat) :
  String.substring (String.length pre + s) n (pre ++ r) = String.substring s n r.
Proof. induction pre as [|c pre IH]; [reflexivity | exact IH]. Qed.

Lemma substring_post (t post : string) (s n : nat) :
  s + n <= String.length t ->
  String.substring s n (t ++ post) = String.substring s n t.
Proof.
  revert s n. induction t as [|c t IH]; intros s n L; simpl in L.
  - assert (s = 0) as -> by lia. assert (n = 0) as -> by lia.
    simpl. now destruct post.
  - destruct s as [|s]; cbn [append String.substring].
    + destruct n as [|n]; [reflexivity|]. f_equal. apply IH. simpl. lia.
    + apply IH. lia.
Qed.

Lemma substring_prefix (x y : string) :
  String.substring 0 (String.length x) (x ++ y) = x.
Proof.
  induction x as [|c x IH]; simpl; [now destruct y | now rewrite IH].
Qed.

Lemma open_is (c : ascii) : Ascii.eqb "{" c = is_open c.
Proof. apply Ascii.eqb_sym. Qed.

Lemma close_is (c : ascii) : Ascii.eqb "}" c = is_close c.
Proof. apply Ascii.eqb_sym. Qed.

Lemma free_open (s : string) : free_of is_brace s = true -> free_of (Ascii.eqb "{") s = true.
Proof.
  apply free_weaken. intros c H. rewrite open_is in H. unfold is_brace. now rewrite H.
Qed.

Lemma free_close (s : string) : free_of is_brace s = true -> free_of (Ascii.eqb "}") s = true.
Proof.
  apply free_weaken. intros c H. rewrite close_is in H. unfold is_brace.
  rewrite H. apply orb_true_r.
Qed.

(** Text without braces around [t] changes nothing. *)
Lemma json_span_cut (pre t post : string) :
  free_of is_brace pre = true -> free_of is_brace post = true ->
  json_span (pre ++ t ++ post) = json_span t.
Proof.
  intros Hpre Hpost. unfold json_span.
  rewrite (find_skip "{" pre _ (free_open _ Hpre)),
          (rfind_skip "}" pre _ (free_close _ Hpre)),
          (find_post "{" t post (free_open _ Hpost)),
          (rfind_post "}" t post (free_close _ Hpost)).
  destruct (str_find "{" t) as [s|]; [|reflexivity].
  destruct (str_rfind "}" t) as [e|] eqn:R; [|reflexivity].
  cbn [option_map].
  replace (Nat.leb (String.length pre + e) (String.length pre + s)) with (Nat.leb e s).
  2:{ destruct (Nat.leb_spec e s), (Nat.leb_spec (String.length pre + e) (String.length pre + s));
        try reflexivity; lia. }
  destruct (Nat.leb_spec e s) as [L|L]; [reflexivity|].
  f_equal. unfold slice.
  replace (String.length pre + e + 1 - (String.length pre + s)) with (e + 1 - s) by lia.
  rewrite substring_skip. apply substring_post.
  apply rfind_lt in R. lia.
Qed.

(** What the strip operations remove holds no brace. *)
Lemma lstrip_cut (p : ascii -> bool) (s : string) :
  (forall c, p c = true -> is_brace c = false) ->
  exists pre, s = pre ++ lstrip_by p s /\ free_of is_brace pre = true.
Proof.
  intros P. induction s as [|c s IH].
  - now exists "".
  - cbn [lstrip_by]. destruct (p c) eqn:Pc.
    + destruct IH as (pre & E & F). exists (String c pre). split.
      * cbn [append]. now rewrite <- E.
      * unfold free_of in *. cbn [all_chars]. now rewrite (P c Pc), F.
    + now exists "".
Qed.

Lemma rstrip_cut (p : ascii -> bool) (s : string) :
  (forall c, p c = true -> is_brace c = false) ->
  exists post, s = rstrip_by p s ++ post /\ free_of is_brace post = true.
Proof.
  intros P. induction s as [|c s IH].
  - now exists "".
  - cbn [rstrip_by]. destruct IH as (post & E & F).
    destruct (rstrip_by p s) as [|d r] eqn:R.
    + destruct (p c) eqn:Pc.
      * exists (String c post). split.
        -- cbn [append]. now rewrite E at 1.
        -- unfold free_of in *. cbn [all_chars]. now rewrite (P c Pc), F.
      * exists post. split; [|exact F]. cbn [append]. now rewrite E at 1.
    + exists post. split; [|exact F]. cbn [append]. now rewrite E at 1.
Qed.

Lemma strip_by_cut (p : ascii -> bool) (s : string) :
  (forall c, p c = true -> is_brace c = false) ->
  exists pre post,
    s = pre ++ strip_by p s ++ post
    /\ free_of is_brace pre = true /\ free_of is_brace post = true.
Proof.
  intros P. unfold strip_by.
  destruct (lstrip_cut p s P) as (pre & E & F).
  destruct (rstrip_cut p (lstrip_by p s) P) as (post & E' & F').
  exists pre, post. split; [|now split]. now rewrite <- E'.
Qed.

Lemma json_prefix_cut (t : string) :
  startswith (lower t) "json" = true ->
  exists pre, t = pre ++ drop 4 t /\ free_of is_brace pre = true.
Proof.
  unfold startswith.
  destruct t as [|c1 [|c2 [|c3 [|c4 t]]]]; cbn [lower]; rewrite ?prefix_cons;
    try (cbn [String.prefix]; rewrite ?andb_false_r; discriminate).
  rewrite prefix_empty, andb_true_r.
  intros H. apply andb_prop in H as [H1 H]. apply andb_prop in H as [H2 H].
  apply andb_prop in H as [H3 H4].
  exists (String c1 (String c2 (String c3 (String c4 "")))).
  split; [reflexivity|].
  assert (forall (x c : ascii), is_brace x = false -> Ascii.eqb x (lower_char c) = true ->
            is_brace c = false) as nb.
  { intros x c Hx Hc. apply Ascii.eqb_eq in Hc. subst x.
    clear - Hx. each_char c; vm_compute in Hx |- *; congruence. }
  unfold free_of. cbn [all_chars].
  rewrite (nb "j"%char c1 eq_refl H1), (nb "s"%char c2 eq_refl H2),
          (nb "o"%char c3 eq_refl H3), (nb "n"%char c4 eq_refl H4).
  reflexivity.
Qed.

Lemma space_not_brace (c : ascii) : is_space c = true -> is_brace c = false.
Proof. each_char c; vm_compute; congruence. Qed.

Lemma backtick_not_brace (c : ascii) : is_backtick c = true -> is_brace c = false.
Proof. each_char c; vm_compute; congruence. Qed.

Lemma strip_to_json_span (text : string) : strip_to_json text = json_span text.
Proof.
  unfold strip_to_json.
  set (t0 := strip text).
  set (t := if startswith t0 "```" then
              if startswith (lower (strip_by is_backtick t0)) "json"
              then lstrip_by is_space (drop 4 (strip_by is_backtick t0))
              else strip_by is_backtick t0
            else t0).
  change (json_span t = json_span text).
  assert (exists pre post, text = pre ++ t ++ post
                           /\ free_of is_brace pre = true
                           /\ free_of is_brace post = true) as (pre & post & E & Fa & Fb).
  { assert (forall a b c pre post pre' post',
              a = pre ++ b ++ post -> b = pre' ++ c ++ post' ->
              free_of is_brace pre = true -> free_of is_brace post = true ->
              free_of is_brace pre' = true -> free_of is_brace post' = true ->
              exists p q, a = p ++ c ++ q
                          /\ free_of is_brace p = true /\ free_of is_brace q = true) as trans.
    { intros a b c p q p' q' -> -> Fp Fq Fp' Fq'.
      exists (p ++ p'), (q' ++ q). split; [now rewrite !append_assoc|].
      unfold free_of in *. now rewrite !all_chars_append, Fp, Fq, Fp', Fq'. }
    destruct (strip_by_cut is_space text space_not_brace) as (p0 & q0 & E0 & Fp0 & Fq0).
    fold (strip text) in E0. fold t0 in E0.
    unfold t. destruct (startswith t0 "```"); [|now exists p0, q0].
    destruct (strip_by_cut is_backtick t0 backtick_not_brace) as (p1 & q1 & E1 & Fp1 & Fq1).
    destruct (trans _ _ _ _ _ _ _ E0 E1 Fp0 Fq0 Fp1 Fq1) as (p2 & q2 & E2 & Fp2 & Fq2).
    destruct (startswith (lower (strip_by is_backtick t0)) "json") eqn:J;
      [|now exists p2, q2].
    destruct (json_prefix_cut _ J) as (p3 & E3 & Fp3).
    destruct (lstrip_cut is_space (drop 4 (strip_by is_backtick t0)) space_not_brace)
      as (p4 & E4 & Fp4).
    apply (trans _ _ _ _ _ (p3 ++ p4) "" E2); try assumption; try reflexivity.
    - rewrite append_empty_r, append_assoc, <- E4. exact E3.
    - unfold free_of in *. now rewrite all_chars_append, Fp3, Fp4. }
  rewrite E. symmetry. now apply json_span_cut.
Qed.

End JsonSpan.

Section JsonSpanParts.
Import Drawio.

Lemma find_Some (x : ascii) (t : string) (s : nat) :
  str_find (String x "") t = Some s ->
  exists a r, t = a ++ String x r /\ String.length a = s
              /\ free_of (Ascii.eqb x) a = true.
Proof.
  revert s. induction t as [|c t IH]; intros s; [discriminate|].
  rewrite find_cons. destruct (Ascii.eqb_spec x c) as [<-|N].
  - intros [= <-]. now exists "", t.
  - destruct (str_find (String x "") t) as [i|]; [|discriminate].
    intros [= <-]. destruct (IH i eq_refl) as (a & r & -> & L & F).
    exists (String c a), r. split; [reflexivity|]. split; [simpl; now rewrite L|].
    unfold free_of in *. cbn [all_chars]. apply Ascii.eqb_neq in N. now rewrite N, F.
Qed.

Lemma rfind_Some (x : ascii) (t : string) (e : nat) :
  str_rfind (String x "") t = Some e ->
  exists l c, t = l ++ String x c /\ String.length l = e
              /\ free_of (Ascii.eqb x) c = true.
Proof.
  revert e. induction t as [|d t IH]; intros e; [discriminate|].
  rewrite rfind_cons. destruct (str_rfind (String x "") t) as [i|] eqn:R.
  - intros [= <-]. destruct (IH i eq_refl) as (l & c & -> & L & F).
    exists (String d l), c. split; [reflexivity|]. split; [simpl; now rewrite L | exact F].
  - destruct (Ascii.eqb_spec x d) as [<-|N]; [|discriminate].
    intros [= <-]. exists "", t. split; [reflexivity|]. split; [reflexivity|].
    clear - R. induction t as [|c t IH]; [reflexivity|].
    rewrite rfind_cons in R. destruct (str_rfind (String x "") t); [discriminate|].
    destruct (Ascii.eqb x c) eqn:E; [discriminate|].
    unfold free_of in *. cbn [all_chars]. now rewrite E, IH.
Qed.

Lemma find_le (x : ascii) (a r : string) :
  exists s, str_find (String x "") (a ++ String x r) = Some s /\ s <= String.length a.
Proof.
  induction a as [|c a (s & E & L)]; cbn [append]; rewrite find_cons.
  - rewrite Ascii.eqb_refl. exists 0. split; [reflexivity | simpl; lia].
  - destruct (Ascii.eqb x c); [exists 0; split; [reflexivity | lia]|].
    rewrite E. exists (S s). split; [reflexivity | simpl; lia].
Qed.

Lemma rfind_ge (x : ascii) (l c : string) :
  exists e, str_rfind (String x "") (l ++ String x c) = Some e /\ String.length l <= e.
Proof.
  induction l as [|d l (e & E & L)]; cbn [append]; rewrite rfind_cons.
  - destruct (str_rfind (String x "") c) as [i|].
    + exists (S i). split; [reflexivity | simpl; lia].
    + rewrite Ascii.eqb_refl. exists 0. split; [reflexivity | simpl; lia].
  - rewrite E. exists (S e). split; [reflexivity | simpl; lia].
Qed.

Lemma append_split (a x l y : string) :
  a ++ x = l ++ y -> String.length a <= String.length l ->
  exists m, l = a ++ m /\ x = m ++ y.
Proof.
  revert l. induction a as [|c a IH]; intros l E L.
  - exists l. now split.
  - destruct l as [|d l]; [simpl in L; lia|].
    cbn [append] in E. injection E as -> E.
    destruct (IH l E) as (m & -> & ->); [simpl in L; lia|].
    now exists m.
Qed.

Lemma json_span_Some (text r : string) :
  json_span text = Some r ->
  exists a b c,
    text = a ++ "{" ++ b ++ "}" ++ c /\ r = "{" ++ b ++ "}"
    /\ free_of is_open a = true /\ free_of is_close c = true.
Proof.
  unfold json_span.
  destruct (str_find "{" text) as [s|] eqn:F; [|discriminate].
  destruct (str_rfind "}" text) as [e|] eqn:R; [|discriminate].
  destruct (Nat.leb_spec e s) as [L|L]; [discriminate|].
  intros [= <-].
  destruct (find_Some _ _ _ F) as (a & x & Ea & La & Fa).
  destruct (rfind_Some _ _ _ R) as (l & c & El & Ll & Fc).
  destruct (append_split a (String "{" x) l (String "}" c)) as (m & Em & Ex);
    [congruence | lia |].
  destruct m as [|o b].
  { rewrite append_empty_r in Em. subst l. lia. }
  cbn [append] in Ex. injection Ex as <- ->.
  exists a, b, c. split; [exact Ea|]. split.
  - unfold slice. rewrite Ea.
    replace s with (String.length a + 0) by lia.
    rewrite substring_skip.
    replace (String.length a + 0) with (String.length a) by lia.
    replace (e + 1 - String.length a) with (String.length ("{" ++ b ++ "}")).
    + change (String "{" (b ++ String "}" c)) with ("{" ++ b ++ "}" ++ c).
      replace ("{" ++ b ++ "}" ++ c) with (("{" ++ b ++ "}") ++ c)
        by (now rewrite !append_assoc).
      apply substring_prefix.
    + subst l. rewrite <- Ll. rewrite !length_append. simpl. lia.
  - split.
    + eapply free_weaken; [|exact Fa]. intros ch H. now rewrite open_is.
    + eapply free_weaken; [|exact Fc]. intros ch H. now rewrite close_is.
Qed.

Lemma json_span_None (text : string) :
  json_span text = None -> forall a b c, text <> a ++ "{" ++ b ++ "}" ++ c.
Proof.
  intros N a b c E. unfold json_span in N.
  destruct (find_le "{" a (b ++ "}" ++ c)) as (s & F & Ls).
  destruct (rfind_ge "}" (a ++ "{" ++ b) c) as (e & R & Le).
  rewrite !append_assoc in R. cbn [append] in F, R, E. cbn [append] in *.
  rewrite <- E in F, R. rewrite F, R in N.
  rewrite length_append in Le. simpl in Le.
  destruct (Nat.leb_spec e s); [lia | discriminate].
Qed.

End JsonSpanParts.
Section ConvertersMore.
Import Drawio.

Lemma flat_map_length_filter {A B} (f : A -> list B) (g : A -> bool) (l : list A) :
  (forall x, List.length (f x) = if g x then 1 else 0) ->
  List.length (flat_map f l) = List.length (filter g l).
Proof.
  intros H. induction l as [|x l IH]; simpl; [reflexivity|].
  rewrite length_app, H, IH. now destruct (g x).
Qed.

Lemma declared_in_In (names : list string) (x : string) :
  declared_in names x = true <-> In x names.
Proof.
  unfold declared_in. rewrite existsb_exists. split.
  - intros (y & I & E). apply String.eqb_eq in E. now subst.
  - intros I. exists x. split; [exact I | apply String.eqb_refl].
Qed.

Lemma declared_in_get {V} (m : PyDict.dict string V) (names : list string) (x : string) :
  (forall k, In k (PyDict.keys m) <-> In k names) ->
  declared_in names x = match PyDict.get x m with Some _ => true | None => false end.
Proof.
  intros K. destruct (PyDict.get x m) as [v|] eqn:G.
  - apply declared_in_In, K. now apply get_Some_In in G.
  - apply get_None_iff in G. rewrite K, <- declared_in_In in G.
    now destruct (declared_in names x).
Qed.

Lemma er_edges_kept (d : er_spec) :
  List.length (g_edges (nodes_edges_er d))
  = List.length
      (filter (fun r =>
                 declared_in (map ent_name (er_entities d)) (splitf_fst (r_from r))
                 && declared_in (map ent_name (er_entities d)) (splitf_fst (r_to r)))
         (er_relations d)).
Proof.
  unfold nodes_edges_er.
  destruct (er_nodes_ids (er_entities d) 1 []) as (_ & _ & Keys).
  destruct (er_nodes 1 (er_entities d) []) as [nodes m]. cbn [fst snd g_edges] in *.
  unfold er_edges. apply flat_map_length_filter. intros r.
  rewrite !(declared_in_get m) by (intros k; rewrite Keys; simpl; tauto).
  destruct (PyDict.get (splitf_fst (r_from r)) m);
    destruct (PyDict.get (splitf_fst (r_to r)) m); reflexivity.
Qed.

Lemma class_edges_kept (d : class_spec) :
  List.length (g_edges (nodes_edges_class d))
  = List.length
      (filter (fun r =>
                 declared_in (map cls_name (cs_classes d)) (cr_from r)
                 && declared_in (map cls_name (cs_classes d)) (cr_to r))
         (cs_relations d)).
Proof.
  unfold nodes_edges_class.
  destruct (class_nodes_ids (cs_classes d) 1 []) as (_ & _ & Keys).
  destruct (class_nodes 1 (cs_classes d) []) as [nodes m]. cbn [fst snd g_edges] in *.
  unfold class_edges. apply flat_map_length_filter. intros r.
  rewrite !(declared_in_get m) by (intros k; rewrite Keys; simpl; tauto).
  destruct (PyDict.get (cr_from r) m); destruct (PyDict.get (cr_to r) m); reflexivity.
Qed.

Lemma numbered_length (prefix : string) (n : nat) : List.length (numbered prefix n) = n.
Proof. unfold numbered. now rewrite length_map, length_seq. Qed.

Lemma node_ids_nil (spec : graph_spec) : node_ids spec = [] <-> g_nodes spec = [].
Proof. unfold node_ids. destruct (g_nodes spec); simpl; split; congruence. Qed.

Lemma numbered_nil {A} (prefix : string) (l : list A) :
  numbered prefix (List.length l) = [] <-> l = [].
Proof.
  split; [|now intros ->].
  intros E. apply (f_equal (@List.length string)) in E.
  rewrite numbered_length in E. now destruct l.
Qed.

(** The converter of the state diagrams makes no node exactly when it is
    given no start, no end and no state. *)
Lemma state_step_nonempty (acc : state_acc) (s : string) :
  snd acc = [] \/ fst acc <> [] -> fst (state_step acc s) <> [].
Proof.
  destruct acc as [nodes ids]. cbn [fst snd]. unfold state_step. cbn [fst snd].
  intros [->|Q].
  - cbn. now destruct nodes.
  - destruct (PyDict.mem s ids); cbn [negb fst]; [exact Q|]. now destruct nodes.
Qed.

Lemma state_fold_nil (l : list string) :
  forall acc,
    snd acc = [] \/ fst acc <> [] ->
    fst (fold_left state_step l acc) = [] -> fst acc = [] /\ l = [].
Proof.
  induction l as [|s l IH]; intros acc Q F; cbn [fold_left] in F; [now split|].
  exfalso.
  pose proof (state_step_nonempty acc s Q) as N.
  destruct (IH (state_step acc s)) as [F' _]; [now right | exact F | contradiction].
Qed.

(** The converter of the state diagrams makes no node exactly when it is
    given no start, no end and no state. *)
Lemma state_nodes_nil (d : state_spec) :
  fst (state_nodes d) = []
  <-> truthy (ss_start d) = None /\ truthy (ss_end d) = None /\ ss_states d = [].
Proof.
  unfold state_nodes. split.
  - intros E. apply state_fold_nil in E as [F L].
    + unfold state_start, state_end in F.
      destruct (truthy (ss_start d)) as [s|]; destruct (truthy (ss_end d)) as [e|];
        cbn [fst snd] in F; try discriminate.
      now repeat split.
    + unfold state_start, state_end.
      destruct (truthy (ss_start d)) as [s|]; destruct (truthy (ss_end d)) as [e|];
        cbn [fst snd]; try (right; discriminate). now left.
  - intros (S & E & L). unfold state_start, state_end. now rewrite S, E, L.
Qed.

Lemma usecase_ids_NoDup (a u : nat) : NoDup (numbered "A" a ++ numbered "U" u).
Proof.
  apply NoDup_app; try apply numbered_NoDup.
  intros x Ia Iu. apply in_map_iff in Ia as (i & <- & _).
  apply in_map_iff in Iu as (j & E & _). discriminate.
Qed.

(** What every converter gives: distinct identifiers of its own making,
    and edges between nodes it made. *)
Lemma converters_closed (b : built) :
  mode_of b <> mode_generic ->
  NoDup (node_ids (build_spec_from_mode b))
  /\ edges_join_nodes (build_spec_from_mode b)
  /\ (forall x, In x (node_ids (build_spec_from_mode b)) -> converter_id x = true).
Proof.
  destruct b as [d|d|d|d|d|d|s]; cbn [mode_of build_spec_from_mode]; intros G;
    try congruence; clear G.
  - destruct (nodes_edges_er_closed d) as [-> J].
    split; [apply numbered_NoDup|]. split; [exact J|].
    intros x. now apply (numbered_ids "E").
  - destruct (nodes_edges_class_closed d) as [-> J].
    split; [apply numbered_NoDup|]. split; [exact J|].
    intros x. now apply (numbered_ids "C").
  - destruct (nodes_edges_sequence_closed d) as [-> J].
    split; [apply numbered_NoDup|]. split; [exact J|].
    intros x. now apply (numbered_ids "P").
  - apply nodes_edges_state_closed.
  - destruct (nodes_edges_activity_closed d) as [-> J].
    split; [apply numbered_NoDup|]. split; [exact J|].
    intros x. now apply (numbered_ids "A").
  - destruct (nodes_edges_usecase_closed d) as [-> J].
    split; [apply usecase_ids_NoDup|]. split; [exact J|].
    intros x I. apply in_app_or in I as [I|I];
      [now apply (numbered_ids "A") in I | now apply (numbered_ids "U") in I].
Qed.

Lemma converters_empty (b : built) :
  g_nodes (build_spec_from_mode b) = [] <-> no_element b.
Proof.
  destruct b as [d|d|d|d|d|d|s]; cbn [no_element build_spec_from_mode].
  - rewrite <- node_ids_nil, (proj1 (nodes_edges_er_closed d)). apply numbered_nil.
  - rewrite <- node_ids_nil, (proj1 (nodes_edges_class_closed d)). apply numbered_nil.
  - rewrite <- node_ids_nil, (proj1 (nodes_edges_sequence_closed d)). apply numbered_nil.
  - rewrite <- state_nodes_nil. unfold nodes_edges_state.
    now destruct (state_nodes d).
  - rewrite <- node_ids_nil, (proj1 (nodes_edges_activity_closed d)). apply numbered_nil.
  - rewrite <- node_ids_nil, (proj1 (nodes_edges_usecase_closed d)).
    rewrite <- (numbered_nil "A" (us_actors d)), <- (numbered_nil "U" (us_usecases d)).
    split; [apply app_eq_nil | now intros [-> ->]].
  - reflexivity.
Qed.

Lemma state_step_keys (states : list string) (acc : state_acc) (k : string) :
  In k (PyDict.keys (snd (fold_left state_step states acc)))
  <-> In k (PyDict.keys (snd acc)) \/ In k states.
Proof.
  revert acc. induction states as [|s states IH]; intros acc; cbn [fold_left].
  - simpl. tauto.
  - rewrite IH. unfold state_step.
    destruct (PyDict.mem s (snd acc)) eqn:M; cbn [negb snd].
    + apply mem_In in M. simpl. intuition congruence.
    + rewrite In_keys_set. simpl. intuition congruence.
Qed.

Lemma state_nodes_keys (d : state_spec) (k : string) :
  In k (PyDict.keys (snd (state_nodes d))) <-> In k (state_names d).
Proof.
  unfold state_nodes, state_names. rewrite state_step_keys.
  unfold state_end, state_start.
  destruct (truthy (ss_start d)) as [s|]; destruct (truthy (ss_end d)) as [e|];
    cbn [snd]; rewrite ?In_keys_set; simpl; intuition congruence.
Qed.

Lemma state_id_known (d : state_spec) (name : option string) :
  match state_id (snd (state_nodes d)) name with
  | Some _ => exists k, name = Some k /\ In k (state_names d)
  | None => forall k, name = Some k -> ~ In k (state_names d)
  end.
Proof.
  pose proof (state_nodes_inv d) as (_ & _ & V & F).
  unfold state_id. destruct name as [k|]; [|intros k; discriminate].
  destruct (PyDict.get k (snd (state_nodes d))) as [v|] eqn:G.
  - assert (v <> "") as N.
    { destruct (F v (V k v G)) as [->|[->|(j & _ & ->)]]; discriminate. }
    destruct v as [|c v]; [congruence|]. cbn [truthy].
    exists k. split; [reflexivity|]. apply state_nodes_keys. now apply get_Some_In in G.
  - cbn [truthy]. intros k' [= <-]. rewrite <- state_nodes_keys.
    now apply get_None_iff.
Qed.

Lemma state_edges_kept (d : state_spec) :
  List.length (g_edges (nodes_edges_state d))
  = List.length (filter (between_states d) (ss_transitions d)).
Proof.
  unfold nodes_edges_state.
  pose proof (state_id_known d) as K.
  destruct (state_nodes d) as [nodes ids]. cbn [snd g_edges] in *.
  unfold state_edges. apply flat_map_length_filter. intros t.
  unfold between_states.
  pose proof (K (tr_from t)) as A. pose proof (K (tr_to t)) as B.
  destruct (state_id ids (tr_from t)) as [a|].
  - destruct A as (ka & -> & Ia).
    apply declared_in_In in Ia. rewrite Ia.
    destruct (state_id ids (tr_to t)) as [b|].
    + destruct B as (kb & -> & Ib). apply declared_in_In in Ib. now rewrite Ib.
    + destruct (tr_to t) as [kb|]; [|reflexivity].
      specialize (B kb eq_refl). rewrite <- declared_in_In in B.
      now destruct (declared_in (state_names d) kb).
  - destruct (tr_from t) as [ka|]; [|reflexivity].
    specialize (A ka eq_refl). rewrite <- declared_in_In in A.
    destruct (declared_in (state_names d) ka); [congruence|].
    now destruct (tr_to t).
Qed.

End ConvertersMore.

(** ** The properties *)

Section HarvestTheorems.
Import Harvest.

Lemma style_pairs_normalize (s : string) :
  style_pairs (normalize_style s) = PyList.sorted by_sort_key (style_pairs s).
Proof.
  rewrite (normalize_style_render s).
  set (l := PyList.sorted by_sort_key (style_pairs s)).
  assert (Forall (fun kv => well_formed_pair kv /\ strip (snd kv) = snd kv) l) as F.
  { eapply Permutation_Forall; [apply sorted_perm | apply style_pairs_well_formed]. }
  rewrite style_pairs_render.
  2:{ eapply Forall_impl; [|exact F]. now intros kv [W _]. }
  clear - F. induction F as [|[k v] l [_ E] F IH]; simpl; [reflexivity|].
  simpl in E. now rewrite E, IH.
Qed.

(** X1. [normalize_style] is idempotent: the canonical string of a style is
    its own canonical string, so a fingerprint can be stored and compared
    again. *)
Theorem normalize_style_idempotent (s : string) :
  normalize_style (normalize_style s) = normalize_style s.
Proof.
  rewrite (normalize_style_render (normalize_style s)), style_pairs_normalize.
  rewrite (normalize_style_render s). f_equal. apply sorted_fixed.
  apply sorted_sorted; [apply by_sort_key_total | apply by_sort_key_trans].
Qed.


(** X3. [safe_key] returns a key of the file format, whatever it is given:
    not empty, made of lower-case letters, digits, underscore, dot and
    hyphen, with no hyphen at either end and no two hyphens in a row; and it
    leaves such a key as it is. *)
Theorem safe_key_shape (key : string) :
  let k := safe_key key in
  k <> ""
  /\ all_chars safe_char k = true
  /\ first_char k <> Some "-"%char
  /\ last_char k <> Some "-"%char
  /\ contains "--" k = false
  /\ safe_key k = k.
Proof.
  cbv zeta. pose proof (safe_key_file_key key) as F.
  pose proof (file_key_fixed _ F) as E.
  destruct F as (A & B & C & D & G). now repeat split.
Qed.

(** X4. [add_unique] never removes or overwrites an entry: every key keeps
    its style; the library is unchanged or has one entry more, at the end,
    under the key returned, which was free; and the style found under the
    key returned has the fingerprint of the style given. *)
Theorem add_unique_keeps_entries (m : PyDict.dict string string)
    (base_key style : string) :
  NoDup (PyDict.keys m) ->
  exists m' key,
    add_unique m base_key style = Some (m', key)
    /\ NoDup (PyDict.keys m')
    /\ (forall k v, PyDict.get k m = Some v -> PyDict.get k m' = Some v)
    /\ (exists s, PyDict.get key m' = Some s
                  /\ normalize_style s = normalize_style style)
    /\ (m' = m \/ (PyDict.get key m = None /\ m' = (m ++ [(key, style)])%list)).
Proof.
  intros D.
  destruct (add_unique_returns m base_key style) as (m' & key & A).
  exists m', key. split; [exact A|].
  destruct (add_unique_effect _ _ _ _ _ A) as [[-> (es & I & E)] | (_ & G & -> & _)].
  - split; [exact D|]. split; [auto|]. split; [|now left].
    exists es. split; [now apply get_of_In | exact E].
  - rewrite <- (set_absent key style m G).
    split; [now apply NoDup_keys_set|]. split; [|split].
    + intros k v Gk. rewrite get_set_other; [exact Gk|]. intros <-. congruence.
    + exists style. split; [apply get_set_same | reflexivity].
    + right. now split.
Qed.

Lemma add_unique_keeps_entries_witness :
  exists m' key,
    add_unique [("shape.rect", "rounded=0;")] "Shape Rect" "rounded=1;" = Some (m', key)
    /\ NoDup (PyDict.keys m')
    /\ (forall k v, PyDict.get k [("shape.rect", "rounded=0;")] = Some v ->
                    PyDict.get k m' = Some v)
    /\ (exists s, PyDict.get key m' = Some s
                  /\ normalize_style s = normalize_style "rounded=1;")
    /\ (m' = [("shape.rect", "rounded=0;")]
        \/ (PyDict.get key [("shape.rect", "rounded=0;")] = None
            /\ m' = ([("shape.rect", "rounded=0;")] ++ [(key, "rounded=1;")])%list)).
Proof.
  apply (add_unique_keeps_entries [("shape.rect", "rounded=0;")] "Shape Rect" "rounded=1;").
  repeat constructor. simpl. tauto.
Defined.

(** X5. The harvest loop of [main] deduplicates: from the empty library,
    whatever the cells, it ends with a library in which no two entries have
    the same fingerprint and no key occurs twice; the fingerprint of every
    harvested style is in it; every style in it was harvested; and it has at
    most one entry per cell. *)
Theorem collect_styles_deduplicates (cells : list (string * bool)) :
  exists lib,
    collect_styles cells [] = Some lib
    /\ NoDup (fingerprints lib)
    /\ NoDup (PyDict.keys lib)
    /\ (forall style is_edge,
          In (style, is_edge) cells -> In (normalize_style style) (fingerprints lib))
    /\ (forall k v, In (k, v) lib -> exists is_edge, In (v, is_edge) cells)
    /\ List.length lib <= List.length cells.
Proof.
  destruct (collect_styles_invariant cells [] []) as (lib & E & Inv & Cov & _).
  - split; [constructor|]. split; [constructor|].
    split; [intros k v []|]. split; [intros k []|]. simpl. lia.
  - intros style b [].
  - exists lib. destruct Inv as (Dk & Df & Prov & _ & Len). simpl in *.
    split; [exact E|]. split; [exact Df|]. split; [exact Dk|].
    split; [exact Cov|]. split; [exact Prov | exact Len].
Qed.

(** X6. Every key the harvest loop writes is a key of the file format: not
    empty and made of lower-case letters, digits, underscore, dot and
    hyphen. *)
Theorem collect_styles_keys (cells : list (string * bool)) :
  exists lib,
    collect_styles cells [] = Some lib
    /\ forall k, In k (PyDict.keys lib) -> k <> "" /\ all_chars safe_char k = true.
Proof.
  destruct (collect_styles_invariant cells [] []) as (lib & E & Inv & _).
  - split; [constructor|]. split; [constructor|].
    split; [intros k v []|]. split; [intros k []|]. simpl. lia.
  - intros style b [].
  - exists lib. split; [exact E|]. apply Inv.
Qed.

Lemma safe_key_edge (x : string) : String.prefix "edge." (safe_key ("edge." ++ x)) = true.
Proof.
  unfold safe_key, strip, strip_by.
  change (lstrip_by is_space ("edge." ++ x)) with ("edge." ++ x).
  cbn [append]. rewrite !rstrip_by_cons by reflexivity.
  cbn [lower].
  change (lower_char "e") with "e"%char. change (lower_char "d") with "d"%char.
  change (lower_char "g") with "g"%char. change (lower_char ".") with "."%char.
  set (y := lower (rstrip_by is_space x)).
  cbn [sub_runs].
  change (not_safe_char "e") with false. change (not_safe_char "d") with false.
  change (not_safe_char "g") with false. change (not_safe_char ".") with false.
  cbv iota. set (z := sub_runs not_safe_char false y).
  cbn [sub_runs].
  change (is_hyphen "e") with false. change (is_hyphen "d") with false.
  change (is_hyphen "g") with false. change (is_hyphen ".") with false.
  cbv iota. set (w := sub_runs is_hyphen false z).
  cbn [lstrip_by]. change (is_hyphen "e") with false. cbv iota.
  rewrite !rstrip_by_cons by reflexivity.
  cbv iota. rewrite !prefix_cons, prefix_empty. reflexivity.
Qed.

Lemma guess_key_edge_prefix (style : string) :
  exists x, guess_key_from_style style true = "edge." ++ x.
Proof.
  unfold guess_key_from_style. cbn [negb].
  set (d := PyDict.of_pairs (STYLE_KV_RE_findall style)).
  destruct (negb (String.eqb (get_or_empty "edgeStyle" d) "")); [eauto|].
  destruct (PyDict.get "endArrow" d) as [[|c a]|];
    try (destruct (PyDict.get "startArrow" d) as [[|c' a']|]); eauto.
  all: now exists "orthogonal".
Qed.

(** X7. A style first met on an edge cell is filed under a key that starts
    with [edge.]: when no entry of the library has its fingerprint,
    [add_unique] under the key [guess_key_from_style] proposes for an edge
    appends the style under such a key. *)
Theorem new_edge_style_key (m : PyDict.dict string string) (style : string) :
  find_norm (normalize_style style) m = None ->
  exists key,
    add_unique m (guess_key_from_style style true) style
    = Some ((m ++ [(key, style)])%list, key)
    /\ String.prefix "edge." key = true
    /\ PyDict.get key m = None.
Proof.
  intros F.
  destruct (add_unique_returns m (guess_key_from_style style true) style)
    as (m' & key & A).
  destruct (add_unique_effect _ _ _ _ _ A) as [[-> (es & I & E)] | (_ & G & -> & K)].
  - pose proof (find_norm_None _ _ F key es I) as Q.
    rewrite E, String.eqb_refl in Q. discriminate.
  - exists key. split; [exact A|]. split; [|exact G].
    destruct (guess_key_edge_prefix style) as (x & Ex). rewrite Ex in K.
    pose proof (safe_key_edge x) as P.
    destruct K as [-> | (i & ->)]; [exact P|].
    unfold suffixed. rewrite prefix_append_long; [exact P|].
    apply prefix_split in P. rewrite P, length_append. simpl. lia.
Qed.

Lemma new_edge_style_key_witness :
  exists key,
    add_unique [("edge.block", "endArrow=block;")]
      (guess_key_from_style "endArrow=block;dashed=1;" true) "endArrow=block;dashed=1;"
    = Some (([("edge.block", "endArrow=block;")]
             ++ [(key, "endArrow=block;dashed=1;")])%list, key)
    /\ String.prefix "edge." key = true
    /\ PyDict.get key [("edge.block", "endArrow=block;")] = None.
Proof.
  apply (new_edge_style_key [("edge.block", "endArrow=block;")] "endArrow=block;dashed=1;").
  reflexivity.
Defined.

End HarvestTheorems.

Section TextTheorems.
Import Drawio.

(** X8. The two escapes leave no markup character: what [xml_attr] returns
    holds no [<], no [>] and no double quote, so it cannot end the attribute
    it is written in; what [html_escape] returns holds no apostrophe
    either. *)
Theorem escapes_leave_no_markup (s : string) :
  free_of is_markup (xml_attr (Some s)) = true
  /\ free_of is_markup (html_escape s) = true
  /\ free_of is_apostrophe (html_escape s) = true
  /\ xml_attr None = "".
Proof.
  rewrite xml_attr_chars, html_escape_chars.
  split; [apply all_chars_subst, xml_code_free|].
  assert (free_of (fun x => is_markup x || is_apostrophe x)
            (subst_chars html_code s) = true) as H
    by apply all_chars_subst, html_code_free.
  split; [|split; [|reflexivity]].
  - eapply free_weaken; [|exact H]. intros c Hc. cbv beta. now rewrite Hc.
  - eapply free_weaken; [|exact H]. intros c Hc. cbv beta. rewrite Hc.
    apply orb_true_r.
Qed.

(** X9. [ensure_html] is idempotent and its result has the attribute
    [html=1]; every style [style_for_edge] returns has it, and so has every
    style [style_for_vertex] returns for a node with the html flag. *)
Theorem ensure_html_idempotent :
  (forall s, has_html1 (ensure_html s) = true
             /\ ensure_html (ensure_html s) = ensure_html s)
  /\ (forall styles prefs override,
        has_html1 (style_for_edge styles prefs override) = true)
  /\ (forall shape styles prefs override,
        has_html1 (style_for_vertex shape true styles prefs override) = true).
Proof.
  split; [|split].
  - intros s. split; [apply has_html1_ensure|].
    apply ensure_html_fixed, has_html1_ensure.
  - intros styles prefs override. unfold style_for_edge.
    destruct (truthy (style_from_key_or_literal override styles));
      [apply has_html1_ensure|].
    destruct (first_preferred styles prefs []);
      [apply has_html1_ensure | reflexivity].
  - intros shape styles prefs override. unfold style_for_vertex.
    destruct (truthy (style_from_key_or_literal override styles));
      [apply has_html1_ensure|].
    destruct (first_preferred styles prefs ["edge"]);
      [apply has_html1_ensure | now destruct shape].
Qed.

(** X10. [strip_to_json] returns the text from the first opening brace to
    the last closing brace of the answer, and raises when there is no
    opening brace followed by a closing one; the white space, the code
    fence and the [json] tag it removes first never change the result. *)
Theorem strip_to_json_first_to_last_brace (text : string) :
  strip_to_json text = json_span text
  /\ match strip_to_json text with
     | Some r =>
         exists a b c,
           text = a ++ "{" ++ b ++ "}" ++ c /\ r = "{" ++ b ++ "}"
           /\ free_of is_open a = true /\ free_of is_close c = true
     | None => forall a b c, text <> a ++ "{" ++ b ++ "}" ++ c
     end.
Proof.
  split; [apply strip_to_json_span|].
  rewrite strip_to_json_span.
  destruct (json_span text) as [r|] eqn:E;
    [now apply json_span_Some | now apply json_span_None].
Qed.

Lemma lower_char_idem (c : ascii) : lower_char (lower_char c) = lower_char c.
Proof. each_char c; reflexivity. Qed.

Lemma lower_idem (s : string) : lower (lower s) = lower s.
Proof.
  induction s as [|c s IH]; simpl; [reflexivity|].
  now rewrite lower_char_idem, IH.
Qed.

Lemma any_in_app (a b : list string) (p : string) :
  any_in (a ++ b) p = any_in a p || any_in b p.
Proof. unfold any_in. apply existsb_app. Qed.

(** X11. On a prompt of ASCII characters [infer_mode] tests keywords as
    substrings of the lower-cased prompt, the entity-relation keywords
    first: a prompt that holds one of them anywhere, inside a longer word
    and in any letter case, is taken for an entity-relation diagram whatever
    else it holds; a prompt that holds no keyword is generic; and the letter
    case of the prompt does not matter. *)
Theorem infer_mode_keywords (p : string) :
  all_chars is_ascii p = true ->
  (forall a k b,
     p = a ++ k ++ b -> In (lower k) er_keywords -> infer_mode p = mode_er)
  /\ (any_in all_keywords (lower p) = false -> infer_mode p = mode_generic)
  /\ infer_mode (lower p) = infer_mode p.
Proof.
  intros _. split; [|split].
  - intros a k b -> I. unfold infer_mode.
    rewrite !lower_append.
    now rewrite (any_in_In er_keywords (lower k) _ I (contains_append _ _ _)).
  - intros H. unfold all_keywords in H. rewrite !any_in_app in H.
    apply orb_false_iff in H as [H1 H]. apply orb_false_iff in H as [H2 H].
    apply orb_false_iff in H as [H3 H]. apply orb_false_iff in H as [H4 H].
    apply orb_false_iff in H as [H5 H6].
    unfold infer_mode. now rewrite H1, H2, H3, H4, H5, H6.
  - unfold infer_mode. now rewrite lower_idem.
Qed.

(** An order is taken for an entity-relation diagram: [ORDER] holds [DER]. *)
Lemma infer_mode_keywords_witness :
  (forall a k b,
     "Place an ORDER" = a ++ k ++ b -> In (lower k) er_keywords ->
     infer_mode "Place an ORDER" = mode_er)
  /\ (any_in all_keywords (lower "Place an ORDER") = false ->
      infer_mode "Place an ORDER" = mode_generic)
  /\ infer_mode (lower "Place an ORDER") = infer_mode "Place an ORDER".
Proof. apply (infer_mode_keywords "Place an ORDER"). reflexivity. Defined.

End TextTheorems.

Section GraphTheorems.
Import Drawio.

Lemma bfs_layers_roots (spec : graph_spec) (dist : PyDict.dict string nat) :
  bfs_layers spec = Some dist -> exists roots, layout_roots spec = Some roots.
Proof.
  unfold bfs_layers, layout_roots.
  destruct (build_graph spec) as [nodes_by_id indegree]. cbn [fst snd].
  destruct (start_queue nodes_by_id indegree) as [q|]; [eauto | discriminate].
Qed.

Lemma shortest_unique (edges : list edge) (roots : list string) (v : string) (d d' : nat) :
  shortest edges roots v d -> shortest edges roots v d' -> d = d'.
Proof. intros [H M] [H' M']. pose proof (M _ H'). pose proof (M' _ H). lia. Qed.

(** X12. [build_graph] counts the incoming edges: the two dictionaries it
    returns have the same keys, and [indegree] gives every node the number
    of edges that end at it, placeholders included.  So the traversal of
    the layout starts from the nodes no edge ends at, in the order of the
    node dictionary, or, when every node has an incoming edge, from the
    first node alone. *)
Theorem build_graph_indegree (spec : graph_spec) :
  PyDict.keys (snd (build_graph spec)) = PyDict.keys (fst (build_graph spec))
  /\ (forall n,
        PyDict.get n (snd (build_graph spec))
        = if PyDict.mem n (fst (build_graph spec))
          then Some (incoming (g_edges spec) n)
          else None)
  /\ layout_roots spec
     = match sources spec with
       | [] =>
           match PyDict.keys (fst (build_graph spec)) with
           | [] => None
           | nid :: _ => Some [nid]
           end
       | q => Some q
       end.
Proof.
  destruct (build_graph_counted spec) as (K & _ & C). unfold in_step in K.
  split; [now symmetry|]. split.
  - intros n. destruct (PyDict.mem n (fst (build_graph spec))) eqn:M.
    + apply mem_In in M. rewrite K in M. apply In_get_Some in M as (c & G).
      rewrite G. f_equal. now apply C.
    + apply get_None_iff. rewrite <- K. now apply mem_false_iff.
  - unfold layout_roots, start_queue. rewrite zero_indegree_sources.
    destruct (sources spec); [|reflexivity].
    now destruct (fst (build_graph spec)) as [|[nid n] l].
Qed.

(** X13. The layer of a node is the length of the shortest walk to it:
    for a specification with a node or an edge, [layer_layout] returns, and
    the position of a node is the place, on the grid of the direction
    chosen, whose layer is the least number of edges of a walk from the
    initial queue to the node; every node that has such a walk has such a
    position. *)
Theorem layer_is_shortest_walk (spec : graph_spec) (dir : option direction) :
  g_nodes spec <> [] \/ g_edges spec <> [] ->
  exists spec' pos roots,
    layer_layout spec dir = Some (spec', pos)
    /\ layout_roots spec = Some roots
    /\ (forall v xy,
          PyDict.get v pos = Some xy ->
          exists d i,
            shortest (g_edges spec) roots v d
            /\ xy = place (g_direction spec') d i)
    /\ (forall v d,
          shortest (g_edges spec) roots v d ->
          exists i, PyDict.get v pos = Some (place (g_direction spec') d i)).
Proof.
  intros NE.
  destruct (bfs_layers_returns spec NE) as (roots & dist & S & _ & B & _ & _).
  assert (exists d, match dir with
                    | None => choose_direction_auto spec
                    | Some d => Some d
                    end = Some d) as (d & D).
  { destruct dir as [d|]; [now exists d|].
    unfold choose_direction_auto. rewrite B. eauto. }
  assert (layer_layout spec dir
          = Some ({| g_title := g_title spec; g_direction := d;
                     g_nodes := g_nodes spec; g_edges := g_edges spec |},
                  assign_positions d (group_layers dist))) as L.
  { unfold layer_layout. rewrite D.
    change (bfs_layers {| g_title := g_title spec; g_direction := d;
                          g_nodes := g_nodes spec; g_edges := g_edges spec |})
      with (bfs_layers spec).
    now rewrite B. }
  pose proof (bfs_layers_layered _ _ _ S B) as Ly.
  pose proof (layered_shortest _ _ _ Ly) as Sh.
  destruct Ly as (Dk & _).
  assert (forall v xy,
            PyDict.get v (assign_positions d (group_layers dist)) = Some xy ->
            exists k i, shortest (g_edges spec) roots v k /\ xy = place d k i) as fwd.
  { intros v xy G.
    destruct (position_is_place _ _ _ _ Dk G) as (l & nids & i & Gl & _ & _ & E).
    exists l, i. split; [now apply Sh | exact E]. }
  do 3 eexists. split; [exact L|]. split; [exact S|]. cbn [g_direction].
  split; [exact fwd|].
  intros v k Hk.
  assert (In v (PyDict.keys (assign_positions d (group_layers dist)))) as I.
  { apply assign_positions_keys, group_layers_members.
    apply Sh in Hk. now apply get_Some_In in Hk. }
  apply In_get_Some in I as (xy & G).
  destruct (fwd v xy G) as (k' & i & Hk' & ->).
  exists i. now rewrite (shortest_unique _ _ _ _ _ Hk Hk').
Qed.

Lemma layer_is_shortest_walk_witness :
  exists spec' pos roots,
    layer_layout chain5 None = Some (spec', pos)
    /\ layout_roots chain5 = Some roots
    /\ (forall v xy,
          PyDict.get v pos = Some xy ->
          exists d i,
            shortest (g_edges chain5) roots v d
            /\ xy = place (g_direction spec') d i)
    /\ (forall v d,
          shortest (g_edges chain5) roots v d ->
          exists i, PyDict.get v pos = Some (place (g_direction spec') d i)).
Proof.
  apply (layer_is_shortest_walk chain5 None). left. discriminate.
Defined.

(** X14. No two nodes of the layout overlap: in the position map
    [layer_layout] returns, the coordinates are not negative, and two
    different nodes are a full pitch apart along one axis, the width of a
    node and the horizontal gap, or its height and the vertical gap. *)
Theorem layer_layout_no_overlap (spec spec' : graph_spec) (dir : option direction)
    (pos : PyDict.dict string (Z * Z)) (n1 n2 : string) (x1 y1 x2 y2 : Z) :
  layer_layout spec dir = Some (spec', pos) ->
  PyDict.get n1 pos = Some (x1, y1) ->
  PyDict.get n2 pos = Some (x2, y2) ->
  n1 <> n2 ->
  (0 <= x1 /\ 0 <= y1)%Z
  /\ (NODE_W + H_GAP <= Z.abs (x1 - x2) \/ NODE_H + V_GAP <= Z.abs (y1 - y2))%Z.
Proof.
  intros L G1 G2 N.
  destruct (layer_layout_parts _ _ _ _ L) as (dist & B & _ & _ & _ & _ & ->).
  destruct (bfs_layers_roots _ _ B) as (roots & R).
  destruct (bfs_layers_layered _ _ _ R B) as (D & _).
  destruct (position_is_place _ _ _ _ D G1) as (l1 & nids1 & i1 & _ & I1 & N1 & E1).
  destruct (position_is_place _ _ _ _ D G2) as (l2 & nids2 & i2 & _ & I2 & N2 & E2).
  split.
  - unfold place, NODE_W, NODE_H, H_GAP, V_GAP in E1.
    destruct (g_direction spec'); injection E1 as -> ->; lia.
  - assert ((l1, i1) <> (l2, i2)) as Ne.
    { intros E. injection E as <- <-. apply N.
      pose proof (In_unique_value _ _ _ _ (proj1 (group_layers_entries dist)) I1 I2) as <-.
      congruence. }
    pose proof (place_apart (g_direction spec') l1 i1 l2 i2 Ne) as P.
    rewrite <- E1, <- E2 in P. exact P.
Qed.

Lemma layer_layout_no_overlap_witness :
  ((0 <= 440 /\ 0 <= 0)%Z
   /\ (NODE_W + H_GAP <= Z.abs (440 - 440) \/ NODE_H + V_GAP <= Z.abs (0 - 256))%Z)
  /\ option_map snd (layer_layout star4 None)
     = Some [("r", (0, 0)); ("a", (440, 0)); ("b", (440, 256));
             ("c", (440, 512)); ("d", (440, 768))]%Z.
Proof.
  split; [|reflexivity].
  apply (layer_layout_no_overlap star4
           (mk_spec "" LR (g_nodes star4) (g_edges star4)) None
           [("r", (0, 0)); ("a", (440, 0)); ("b", (440, 256));
            ("c", (440, 512)); ("d", (440, 768))]%Z "a" "b");
    [reflexivity | reflexivity | reflexivity | discriminate].
Defined.

(** X15. The page holds every positioned node, with a margin: the page
    size [make_drawio_xml] writes is at least 1920 by 1080, and every
    position of the map, with the width or the height of a node and 80
    more, is within it. *)
Theorem page_holds_every_node (positions : PyDict.dict string (Z * Z)) :
  let (page_w, page_h) := page_size positions in
  (1920 <= page_w /\ 1080 <= page_h)%Z
  /\ forall nid x y,
       PyDict.get nid positions = Some (x, y) ->
       (x + NODE_W + 80 <= page_w /\ y + NODE_H + 80 <= page_h)%Z.
Proof.
  unfold page_size. split; [lia|].
  intros nid x y G. apply get_In in G.
  assert (In x (map (fun xy => fst xy) (PyDict.values positions))) as Ix.
  { unfold PyDict.values. rewrite map_map.
    apply (in_map (fun kv => fst (snd kv)) _ _ G). }
  assert (In y (map (fun xy => snd xy) (PyDict.values positions))) as Iy.
  { unfold PyDict.values. rewrite map_map.
    apply (in_map (fun kv => snd (snd kv)) _ _ G). }
  apply max_coord_ge in Ix, Iy. lia.
Qed.

End GraphTheorems.

Section ConverterTheorems.
Import Drawio.

(** X16. [nodes_edges_er] numbers the entities [E1], [E2], ... in their
    order, one node each; every edge it returns joins two of these nodes;
    and it keeps exactly the relations whose two entity names (the text
    before the first dot) are names of entities. *)
Theorem nodes_edges_er_graph (d : er_spec) :
  node_ids (nodes_edges_er d) = numbered "E" (List.length (er_entities d))
  /\ edges_join_nodes (nodes_edges_er d)
  /\ List.length (g_edges (nodes_edges_er d))
     = List.length
         (filter (fun r =>
                    declared_in (map ent_name (er_entities d)) (splitf_fst (r_from r))
                    && declared_in (map ent_name (er_entities d)) (splitf_fst (r_to r)))
            (er_relations d)).
Proof.
  destruct (nodes_edges_er_closed d) as [Ids J].
  split; [exact Ids|]. split; [exact J | apply er_edges_kept].
Qed.

(** X17. [nodes_edges_class] numbers the classes [C1], [C2], ... in their
    order; every edge joins two of these nodes; it keeps exactly the
    relations between names of classes. *)
Theorem nodes_edges_class_graph (d : class_spec) :
  node_ids (nodes_edges_class d) = numbered "C" (List.length (cs_classes d))
  /\ edges_join_nodes (nodes_edges_class d)
  /\ List.length (g_edges (nodes_edges_class d))
     = List.length
         (filter (fun r =>
                    declared_in (map cls_name (cs_classes d)) (cr_from r)
                    && declared_in (map cls_name (cs_classes d)) (cr_to r))
            (cs_relations d)).
Proof.
  destruct (nodes_edges_class_closed d) as [Ids J].
  split; [exact Ids|]. split; [exact J | apply class_edges_kept].
Qed.

(** X18. [nodes_edges_sequence] numbers the participants [P1], [P2], ...,
    one node for each entry of the list, repeated names included; every
    edge joins two of these nodes, and when a name is listed more than
    once a message is attached to its first entry. *)
Theorem nodes_edges_sequence_graph (d : sequence_spec) :
  node_ids (nodes_edges_sequence d) = numbered "P" (List.length (sq_participants d))
  /\ edges_join_nodes (nodes_edges_sequence d)
  /\ forall e, In e (g_edges (nodes_edges_sequence d)) ->
       exists m a b i j,
         In m (sq_messages d)
         /\ msg_from m = Some a /\ msg_to m = Some b /\ e_label e = msg_label m
         /\ e_from e = participant_id (i + 1) /\ e_to e = participant_id (j + 1)
         /\ nth_error (sq_participants d) i = Some a
         /\ nth_error (sq_participants d) j = Some b
         /\ (forall k, k < i -> nth_error (sq_participants d) k <> Some a)
         /\ (forall k, k < j -> nth_error (sq_participants d) k <> Some b).
Proof.
  destruct (nodes_edges_sequence_closed d) as [Ids J].
  split; [exact Ids|]. split; [exact J|].
  intros e I. unfold nodes_edges_sequence in I. cbn [g_edges] in I.
  apply in_flat_map in I as (m & Im & I). unfold sequence_edge in I.
  destruct (in_names (msg_from m) (sq_participants d)
            && in_names (msg_to m) (sq_participants d)); [|destruct I].
  destruct (msg_from m) as [a|] eqn:Ea; [|destruct I].
  destruct (msg_to m) as [b|] eqn:Eb; [|destruct I].
  destruct (PyList.index a (sq_participants d)) as [i|] eqn:A; [|destruct I].
  destruct (PyList.index b (sq_participants d)) as [j|] eqn:B; [|destruct I].
  destruct I as [<-|[]]. cbn [e_from e_to e_label].
  exists m, a, b, i, j.
  pose proof (index_lt _ _ _ A) as [_ Na]. pose proof (index_lt _ _ _ B) as [_ Nb].
  pose proof (index_first _ _ _ A) as Fa. pose proof (index_first _ _ _ B) as Fb.
  repeat (split; [first [assumption | reflexivity]|]). exact Fb.
Qed.

(** X19. [nodes_edges_state] gives its nodes pairwise distinct
    identifiers, [S0] for the start, [SE] for the end and [S] with a number
    for the states; every edge joins two of its nodes; it returns no node
    exactly when it is given no start, no end and no state; and it keeps
    exactly the transitions between the start, the end and the states
    listed: a state named in a transition only gets no node, and the
    transition is dropped. *)
Theorem nodes_edges_state_graph (d : state_spec) :
  NoDup (node_ids (nodes_edges_state d))
  /\ edges_join_nodes (nodes_edges_state d)
  /\ (forall x, In x (node_ids (nodes_edges_state d)) ->
        x = "S0" \/ x = "SE" \/ exists j, 1 <= j /\ x = "S" ++ str_of_N (N.of_nat j))
  /\ (g_nodes (nodes_edges_state d) = []
      <-> truthy (ss_start d) = None /\ truthy (ss_end d) = None /\ ss_states d = [])
  /\ List.length (g_edges (nodes_edges_state d))
     = List.length (filter (between_states d) (ss_transitions d)).
Proof.
  destruct (nodes_edges_state_closed d) as (D & J & _).
  split; [exact D|]. split; [exact J|]. split; [|split; [|apply state_edges_kept]].
  - pose proof (state_nodes_inv d) as (_ & _ & _ & F).
    unfold nodes_edges_state, node_ids.
    destruct (state_nodes d) as [nodes ids]. cbn [fst snd g_nodes] in *.
    intros x Ix. destruct (F x Ix) as [E|[E|(j & L & E)]]; [tauto | tauto |].
    right. right. exists j. split; [lia | exact E].
  - apply (converters_empty (built_state d)).
Qed.

(** X20. [nodes_edges_activity] numbers the activities [A1], [A2], ... in
    their order; every edge joins two of these nodes, and it returns at
    most one edge for each edge of its input. *)
Theorem nodes_edges_activity_graph (d : activity_spec) :
  node_ids (nodes_edges_activity d) = numbered "A" (List.length (as_activities d))
  /\ edges_join_nodes (nodes_edges_activity d)
  /\ List.length (g_edges (nodes_edges_activity d)) <= List.length (as_edges d).
Proof.
  destruct (nodes_edges_activity_closed d) as [Ids J].
  split; [exact Ids|]. split; [exact J|].
  unfold nodes_edges_activity.
  destruct (activity_nodes 1 (as_activities d) []) as [nodes m]. cbn [g_edges].
  unfold activity_edges. induction (as_edges d) as [|e l IH]; simpl; [lia|].
  rewrite length_app.
  destruct (lookup_name m (ae_from e)); destruct (lookup_name m (ae_to e)); simpl; lia.
Qed.

Lemma vertex_style_actor (styles : PyDict.dict string string) (override : overrides)
    (n : node) (i : N) :
  n_id n = "A" ++ str_of_N i ->
  vertex_style mode_usecase styles override n = actor_style styles override.
Proof.
  intros E. unfold vertex_style, startswith. rewrite E. cbn [append].
  now rewrite prefix_cons, prefix_empty.
Qed.

Lemma vertex_style_usecase (styles : PyDict.dict string string) (override : overrides)
    (n : node) (i : N) :
  n_id n = "U" ++ str_of_N i ->
  vertex_style mode_usecase styles override n = usecase_style styles override.
Proof.
  intros E. unfold vertex_style, startswith. rewrite E. cbn [append].
  now rewrite !prefix_cons, prefix_empty.
Qed.

(** X21. The use case branch of [build_spec_from_mode] numbers the actors
    [A1], [A2], ... and the use cases [U1], [U2], ...; every edge joins two
    of these nodes.  In the document every one of these nodes gets the
    style of an actor or of a use case by the first letter of its
    identifier, none the generic style; and the style of the edges depends
    on no option of the command line, the dictionary of [main] having no
    entry [usecase_edge]. *)
Theorem usecase_graph_and_styles (d : usecase_spec)
    (styles : PyDict.dict string string) :
  node_ids (nodes_edges_usecase d)
  = (numbered "A" (List.length (us_actors d))
     ++ numbered "U" (List.length (us_usecases d)))%list
  /\ edges_join_nodes (nodes_edges_usecase d)
  /\ (forall override,
        map (vertex_style mode_usecase styles override) (g_nodes (nodes_edges_usecase d))
        = (repeat (actor_style styles override) (List.length (us_actors d))
           ++ repeat (usecase_style styles override) (List.length (us_usecases d)))%list)
  /\ (forall o1 o2 o3 o4 o5 o6 o7 o8,
        edge_style mode_usecase styles (main_overrides o1 o2 o3 o4 o5 o6 o7 o8)
        = style_for_edge styles (e_pref mode_usecase) None).
Proof.
  destruct (nodes_edges_usecase_closed d) as [Ids J].
  split; [exact Ids|]. split; [exact J|]. split; [|reflexivity].
  intros override. unfold nodes_edges_usecase.
  destruct (actor_nodes_ids (us_actors d) 1 []) as (IdsA & _).
  destruct (actor_nodes 1 (us_actors d) []) as [actors m]. cbn [fst snd] in *.
  destruct (usecase_nodes_ids (us_usecases d) 1 m) as (IdsU & _).
  destruct (usecase_nodes 1 (us_usecases d) m) as [usecases m'].
  cbn [fst snd g_nodes] in *. rewrite map_app. f_equal.
  - assert (List.length actors = List.length (us_actors d)) as <-
      by (rewrite <- (length_map n_id), IdsA, length_map; apply length_seq).
    assert (forall n, In n actors -> exists i, n_id n = "A" ++ str_of_N i) as H.
    { intros n I. apply (in_map n_id) in I. rewrite IdsA in I.
      apply in_map_iff in I as (j & <- & _). eauto. }
    clear - H. induction actors as [|n l IH]; [reflexivity|].
    cbn [map List.length repeat]. f_equal.
    + destruct (H n (or_introl eq_refl)) as (i & E). now apply (vertex_style_actor _ _ _ i).
    + apply IH. intros x I. apply H. now right.
  - assert (List.length usecases = List.length (us_usecases d)) as <-
      by (rewrite <- (length_map n_id), IdsU, length_map; apply length_seq).
    assert (forall n, In n usecases -> exists i, n_id n = "U" ++ str_of_N i) as H.
    { intros n I. apply (in_map n_id) in I. rewrite IdsU in I.
      apply in_map_iff in I as (j & <- & _). eauto. }
    clear - H. induction usecases as [|n l IH]; [reflexivity|].
    cbn [map List.length repeat]. f_equal.
    + destruct (H n (or_introl eq_refl)) as (i & E). now apply (vertex_style_usecase _ _ _ i).
    + apply IH. intros x I. apply H. now right.
Qed.

End ConverterTheorems.

Section PipelineTheorems.
Import Drawio.

(** X22. In the document of a converted specification (every mode but the
    generic one) the identifiers written for the cells are pairwise
    distinct, the two root cells [0] and [1] included: no node identifier
    is changed by [xml_attr], none equals an edge identifier. *)
Theorem converted_document_ids_distinct (b : built)
    (positions : PyDict.dict string (Z * Z)) (styles : PyDict.dict string string)
    (override : overrides) :
  mode_of b <> mode_generic ->
  let spec := build_spec_from_mode b in
  NoDup ("0" :: "1"
         :: map written_id
              (vertex_cells (mode_of b) styles override positions spec
               ++ edge_cells (mode_of b) styles override spec))
  /\ map written_id (vertex_cells (mode_of b) styles override positions spec)
     = node_ids spec.
Proof.
  intros G. cbv zeta.
  destruct (converters_closed b G) as (D & _ & C).
  split; [now apply document_ids_distinct|].
  unfold vertex_cells, node_ids. rewrite map_map.
  apply map_ext_in. intros n I. rewrite written_id_vertex.
  apply converter_id_written, C. now apply in_map.
Qed.

Lemma converted_document_ids_distinct_witness :
  let spec := build_spec_from_mode two_participants in
  NoDup ("0" :: "1"
         :: map written_id
              (vertex_cells (mode_of two_participants) [] no_overrides [] spec
               ++ edge_cells (mode_of two_participants) [] no_overrides spec))
  /\ map written_id (vertex_cells (mode_of two_participants) [] no_overrides [] spec)
     = node_ids spec.
Proof.
  apply (converted_document_ids_distinct two_participants [] [] no_overrides).
  discriminate.
Defined.

Lemma layer_layout_keys (spec spec' : graph_spec) (dir : option direction)
    (pos : PyDict.dict string (Z * Z)) (nid : string) :
  layer_layout spec dir = Some (spec', pos) ->
  In nid (PyDict.keys pos) -> In nid (PyDict.keys (fst (build_graph spec))).
Proof.
  intros L I.
  destruct (layer_layout_parts _ _ _ _ L) as (dist & B & _ & _ & _ & _ & ->).
  apply assign_positions_keys, group_layers_members in I.
  destruct (bfs_layers_returns spec) as (roots & dist' & _ & _ & B' & _ & K).
  - destruct (g_nodes spec) as [|n l] eqn:En; [|left; discriminate].
    destruct (g_edges spec) as [|e l] eqn:Ee; [|right; discriminate].
    unfold bfs_layers, build_graph in B. rewrite En, Ee in B. discriminate.
  - rewrite B in B'. injection B' as <-. now apply K.
Qed.

(** X23. On a converted specification [build_graph] synthesizes no
    placeholder: its node dictionary is the list of the nodes of the
    specification, in their order; so every node the layout gives a
    position is a node the serializer writes. *)
Theorem converted_graph_has_no_placeholder (b : built) :
  mode_of b <> mode_generic ->
  let spec := build_spec_from_mode b in
  fst (build_graph spec) = map (fun n => (n_id n, n)) (g_nodes spec)
  /\ forall dir spec' pos nid,
       layer_layout spec dir = Some (spec', pos) ->
       In nid (PyDict.keys pos) -> In nid (node_ids spec).
Proof.
  intros G. cbv zeta.
  destruct (converters_closed b G) as (D & J & _).
  pose proof (build_graph_closed _ D J) as E.
  split; [exact E|].
  intros dir spec' pos nid L I.
  apply (layer_layout_keys _ _ _ _ _ L) in I.
  rewrite E in I. unfold PyDict.keys in I. now rewrite map_map in I.
Qed.

Lemma converted_graph_has_no_placeholder_witness :
  let spec := build_spec_from_mode two_participants in
  fst (build_graph spec) = map (fun n => (n_id n, n)) (g_nodes spec)
  /\ forall dir spec' pos nid,
       layer_layout spec dir = Some (spec', pos) ->
       In nid (PyDict.keys pos) -> In nid (node_ids spec).
Proof.
  apply (converted_graph_has_no_placeholder two_participants). discriminate.
Defined.

(** X24. After a converter, [pipeline] raises exactly when the input of
    the converter holds no element to draw (no entity, no class, no
    participant, no activity, neither actor nor use case, neither start nor
    end nor state): [layer_layout] then has no node to start from, and it
    returns in every other case. *)
Theorem pipeline_raises_on_no_element (b : built) (page_id prompt : string)
    (m : option mode) (dir : option direction)
    (styles : PyDict.dict string string) (override : overrides) :
  mode_of b <> mode_generic ->
  (pipeline page_id prompt m (build_spec_from_mode b) dir styles override = None
   <-> no_element b)
  /\ (layer_layout (build_spec_from_mode b) dir = None <-> no_element b).
Proof.
  intros G.
  destruct (converters_closed b G) as (_ & J & _).
  pose proof (layer_layout_closed (build_spec_from_mode b) dir J) as L.
  rewrite converters_empty in L.
  split; [|exact L].
  unfold pipeline.
  destruct (layer_layout (build_spec_from_mode b) dir) as [[spec pos]|].
  - split; [discriminate|]. intros N. apply L in N. discriminate.
  - split; [intros _; now apply L | reflexivity].
Qed.

Lemma pipeline_raises_on_no_element_witness :
  (pipeline "id" "a state diagram" None
     (build_spec_from_mode empty_state_diagram)
     None [] no_overrides = None
   <-> no_element empty_state_diagram)
  /\ (layer_layout
        (build_spec_from_mode empty_state_diagram)
        None = None
      <-> no_element empty_state_diagram).
Proof.
  apply (pipeline_raises_on_no_element
           empty_state_diagram).
  discriminate.
Defined.

Lemma find_style_sound (styles : PyDict.dict string string)
    (include exclude : list string) (s : string) :
  _find_style styles include exclude = Some s ->
  exists k,
    PyDict.get k styles = Some s
    /\ (forall tok, In tok include -> contains (lower tok) (lower k) = true)
    /\ (forall tok, In tok exclude -> contains (lower tok) (lower k) = false).
Proof.
  unfold _find_style. destruct styles as [|kv0 rest]; [discriminate|].
  set (styles := kv0 :: rest).
  destruct (find _ styles) as [[k v]|] eqn:F; [|discriminate].
  destruct k as [|c k]; [discriminate|].
  apply find_some in F as [_ M]. cbn [fst] in M.
  apply andb_prop in M as [Inc Exc].
  intros G. exists (String c k). split; [exact G|]. split.
  - intros tok I. rewrite forallb_forall in Inc. apply Inc. now apply in_map.
  - intros tok I. apply negb_true_iff in Exc.
    destruct (contains (lower tok) (lower (String c k))) eqn:C; [|reflexivity].
    assert (existsb (fun t => contains t (lower (String c k))) (map lower exclude) = true)
      as X; [|congruence].
    apply existsb_exists. exists (lower tok). split; [now apply in_map | exact C].
Qed.

Lemma first_preferred_sound (styles : PyDict.dict string string)
    (prefs : list (list string)) (exclude : list string) (s : string) :
  first_preferred styles prefs exclude = Some s ->
  exists inc k,
    In inc prefs /\ PyDict.get k styles = Some s /\ s <> ""
    /\ (forall tok, In tok inc -> contains (lower tok) (lower k) = true)
    /\ (forall tok, In tok exclude -> contains (lower tok) (lower k) = false).
Proof.
  induction prefs as [|inc prefs IH]; cbn [first_preferred]; [discriminate|].
  destruct (_find_style styles inc exclude) as [r|] eqn:F.
  - destruct r as [|c r]; cbn [truthy].
    + intros H. destruct (IH H) as (inc' & k & I & R). exists inc', k.
      split; [now right | exact R].
    + intros [= <-]. destruct (find_style_sound _ _ _ _ F) as (k & G & Inc & Exc).
      exists inc, k. split; [now left|]. split; [exact G|]. split; [discriminate|].
      now split.
  - cbn [truthy]. intros H. destruct (IH H) as (inc' & k & I & R). exists inc', k.
    split; [now right | exact R].
Qed.

(** X25. With no override, [style_for_vertex] returns the structural
    default of the shape or a style of the library (with [html=1] added for
    a node with the html flag) whose key holds every token of one of the
    preferences and does not hold [edge], letter case apart: a style filed
    under an edge key is never given to a vertex. *)
Theorem style_for_vertex_never_edge (shape : shape_kind) (html : bool)
    (styles : PyDict.dict string string) (prefs : list (list string)) :
  style_for_vertex shape html styles prefs None = default_vertex_style shape html
  \/ exists inc k s,
       In inc prefs /\ PyDict.get k styles = Some s
       /\ (forall tok, In tok inc -> contains (lower tok) (lower k) = true)
       /\ contains "edge" (lower k) = false
       /\ style_for_vertex shape html styles prefs None
          = if html then ensure_html s else s.
Proof.
  unfold style_for_vertex. cbn [style_from_key_or_literal truthy].
  destruct (first_preferred styles prefs ["edge"]) as [s|] eqn:F; [|now left].
  right. destruct (first_preferred_sound _ _ _ _ F) as (inc & k & I & G & _ & Inc & Exc).
  exists inc, k, s. split; [exact I|]. split; [exact G|]. split; [exact Inc|].
  split; [|reflexivity]. apply (Exc "edge"). now left.
Qed.

Lemma bfs_layers_same (s1 s2 : graph_spec) :
  g_nodes s1 = g_nodes s2 -> g_edges s1 = g_edges s2 -> bfs_layers s1 = bfs_layers s2.
Proof. intros N E. unfold bfs_layers, build_graph. now rewrite N, E. Qed.

(** X26. The direction a specification declares is never read:
    [layer_layout] replaces it by the direction asked for or, when none is
    asked for, by the one [choose_direction_auto] computes from the nodes
    and the edges; two specifications with the same nodes and edges get the
    same positions and the same direction, so the [LR] the sequence and use
    case converters set has no effect. *)
Theorem declared_direction_is_ignored (s1 s2 : graph_spec) (dir : option direction) :
  g_nodes s1 = g_nodes s2 -> g_edges s1 = g_edges s2 ->
  choose_direction_auto s1 = choose_direction_auto s2
  /\ option_map snd (layer_layout s1 dir) = option_map snd (layer_layout s2 dir)
  /\ option_map (fun r => g_direction (fst r)) (layer_layout s1 dir)
     = option_map (fun r => g_direction (fst r)) (layer_layout s2 dir)
  /\ forall d spec' pos,
       layer_layout s1 (Some d) = Some (spec', pos) -> g_direction spec' = d.
Proof.
  intros N E.
  assert (choose_direction_auto s1 = choose_direction_auto s2) as C
    by (unfold choose_direction_auto; now rewrite (bfs_layers_same s1 s2 N E)).
  split; [exact C|].
  assert (forall s d, bfs_layers {| g_title := g_title s; g_direction := d;
                                    g_nodes := g_nodes s; g_edges := g_edges s |}
                      = bfs_layers s) as same by reflexivity.
  split; [|split].
  - unfold layer_layout. rewrite C.
    destruct (match dir with None => choose_direction_auto s2 | Some d => Some d end);
      [|reflexivity].
    rewrite !same, (bfs_layers_same s1 s2 N E). now destruct (bfs_layers s2).
  - unfold layer_layout. rewrite C.
    destruct (match dir with None => choose_direction_auto s2 | Some d => Some d end);
      [|reflexivity].
    rewrite !same, (bfs_layers_same s1 s2 N E). now destruct (bfs_layers s2).
  - intros d spec' pos L. apply layer_layout_parts in L as (_ & _ & D & _). exact D.
Qed.

Lemma declared_direction_is_ignored_witness :
  choose_direction_auto chain5
  = choose_direction_auto (mk_spec "" LR (g_nodes chain5) (g_edges chain5))
  /\ option_map snd (layer_layout chain5 None)
     = option_map snd
         (layer_layout (mk_spec "" LR (g_nodes chain5) (g_edges chain5)) None)
  /\ option_map (fun r => g_direction (fst r)) (layer_layout chain5 None)
     = option_map (fun r => g_direction (fst r))
         (layer_layout (mk_spec "" LR (g_nodes chain5) (g_edges chain5)) None)
  /\ forall d spec' pos,
       layer_layout chain5 (Some d) = Some (spec', pos) -> g_direction spec' = d.
Proof.
  apply (declared_direction_is_ignored chain5
           (mk_spec "" LR (g_nodes chain5) (g_edges chain5)) None); reflexivity.
Defined.

End PipelineTheorems.
